(** * SSCP 2024 lectures: a verification development

    Shallow embeddings of the lecture code (L09 calcium handling, L16 machine
    learning, the openCARP single-cell drivers) with the properties their
    specification states.

    Numbers.  Where a result of the code is discrete (a bin index, a
    number of samples or stimuli, whether a row is kept) Python's floats
    are modelled as such: [Float64] rounds every rational to the nearest
    binary64 number, ties to even, with the subnormal range, overflow to
    infinity and NaN, and the quotients, differences and comparisons of
    those places are the rounded ones.  Elsewhere the floats are modelled
    by exact numbers: the reals [R] where the code calls [exp] or an
    arbitrary power, the rationals [Q] where it only adds, multiplies and
    compares.  An operation that raises in Python ([ZeroDivisionError],
    [OverflowError], [ValueError], ...) returns no value in the model. *)

From Stdlib Require Import Reals Psatz ZArith QArith Qround Qpower.
From Stdlib Require Import String Ascii DecimalString List.
From stdpp Require Import base option list gmap.
Import ListNotations.

(** ** Python built-ins the drivers use *)

Module Py.

Local Open Scope string_scope.

(** [str(n)] for an integer. *)
Definition str_int (n : Z) : string := NilZero.string_of_int (Z.to_int n).

(** [str(x)] for an integer option that is [None] when not given. *)
Definition str_optional_int (x : option Z) : string :=
  match x with
  | Some n => str_int n
  | None => "None"
  end.

(** [template.format(a1, ..., an)] for a template whose only replacement fields
    are [{}]: the fields take the arguments in order, arguments left over
    are ignored, and a field without an argument raises [IndexError]
    ([None]).  The arguments are the [str] of what the code passes. *)
Fixpoint format (template : string) (args : list string) : option string :=
  match template with
  | "" => Some ""
  | String "{" (String "}" rest) =>
      match args with
      | a :: args' =>
          match format rest args' with
          | Some s => Some (a ++ s)
          | None => None
          end
      | [] => None
      end
  | String c rest =>
      match format rest args with
      | Some s => Some (String c s)
      | None => None
      end
  end.

(** [sub in s] on strings. *)
Fixpoint contains (sub s : string) : bool :=
  String.prefix sub s ||
  match s with
  | "" => false
  | String _ s' => contains sub s'
  end.

(** [os.path.join(a, b)] on POSIX. *)
Definition os_path_join (a b : string) : string :=
  match b with
  | String "/" _ => b
  | _ =>
      if String.eqb a "" then b
      else if String.eqb (substring (String.length a - 1) 1 a) "/" then a ++ b
      else a ++ "/" ++ b
  end.

(** [x ** n] on floats raises [ZeroDivisionError] for zero to a negative
    power. *)
Definition pow_raises (x n : R) : bool :=
  if Req_dec_T x 0 then (if Rlt_dec n 0 then true else false) else false.

(** [x ** n], given what [**] returns where it returns a float; [None]
    is [ZeroDivisionError]. *)
Definition pow (py_pow : R -> R -> R) (x n : R) : option R :=
  if pow_raises x n then None else Some (py_pow x n).

(** [x / y] on floats; [None] is [ZeroDivisionError]. *)
Definition truediv (x y : R) : option R :=
  if Req_dec_T y 0 then None else Some (x / y)%R.

End Py.


(** ** Python's [float]: IEEE 754 binary64, round to nearest even *)

Module Float64.

Local Open Scope Q_scope.

(** A float: a finite number, an infinity or a NaN.  The sign of zero is
    left out; no operation modelled here tells the two zeros apart. *)
Inductive pyfloat :=
| Finite (x : Q)
| Infinity (negative : bool)
| NaN.

Definition pow2 (e : Z) : Q := 2 ^ e.

(** [floor(log2 q)] of a positive [q]. *)
Definition ilog2 (q : Q) : Z :=
  let k := (Z.log2 (Qnum q) - Z.log2 (Zpos (Qden q)))%Z in
  if Qle_bool (pow2 k) q then k else (k - 1)%Z.

(** The integer nearest to [q], the even one of two that are equally
    near. *)
Definition rne (q : Q) : Z :=
  let f := Qfloor q in
  match Qcompare (q - inject_Z f) (1 # 2) with
  | Lt => f
  | Gt => (f + 1)%Z
  | Eq => if Z.even f then f else (f + 1)%Z
  end.

(** The exponent of the last place of a positive [q]: 53 significant
    bits, and no exponent below that of the subnormal numbers. *)
Definition ulp_exponent (q : Q) : Z := Z.max (ilog2 q - 52) (-1074).

(** A positive [q] rounded to 53 bits, before the test for overflow. *)
Definition round_pos (q : Q) : Q :=
  let e := ulp_exponent q in
  inject_Z (rne (q / pow2 e)) * pow2 e.

(** The float nearest to the number [q]; beyond the largest float, an
    infinity. *)
Definition round (q : Q) : pyfloat :=
  match Qcompare q 0 with
  | Eq => Finite 0
  | Gt =>
      let r := round_pos q in
      if Qle_bool (pow2 1024) r then Infinity false else Finite (Qred r)
  | Lt =>
      let r := round_pos (- q) in
      if Qle_bool (pow2 1024) r then Infinity true else Finite (Qred (- r))
  end.

(** The float a number written in the program or passed to it denotes.
    A number that is a float already denotes itself. *)
Definition fl (q : Q) : pyfloat := round q.

(** A value handed over as a float, brought to the floats. *)
Definition to_float (x : pyfloat) : pyfloat :=
  match x with
  | Finite q => round q
  | _ => x
  end.

Definition is_zero (x : pyfloat) : bool :=
  match x with
  | Finite q => Qeq_bool q 0
  | _ => false
  end.

Definition opp (x : pyfloat) : pyfloat :=
  match x with
  | Finite q => Finite (- q)
  | Infinity n => Infinity (negb n)
  | NaN => NaN
  end.

(** [x / y]; [None] is [ZeroDivisionError]. *)
Definition div (x y : pyfloat) : option pyfloat :=
  if is_zero y then None
  else
    Some match x, y with
         | NaN, _ | _, NaN => NaN
         | Infinity _, Infinity _ => NaN
         | Infinity n, Finite b => Infinity (xorb n (negb (Qle_bool 0 b)))
         | Finite _, Infinity _ => Finite 0
         | Finite a, Finite b => round (a / b)
         end.

(** [x + y] *)
Definition add (x y : pyfloat) : pyfloat :=
  match x, y with
  | NaN, _ | _, NaN => NaN
  | Infinity n, Infinity m => if Bool.eqb n m then Infinity n else NaN
  | Infinity n, Finite _ | Finite _, Infinity n => Infinity n
  | Finite a, Finite b => round (a + b)
  end.

(** [x - y] *)
Definition sub (x y : pyfloat) : pyfloat := add x (opp y).

(** [x > y]; false when one of them is a NaN. *)
Definition gt (x y : pyfloat) : bool :=
  match x, y with
  | NaN, _ | _, NaN => false
  | Infinity n, Infinity m => negb n && m
  | Infinity n, Finite _ => negb n
  | Finite _, Infinity m => m
  | Finite a, Finite b => negb (Qle_bool a b)
  end.

(** [int(x)]: truncation towards zero; [OverflowError] for an infinity,
    [ValueError] for a NaN. *)
Definition int (x : pyfloat) : string + Z :=
  match x with
  | Finite q => inr (Z.quot (Qnum q) (Zpos (Qden q)))
  | Infinity _ => inl "OverflowError"%string
  | NaN => inl "ValueError"%string
  end.

(** [x / y] for two numbers, as Python computes it. *)
Definition quotient (x y : Q) : option pyfloat := div (fl x) (fl y).

(** [int(x / y)]; [None] is an exception: [ZeroDivisionError], or
    [OverflowError] when the quotient is beyond the floats. *)
Definition int_quotient (x y : Q) : option Z :=
  match quotient x y with
  | Some f => match int f with inr z => Some z | inl _ => None end
  | None => None
  end.

(** The floor of the float quotient, where it is finite. *)
Definition floor_quotient (x y : Q) : option Z :=
  match quotient x y with
  | Some (Finite q) => Some (Qfloor q)
  | _ => None
  end.

End Float64.
(** ** L16 (Machine Learning)/variable.py: reverse-mode automatic differentiation *)

Module Autodiff.

Local Open Scope R_scope.

(** [np.sign] on a finite number. *)
Definition sign (v : R) : R :=
  if Rlt_dec 0 v then 1 else if Rlt_dec v 0 then -1 else 0.

(** A [Variable] object.  Object identity ([is], dictionary keys) is the
    index at which the object was allocated; [_gradients] holds the pairs
    (child object, local derivative).  The memo field [_stored_gradients]
    only caches [compute_gradients] and is left out. *)
Record VariableObj := mkVariable {
  value : R;
  _gradients : list (nat * R);
  name : string
}.

(** The objects allocated so far, in allocation order. *)
Abbreviation heap := (list VariableObj).

(** Code that allocates objects and may raise: [None] is an exception
    (or, for [deref], a reference to no object). *)
Definition M (A : Type) : Type := heap -> option (A * heap).

Definition raise {A} : M A := fun _ => None.

Definition ret {A} (a : A) : M A := fun h => Some (a, h).

Definition bind {A B} (m : M A) (k : A -> M B) : M B :=
  fun h => match m h with
           | Some (a, h') => k a h'
           | None => None
           end.

Notation "'do' x <- m ; k" := (bind m (fun x => k))
  (at level 10, x name, m at level 100, k at level 200).

Definition deref (v : nat) : M VariableObj :=
  fun h => match h !! v with
           | Some o => Some (o, h)
           | None => None
           end.

(** [Variable.__init__]: without [gradients] the new object gets the
    single edge [(self, np.sign(value))]. *)
Definition __init__ (value : R) (gradients : option (list (nat * R)))
    (name : string) : M nat :=
  fun h =>
    let self := length h in
    let g := match gradients with
             | Some g => g
             | None => [(self, sign value)]
             end in
    Some (self, h ++ [mkVariable value g name]).

(** The right operand of an operator: a [Variable] or a plain number. *)
Inductive operand :=
| Var (v : nat)
| Num (x : R).

(** [other if isinstance(other, Variable) else Variable(other)] *)
Definition wrap (other : operand) : M nat :=
  match other with
  | Var v => ret v
  | Num x => __init__ x None ""
  end.

Section Operations.

(** Python's [**] on two numbers. *)
Variable py_pow : R -> R -> R.

Definition add (a b : nat) : M nat :=
  do va <- deref a; do vb <- deref b;
  __init__ (value va + value vb) (Some [(a, 1); (b, 1)]) "".

Definition mul (a b : nat) : M nat :=
  do va <- deref a; do vb <- deref b;
  __init__ (value va * value vb) (Some [(a, value vb); (b, value va)]) "".

Definition neg (a : nat) : M nat :=
  do va <- deref a;
  __init__ (-1 * value va) (Some [(a, -1)]) "".

(** [1. / a.value] raises [ZeroDivisionError] at [a.value = 0] (for a
    numpy scalar it is [inf], no real number).  The square [a.value**2]
    is zero only where [a.value] is. *)
Definition inv (a : nat) : M nat :=
  do va <- deref a;
  if Req_dec_T (value va) 0 then raise
  else __init__ (1 / value va) (Some [(a, -1 / py_pow (value va) 2)]) "".

(** [a.value**n] raises [ZeroDivisionError] for zero to a negative
    power. *)
Definition pow (a : nat) (n : R) : M nat :=
  do va <- deref a;
  if Py.pow_raises (value va) n then raise
  else __init__ (py_pow (value va) n) (Some [(a, n * value va)]) "".

Definition exp (a : operand) : M nat :=
  do a <- wrap a;
  do va <- deref a;
  let value := Rtrigo_def.exp (value va) in
  __init__ value (Some [(a, value)]) "".

Definition __add__ (self : nat) (other : operand) : M nat :=
  do other <- wrap other; add self other.

Definition __radd__ (self : nat) (other : operand) : M nat :=
  do other <- wrap other; add self other.

Definition __mul__ (self : nat) (other : operand) : M nat :=
  do other <- wrap other; mul self other.

Definition __rmul__ (self : nat) (other : operand) : M nat :=
  do other <- wrap other; mul self other.

Definition __sub__ (self : nat) (other : operand) : M nat :=
  do other <- wrap other; do n <- neg other; add self n.

Definition __rsub__ (self : nat) (other : operand) : M nat :=
  do other <- wrap other; do n <- neg self; add other n.

Definition __truediv__ (self : nat) (other : operand) : M nat :=
  do other <- wrap other; do i <- inv other; mul self i.

Definition __rtruediv__ (self : nat) (other : operand) : M nat :=
  do other <- wrap other; do i <- inv self; mul other i.

Definition __pow__ (self : nat) (exponent : R) : M nat := pow self exponent.

(** [pow(exponent, self)] reads [.value] of the number [exponent]:
    [AttributeError]. *)
Definition __rpow__ (self : nat) (exponent : R) : M nat := raise.

Definition __neg__ (self : nat) : M nat := neg self.

(** [gradients[k]] on the [defaultdict(lambda: 0)]. *)
Definition getitem (gradients : gmap nat R) (k : nat) : R :=
  default 0 (gradients !! k).

(** The test that ends the recursion of [_compute_gradients]:
    [len(child._gradients) == 1 and child._gradients[0][0] is child]. *)
Definition criteria (h : heap) (child_variable : nat) : option bool :=
  match h !! child_variable with
  | None => None
  | Some c =>
      Some (match _gradients c with
            | [(target, _)] => Nat.eqb target child_variable
            | _ => false
            end)
  end.

(** The body of the [for] loop of [_compute_gradients]; [recurse] is the
    recursive call. *)
Fixpoint for_edges (recurse : nat -> R -> gmap nat R -> option (gmap nat R))
    (h : heap) (total_gradient : R) (edges : list (nat * R))
    (gradients : gmap nat R) : option (gmap nat R) :=
  match edges with
  | [] => Some gradients
  | (child_variable, child_gradient) :: rest =>
      let gradient := total_gradient * child_gradient in
      let gradients :=
        <[child_variable := getitem gradients child_variable + gradient]>
          gradients in
      match criteria h child_variable with
      | None => None
      | Some true => for_edges recurse h total_gradient rest gradients
      | Some false =>
          match recurse child_variable gradient gradients with
          | Some gradients => for_edges recurse h total_gradient rest gradients
          | None => None
          end
      end
  end.

(** [_compute_gradients]; [fuel] bounds the depth of the recursion, which
    Python bounds by its recursion limit. *)
Fixpoint _compute_gradients (fuel : nat) (h : heap) (variable : nat)
    (total_gradient : R) (gradients : gmap nat R) : option (gmap nat R) :=
  match fuel with
  | O => None
  | S fuel' =>
      match h !! variable with
      | None => None
      | Some var =>
          for_edges (_compute_gradients fuel' h) h total_gradient
            (_gradients var) gradients
      end
  end.

(** [compute_gradients(variable)].  An object only refers to objects
    allocated before it, so no path is longer than the heap. *)
Definition compute_gradients (variable : nat) : M (gmap nat R) :=
  fun h =>
    match _compute_gradients (length h) h variable 1 ∅ with
    | Some gradients => Some (gradients, h)
    | None => None
    end.

(** [np.isclose(a, b)] with the default [rtol=1e-05], [atol=1e-08]. *)
Definition isclose (a b : R) : Prop :=
  Rabs (a - b) <= 1e-8 + 1e-5 * Rabs b.

(** *** The module's self-test, lines 162-194 *)

Definition loss (y y_hat : nat) : M nat :=
  do d <- __sub__ y (Var y_hat);
  do p <- __pow__ d 2;
  __rmul__ p (Num 0.5).

Definition sigma (x : nat) : M nat :=
  do nx <- __neg__ x;
  do e <- exp (Var nx);
  do s <- __radd__ e (Num 1);
  __rtruediv__ s (Num 1).

Definition y_hat (w_0 w_1 x_1 : nat) : M nat :=
  do m <- __mul__ w_1 (Var x_1);
  do s <- __add__ w_0 (Var m);
  sigma s.

(** Lines 186-194: the four leaves, then the two numbers the first
    assertion compares, [compute_gradients(loss(y, y_hat(...)))[y]] and the
    value of [y - y_hat(...)]; with them the values of [y] and of that
    [y_hat]. *)
Definition loss_gradient_wrt_y : M (R * R * R * R) :=
  do x_1 <- __init__ 0.1 None "x_1";
  do w_0 <- __init__ 4 None "w_0";
  do w_1 <- __init__ 3 None "w_1";
  do y <- __init__ 10 None "y";
  do yh <- y_hat w_0 w_1 x_1;
  do L <- loss y yh;
  do gradients <- compute_gradients L;
  do yh' <- y_hat w_0 w_1 x_1;
  do expected <- __sub__ y (Var yh');
  do vexpected <- deref expected;
  do vy <- deref y;
  do vyh <- deref yh';
  ret (getitem gradients y, value vexpected, value vy, value vyh).

End Operations.

(** An object refers to itself alone (a leaf made by [__init__] without
    [gradients]) or to objects allocated before it: what the constructors
    above build, since an object can only be handed objects that exist. *)
Definition well_formed (h : heap) : Prop :=
  forall i o, h !! i = Some o ->
    (exists s, _gradients o = [(i, s)]) \/
    Forall (fun e : nat * R => (e.1 < i)%nat) (_gradients o).

(** A computation that leaves a well-formed heap well formed. *)
Definition keeps {A} (m : M A) : Prop :=
  forall h x h', well_formed h -> m h = Some (x, h') -> well_formed h'.

(** An interpretation of [**] that is Python's at the exponent [k]. *)
Definition pow_at (k : nat) (x n : R) : R := x ^ k.

(** The heap after [a = Variable(x, name='a')]. *)
Definition one_leaf (x : R) : list VariableObj :=
  [mkVariable x [(0%nat, sign x)] "a"].

End Autodiff.

(** ** L16 (Machine Learning)/methods.py: spike trains and the LIF neuron *)

Module Methods.

Local Open Scope Q_scope.

(** [x > y] on floats. *)
Definition Qgt_bool (x y : Q) : bool := negb (Qle_bool x y).

(** [a[idx] = x] on a one-dimensional numpy array: a negative index counts
    from the end, an index outside [-len, len) raises [IndexError]. *)
Definition setitem (a : list Q) (idx : Z) (x : Q) : option (list Q) :=
  let n := Z.of_nat (length a) in
  if ((0 <=? idx) && (idx <? n))%Z then Some (<[Z.to_nat idx := x]> a)
  else if ((- n <=? idx) && (idx <? 0))%Z then
    Some (<[Z.to_nat (n + idx) := x]> a)
  else None.

(** The [for spike_time in spike_times] loop of [spike_train_to_binary].
    The quotient [spike_time / bin_size] is the one of the floats, rounded
    to the nearest float; [None] is an exception: the [OverflowError] of
    [int()] on a quotient beyond the floats, the [IndexError] of the
    assignment. *)
Fixpoint mark_bins (bin_size : Q) (n_bins : Z) (spike_times : list Q)
    (binary : list Q) : option (list Q) :=
  match spike_times with
  | [] => Some binary
  | spike_time :: rest =>
      match Float64.int_quotient spike_time bin_size with
      | None => None
      | Some bin_idx =>
          if (bin_idx <? n_bins)%Z then
            match setitem binary bin_idx 1 with
            | Some binary => mark_bins bin_size n_bins rest binary
            | None => None
            end
          else mark_bins bin_size n_bins rest binary
      end
  end.

(** The inner function [spike_train_to_binary]; [None] is an exception
    ([ZeroDivisionError] for [bin_size = 0], [OverflowError] of [int()],
    [ValueError] of [np.zeros] for a negative size, or one of the
    loop). *)
Definition spike_train_to_binary (duration bin_size : Q)
    (spike_times : list Q) : option (list Q) :=
  match Float64.int_quotient duration bin_size with
  | None => None
  | Some n_bins =>
      if (n_bins <? 0)%Z then None
      else mark_bins bin_size n_bins spike_times (replicate (Z.to_nat n_bins) 0)
  end.

Fixpoint spike_trains_to_binary (spike_timess : list (list Q))
    (duration bin_size : Q) : option (list (list Q)) :=
  match spike_timess with
  | [] => Some []
  | spike_times :: rest =>
      match spike_train_to_binary duration bin_size spike_times with
      | None => None
      | Some binary =>
          match spike_trains_to_binary rest duration bin_size with
          | None => None
          | Some binaries => Some (binary :: binaries)
          end
      end
  end.

(** A two-dimensional numpy array of shape [(length rows, ncols)]. *)
Record array2d := mkArray2d {
  ncols : nat;
  rows : list (list Q)
}.

Definition array2d_wf (a : array2d) : Prop :=
  Forall (fun r => length r = ncols a) (rows a).

(** [a.sum(axis=0)]: the column sums, a vector of [ncols a] numbers. *)
Definition sum_axis0 (a : array2d) : list Q :=
  fold_left (fun acc r => zip_with Qplus acc r) (rows a)
    (replicate (ncols a) 0).

(** One turn of the loop of [lif_integrate], at index [i_t].  The loop
    runs over [range(len(us) - 1)], so the writes at [i_t + 1] are in
    range; [None] is the [IndexError] of a read. *)
Definition lif_step (tau dt ur u_thresh w_exc w_inh : Q)
    (exc_spike_counts inh_spike_counts : list Q)
    (state : list Q * list Q) (i_t : nat) : option (list Q * list Q) :=
  let '(us, out_spike_train) := state in
  match us !! i_t, inh_spike_counts !! i_t, exc_spike_counts !! i_t with
  | Some u, Some inh, Some exc =>
      let leak := u - ur in
      let current := w_inh * inh + w_exc * exc in
      let u' := u - dt * leak / tau + current in
      let us := <[S i_t := u']> us in
      if Qgt_bool u' u_thresh then
        Some (<[S i_t := ur]> us, <[S i_t := 1]> out_spike_train)
      else Some (us, out_spike_train)
  | _, _, _ => None
  end.

Fixpoint lif_loop (step : list Q * list Q -> nat -> option (list Q * list Q))
    (range : list nat) (state : list Q * list Q) : option (list Q * list Q) :=
  match range with
  | [] => Some state
  | i_t :: rest =>
      match step state i_t with
      | Some state => lif_loop step rest state
      | None => None
      end
  end.

Definition lif_integrate (spike_trains_exc spike_trains_inh : array2d)
    (tau dt ur u_thresh w_exc w_inh : Q) : option (list Q * list Q) :=
  let exc_spike_counts := sum_axis0 spike_trains_exc in
  let inh_spike_counts := sum_axis0 spike_trains_inh in
  let us := replicate (length exc_spike_counts) 0 in
  let out_spike_train := replicate (length exc_spike_counts) 0 in
  match us with
  | [] => None
  | _ :: _ =>
      let us := <[0%nat := ur]> us in
      lif_loop
        (lif_step tau dt ur u_thresh w_exc w_inh
           exc_spike_counts inh_spike_counts)
        (seq 0 (length us - 1)) (us, out_spike_train)
  end.

(** The keyword defaults: [tau=20.0, dt=1.0, ur=-77.0, u_thresh=-55.0,
    w_exc=2.0, w_inh=-2.0]. *)
Definition lif_integrate_default (spike_trains_exc spike_trains_inh : array2d)
    : option (list Q * list Q) :=
  lif_integrate spike_trains_exc spike_trains_inh 20 1 (-77) (-55) 2 (-2).

(** Whether bin [i] is the floor of a float quotient. *)
Definition is_bin (floor_quotient : option Z) (i : nat) : bool :=
  match floor_quotient with
  | Some b => (b =? Z.of_nat i)%Z
  | None => false
  end.

(** The bins of one spike train: [n] of them, bin [i] set exactly when a
    spike time [t] has [floor(t / bin_size) = i], the quotient being the
    one of the floats. *)
Definition binned (bin_size : Q) (n : nat) (spike_times binary : list Q)
    : Prop :=
  length binary = n /\
  forall i : nat, (i < n)%nat ->
    binary !! i =
      Some (if existsb
                 (fun t => is_bin (Float64.floor_quotient t bin_size) i)
                 spike_times
            then 1 else 0).

(** The float quotient [x / y] is a finite number. *)
Definition finite_quotient (x y : Q) : Prop :=
  exists q, Float64.quotient x y = Some (Float64.Finite q).

(** What holds of [(us, out_spike_train)] in [lif_integrate] after the
    samples [0..k] have been written. *)
Definition lif_inv (ur u_thresh : Q) (T k : nat) (state : list Q * list Q)
    : Prop :=
  length state.1 = T /\ length state.2 = T /\
  state.1 !! 0%nat = Some ur /\
  (forall i u, (i <= k)%nat -> state.1 !! i = Some u -> u <= u_thresh) /\
  (forall i, state.2 !! i = Some 1 -> (i <= k)%nat /\ state.1 !! i = Some ur).

(** Twelve excitatory cells that spike in the first of three steps, and
    a silent inhibitory cell. *)
Definition burst_exc : array2d :=
  mkArray2d 3 (replicate 12 [1; 0; 0]).

Definition silent_inh : array2d := mkArray2d 3 [[0; 0; 0]].

End Methods.

(** ** L09 (Calcium Handling)/Jafri_model.py: the L-type calcium channel *)

Module Jafri.

Local Open Scope R_scope.

(** The class attributes of [Jafri_model_parts] that the L-type channel
    block reads. *)
Record Jafri_model_parts := mkJafri {
  a : R;
  b : R;
  g : R;
  f : R;
  g_ : R;
  f_ : R;
  omega : R
}.

(** The values the class body assigns. *)
Definition class_attributes : Jafri_model_parts :=
  {| a := 2; b := 2; g := 2; f := 0.3; g_ := 0; f_ := 0; omega := 0.01 |}.

(** The derivatives of the twelve occupancies and of the gate [y]. *)
Record ltype_derivatives := mkDerivatives {
  dy_dt : R;
  dC0_dt : R;
  dC1_dt : R;
  dC2_dt : R;
  dC3_dt : R;
  dC4_dt : R;
  dC_Ca0_dt : R;
  dC_Ca1_dt : R;
  dC_Ca2_dt : R;
  dC_Ca3_dt : R;
  dC_Ca4_dt : R;
  dO_dt : R;
  dO_Ca_dt : R
}.

(** Lines 175-197 of [currents_concentrations], the block
    "L type calcium channel".  It reads [V], [y], the twelve occupancies
    and [Ca_SS] among the arguments, and none of its names is assigned
    elsewhere in the function.  [x**2.0] is written [x ^ 2]. *)
Definition currents_concentrations_ltype (self : Jafri_model_parts)
    (V y C0 C1 C2 C3 C4 C_Ca0 C_Ca1 C_Ca2 C_Ca3 C_Ca4 O O_Ca Ca_SS : R)
    : ltype_derivatives :=
  let alpha := 0.40 * exp ((V + 12.0) / 10.0) in
  let beta := 0.05 * exp ((V + 12.0) / -13.0) in
  let gamma := 0.1875 * Ca_SS in
  let alpha_a := alpha * a self in
  let beta_b := beta / b self in
  let y_infinity :=
    1.0 / (1.0 + exp ((V + 55.0) / 7.5))
    + 0.1 / (1.0 + exp ((- V + 21.0) / 6.0)) in
  let tau_y := 20.0 + 600.0 / (1.0 + exp ((V + 30.0) / 9.5)) in
  {| dy_dt := (y_infinity - y) / tau_y;
     dC0_dt := (beta * C1 + omega self * C_Ca0) - (4.0 * alpha + gamma) * C0;
     dC1_dt :=
       (4.0 * alpha * C0 + 2.0 * beta * C2 + (omega self / b self) * C_Ca1)
       - (beta + 3.0 * alpha + gamma * a self) * C1;
     dC2_dt :=
       (3.0 * alpha * C1 + 3.0 * beta * C3
        + (omega self / (b self ^ 2)) * C_Ca2)
       - (beta * 2.0 + 2.0 * alpha + gamma * (a self ^ 2)) * C2;
     dC3_dt :=
       (2.0 * alpha * C2 + 4.0 * beta * C4
        + (omega self / (b self ^ 3)) * C_Ca3)
       - (beta * 3.0 + alpha + gamma * (a self ^ 3)) * C3;
     dC4_dt :=
       (alpha * C3 + g self * O + (omega self / (b self ^ 4)) * C_Ca4)
       - (beta * 4.0 + f self + gamma * (a self ^ 4)) * C4;
     dC_Ca0_dt :=
       (beta_b * C_Ca1 + gamma * C_Ca0) - (4.0 * alpha_a + omega self) * C_Ca0;
     dC_Ca1_dt :=
       (4.0 * alpha_a * C_Ca0 + 2.0 * beta_b * C_Ca2 + gamma * a self * C1)
       - (beta_b + 3.0 * alpha_a + omega self / b self) * C_Ca1;
     dC_Ca2_dt :=
       (3.0 * alpha_a * C_Ca1 + 3.0 * beta_b * C_Ca3
        + gamma * (a self ^ 2) * C2)
       - (beta_b * 2.0 + 2.0 * alpha_a + omega self / (b self ^ 2)) * C_Ca2;
     dC_Ca3_dt :=
       (2.0 * alpha_a * C_Ca2 + 4.0 * beta_b * C_Ca4
        + gamma * (a self ^ 3) * C3)
       - (beta_b * 3.0 + alpha_a + omega self / (b self ^ 3)) * C_Ca3;
     dC_Ca4_dt :=
       (alpha_a * C_Ca3 + g_ self * O_Ca + gamma * (a self ^ 4) * C4)
       - (beta_b * 4.0 + f_ self + omega self / (b self ^ 4)) * C_Ca4;
     dO_dt := f self * C4 - g self * O;
     dO_Ca_dt := f_ self * C_Ca4 - g_ self * O_Ca |}.

(** The rate of change of the total occupancy
    [C0+...+C4+C_Ca0+...+C_Ca4+O+O_Ca]. *)
Definition total_occupancy_rate (d : ltype_derivatives) : R :=
  dC0_dt d + dC1_dt d + dC2_dt d + dC3_dt d + dC4_dt d
  + dC_Ca0_dt d + dC_Ca1_dt d + dC_Ca2_dt d + dC_Ca3_dt d + dC_Ca4_dt d
  + dO_dt d + dO_Ca_dt d.

End Jafri.

(** ** L09 (Calcium Handling)/L10_widget.py: calcium-induced calcium release *)

Module CICR.

Local Open Scope R_scope.

Section Rhs.

(** Python's [**] on two floats. *)
Variable py_pow : R -> R -> R.

(** [CICRWidget.rhs(self, t, y, Cao, ..., gamma)]; [self] is not read.
    [None] is the [ZeroDivisionError] of a [**] or of a division (for
    numpy scalars an [inf] or [nan], no real number). *)
Definition rhs (t : R) (y : R * R)
    (Cao k_entry k_extrusion k_uptake kappa0 kappa1 Kd n gamma : R) :
    option (R * R) :=
  let '(Cai, CaSR) := y in
  let Jentry := k_entry * (Cao - Cai) in
  let Jextrusion := k_extrusion * Cai in
  let Juptake := k_uptake * Cai in
  Cai_n ← Py.pow py_pow Cai n;
  Kd_n ← Py.pow py_pow Kd n;
  ratio ← Py.truediv (kappa1 * Cai_n) (Cai_n + Kd_n);
  let k_rel := kappa0 + ratio in
  let Jrel := k_rel * (CaSR - Cai) in
  let dCai_dt := Jentry + Jrel - Jextrusion - Juptake in
  dCaSR_dt ← Py.truediv (Juptake - Jrel) gamma;
  Some (dCai_dt, dCaSR_dt).

(** The inputs at which a [**] or a division of [rhs] raises. *)
Definition raises (Cai Kd n gamma : R) : Prop :=
  (Cai = 0 /\ n < 0) \/ (Kd = 0 /\ n < 0) \/
  py_pow Cai n + py_pow Kd n = 0 \/ gamma = 0.

(** The equations as the specification words them. *)
Definition spec_J_entry (k_entry Cao Cai : R) : R := k_entry * (Cao - Cai).
Definition spec_J_extrusion (k_extrusion Cai : R) : R := k_extrusion * Cai.
Definition spec_J_uptake (k_uptake Cai : R) : R := k_uptake * Cai.
Definition spec_k_rel (kappa0 kappa1 Kd n Cai : R) : R :=
  kappa0 + kappa1 * py_pow Cai n / (py_pow Cai n + py_pow Kd n).
Definition spec_J_rel (k_rel CaSR Cai : R) : R := k_rel * (CaSR - Cai).

End Rhs.

End CICR.

(** ** Stream 1, 01_EP_single_cell/02B_APD_restitution/run.py *)

Module Restitution.

Local Open Scope Q_scope.

(** One line of [restout_APD_restitution.dat] as [visualize] reads it:
    whether [line[0] == "#"], and the numbers the fields of
    [line.split()] spell; [float(p[k])] is the float nearest to the
    number.  (A field that spells no number is not modelled.) *)
Record line := mkLine {
  is_comment : bool;
  p : list Q
}.

(** The loop of [visualize], in float arithmetic: the differences are
    rounded before they are compared.  [None] is the [IndexError] of a
    field or list element that is not there. *)
Fixpoint visualize_loop (lines : list line)
    (di apd : list Float64.pyfloat) (cnt : nat)
    (diffdi diffapd : Float64.pyfloat)
    : option (list Float64.pyfloat * list Float64.pyfloat) :=
  match lines with
  | [] => Some (di, apd)
  | line :: rest =>
      if is_comment line then visualize_loop rest di apd cnt diffdi diffapd
      else
        let diffs :=
          if (0 <? cnt)%nat then
            match di !! (cnt - 1)%nat, p line !! 5%nat,
                  apd !! (cnt - 1)%nat, p line !! 3%nat with
            | Some d, Some p5, Some a, Some p3 =>
                Some (Float64.sub d (Float64.fl p5),
                      Float64.sub a (Float64.fl p3))
            | _, _, _, _ => None
            end
          else Some (diffdi, diffapd) in
        match diffs with
        | None => None
        | Some (diffdi, diffapd) =>
            if Float64.gt diffdi (Float64.fl (-5))
               && Float64.gt diffapd (Float64.fl (-10))
            then
              match p line !! 3%nat, p line !! 5%nat with
              | Some p3, Some p5 =>
                  visualize_loop rest (di ++ [Float64.fl p5])
                    (apd ++ [Float64.fl p3]) (S cnt) diffdi diffapd
              | _, _ => None
              end
            else Some (di, apd)
        end
  end.

(** [visualize]: the lists [(di, apd)] it hands to [plotResults]; with no
    row kept, [min(di)] raises [ValueError] before the call. *)
Definition visualize (lines : list line)
    : option (list Float64.pyfloat * list Float64.pyfloat) :=
  match visualize_loop lines [] [] 0 (Float64.fl 0) (Float64.fl 0) with
  | Some ([], _) => None
  | r => r
  end.

(** The options [jobID] reads. *)
Record args := mkArgs {
  CI0 : Z;
  CI1 : option Z;
  Protocol : string;
  imp : string;
  params : option string
}.

(** [if args.params:] *)
Definition truthy (s : option string) : bool :=
  match s with
  | Some s => negb (String.eqb s "")
  | None => false
  end.

(** [jobID(args)]; [today] is [date.today().isoformat()]. *)
Definition jobID (today : string) (a : args) : option string :=
  match Py.format "{}_CI0-{}_CI1-{}_{}"
          [today; Py.str_int (CI0 a); Py.str_optional_int (CI1 a); Protocol a]
  with
  | None => None
  | Some ID =>
      if truthy (params a) then
        match Py.format "_{}" [imp a; default "None"%string (params a)] with
        | None => None
        | Some s => Some (ID ++ s)%string
        end
      else Some ID
  end.

(** The columns of a data row as floats, 0 where the row is too short. *)
Definition apd_of (l : line) : Float64.pyfloat :=
  Float64.fl (default 0 (p l !! 3%nat)).
Definition di_of (l : line) : Float64.pyfloat :=
  Float64.fl (default 0 (p l !! 5%nat)).

(** The test of [visualize] between a kept row and the next one. *)
Definition keeps (prev cur : line) : bool :=
  Float64.gt (Float64.sub (di_of prev) (di_of cur)) (Float64.fl (-5))
  && Float64.gt (Float64.sub (apd_of prev) (apd_of cur)) (Float64.fl (-10)).

(** Two finite floats, the first not above the second. *)
Definition not_above (x y : Float64.pyfloat) : Prop :=
  exists a b, x = Float64.Finite a /\ y = Float64.Finite b /\ a <= b.

(** Two finite floats, the second at least [c] above the first. *)
Definition above_by (c : Q) (x y : Float64.pyfloat) : Prop :=
  exists a b, x = Float64.Finite a /\ y = Float64.Finite b /\ a + c <= b.

(** How many of [rows] pass the test in a chain that starts at [prev]. *)
Fixpoint chain (prev : line) (rows : list line) : nat :=
  match rows with
  | [] => 0
  | r :: rest => if keeps prev r then S (chain r rest) else 0
  end.

(** The rows of the table that are not comments. *)
Definition data_rows (lines : list line) : list line :=
  List.filter (fun l => negb (is_comment l)) lines.

(** A table with a comment line and three rows (APD, DI) = (300, 100),
    (280, 90), (300, 120): the third row jumps up. *)
Definition row (apd di : Q) : line :=
  mkLine false [1; 0; 1; apd; di; di; 0; -85; 30].

Definition table_with_jump : list line :=
  [mkLine true []; row 300 100; row 280 90; row 300 120].

(** Two rows whose DI are written 254.9 and 259.9: the floats nearest to
    them differ by less than 5. *)
Definition table_rounded : list line := [row 300 254.9; row 300 259.9].

End Restitution.

(** ** Stream 1, 01_EP_single_cell/01_basic_bench/run.py *)

Module BasicBench.

Local Open Scope string_scope.
Local Open Scope list_scope.

(** An element of the argument list handed to [job.bench]. *)
Inductive cmd_arg :=
| Str (s : string)
| Int (n : Z)
| Float (x : Q).

(** The options [run] reads before it calls [job.bench]; the parser
    leaves all of them strings. *)
Record args := mkArgs {
  EP : string;
  EP_par : string;
  init : string;
  duration : string;
  bcl : string;
  ID : string
}.

Record job := mkJob {
  job_ID : string
}.

(** How far [run] got: [sys.exit(code)], an exception, or past the call
    of [job.bench] (the moving of the output files and the plots that
    follow are not modelled). *)
Inductive status :=
| Exit (code : Z)
| Raise (exception : string)
| Benched.

(** What [run] did: the lines it printed, the calls of [job.bench] with
    their argument list and [msg], and how it ended. *)
Record trace := mkTrace {
  stdout : list string;
  bench : list (list cmd_arg * string);
  outcome : status
}.

Definition fmt (template : string) (args : list string) : string + string :=
  match Py.format template args with
  | Some s => inr s
  | None => inl "IndexError"
  end.

Definition bind {A B} (m : string + A) (k : A -> string + B) : string + B :=
  match m with
  | inl e => inl e
  | inr a => k a
  end.

Notation "'try' x <- m ; k" := (bind m (fun x => k))
  (at level 10, x name, m at level 100, k at level 200).

Section Run.

(** Python's [float(s)] on a string: a finite number, [inf], [nan];
    [None] is [ValueError]. *)
Variable float : string -> option Float64.pyfloat.

(** [os.path.isfile] on the file system the driver runs on. *)
Variable isfile : string -> bool.

(** [int(float(args.duration)/float(args.bcl)+1)], in float arithmetic:
    [ValueError] for an option that is no number or a count that is a
    NaN, [ZeroDivisionError] for a cycle length of zero, [OverflowError]
    for a count beyond the floats. *)
Definition numstim (a : args) : string + Z :=
  match float (duration a) with
  | None => inl "ValueError"
  | Some d =>
      match float (bcl a) with
      | None => inl "ValueError"
      | Some b =>
          match Float64.div (Float64.to_float d) (Float64.to_float b) with
          | None => inl "ZeroDivisionError"
          | Some q => Float64.int (Float64.add q (Float64.fl 1))
          end
      end
  end.

(** Lines 481-516 of [run]: the argument list before the check of the
    initial-state file. *)
Definition command (a : args) (j : job) : string + list cmd_arg :=
  let cmd := [Str "--duration"; Str (duration a);
              Str "--stim-assign"; Str "on"] in
  let cmd :=
    if String.eqb (EP a) "MBRDR" then cmd
    else if existsb (String.eqb (EP a)) ["tenTusscherPanfilov"; "ORd"]
    then cmd ++ [Str "--stim-species"; Str "K_i"]
    else cmd in
  try imp <- fmt "--imp={}" [EP a];
  let cmd := cmd ++ [Str imp] in
  let cmd :=
    if negb (String.eqb (EP_par a) "")
    then cmd ++ [Str "--imp-par"; Str (EP_par a)]
    else cmd in
  try n <- numstim a;
  let cmd := cmd ++ [Str "--stim-curr"; Float 30;
                     Str "--numstim"; Int n;
                     Str "--bcl"; Str (bcl a)] in
  let cmd := cmd ++ [Str "--dt"; Float 0.01] in
  try expID <- fmt "{}_" [job_ID j];
  try expID <- (if negb (String.eqb (ID a) "") then fmt "{}_" [ID a]
                else inr expID);
  try sv <- fmt "{}{}_bcl_{}_ms_dur_{}_ms.sv" [expID; EP a; bcl a; duration a];
  inr (cmd ++ [Str "--dt-out"; Float 0.1;
               Str "--save-ini-file"; Str sv;
               Str "--save-ini-time"; Str (duration a)]).

(** The tail of the argument list and the [msg] of the call. *)
Definition output_options (a : args) (j : job)
    : string + (list cmd_arg * string) :=
  try fout <- fmt "--fout={}" [Py.os_path_join (job_ID j) (EP a)];
  try msg <- fmt "Testing {}" [EP a];
  inr ([Str fout; Str "--bin"; Str "-v"], msg).

(** [run(args, job)] up to and including [job.bench(cmd, msg=...)]. *)
Definition run (a : args) (j : job) : trace :=
  match command a j with
  | inl e => mkTrace [] [] (Raise e)
  | inr cmd =>
      if negb (String.eqb (init a) "") && negb (isfile (init a)) then
        match fmt "State variable initialization file {} not found!"
                [init a] with
        | inl e => mkTrace [] [] (Raise e)
        | inr line => mkTrace [line] [] (Exit (-1))
        end
      else
        let cmd :=
          if negb (String.eqb (init a) "")
          then cmd ++ [Str "--read-ini-file"; Str (init a)]
          else cmd in
        match output_options a j with
        | inl e => mkTrace [] [] (Raise e)
        | inr (tail, msg) => mkTrace [] [(cmd ++ tail, msg)] Benched
        end
  end.

End Run.

(** The options of a run with [--init missing.sv]. *)
Definition args_missing_init : args :=
  mkArgs "tenTusscherPanfilov" "" "missing.sv" "500" "500" "".

(** The options of a run with [--bcl 0] and an initial-state file that
    does not exist. *)
Definition args_zero_bcl : args :=
  mkArgs "tenTusscherPanfilov" "" "missing.sv" "500" "0" "".

(** [float] on the strings of the examples. *)
Definition float_of_example (s : string) : option Float64.pyfloat :=
  if String.eqb s "500" then Some (Float64.Finite 500)
  else if String.eqb s "0" then Some (Float64.Finite 0)
  else if String.eqb s "1200" then Some (Float64.Finite 1200)
  else if String.eqb s "0.3" then Some (Float64.Finite 0.3)
  else if String.eqb s "0.1" then Some (Float64.Finite 0.1)
  else if String.eqb s "inf" then Some (Float64.Infinity false)
  else if String.eqb s "nan" then Some Float64.NaN
  else None.

End BasicBench.

(** ** variable.py: what [compute_gradients] computes *)

Module AutodiffExt.
Import Autodiff.
Local Open Scope R_scope.

(** Whether the recursion of [_compute_gradients] stops at [c]. *)
Definition is_leaf (h : heap) (c : nat) : bool :=
  match criteria h c with
  | Some true => true
  | _ => false
  end.

(** [compute_gradients(v)[k]], 0 where the call does not return. *)
Definition gradient_of (h : heap) (v k : nat) : R :=
  match compute_gradients v h with
  | Some (g, _) => getitem g k
  | None => 0
  end.

(** What an edge to [c] passes on to [k]: 1 if [c] is [k], and the
    gradient of [c] at [k] unless the recursion stops at [c]. *)
Definition wrt (h : heap) (c k : nat) : R :=
  (if Nat.eqb c k then 1 else 0) +
  (if is_leaf h c then 0 else gradient_of h c k).

(** The sum over the edges [(c, d)] of [d * wrt c k]. *)
Definition edge_sum (h : heap) (edges : list (nat * R)) (k : nat) : R :=
  fold_right (fun e acc => e.2 * wrt h e.1 k + acc) 0 edges.

(** The sum over the paths from [v] to [k] of the products of their edges,
    for paths of at most [fuel] edges that pass through no leaf. *)
Fixpoint path_sum (fuel : nat) (h : heap) (v k : nat) : R :=
  match fuel with
  | O => 0
  | S fuel' =>
      match h !! v with
      | None => 0
      | Some o =>
          fold_right
            (fun e acc =>
               e.2 * ((if Nat.eqb e.1 k then 1 else 0) +
                      (if is_leaf h e.1 then 0 else path_sum fuel' h e.1 k))
               + acc)
            0 (_gradients o)
      end
  end.

(** [m], run on [h], allocates objects after those of [h] and returns one
    of them, not a leaf, with the value [val], which passes [D k] on to
    every object [k] of [h]. *)
Definition rule (m : M nat) (h : heap) (val : R) (D : nat -> R) : Prop :=
  exists p later vp,
    m h = Some (p, h ++ later) /\
    well_formed (h ++ later) /\
    (length h <= p)%nat /\
    (h ++ later) !! p = Some vp /\
    is_leaf (h ++ later) p = false /\
    value vp = val /\
    forall k, (k < length h)%nat -> wrt (h ++ later) p k = D k.

(** The heap after [x = Variable(3, name='a')] and [(x * x) * x]. *)
Definition cube_heap : list VariableObj :=
  one_leaf 3 ++
  [mkVariable (3 * 3) [(0%nat, 3); (0%nat, 3)] "";
   mkVariable (3 * 3 * 3) [(1%nat, 3); (0%nat, 3 * 3)] ""].

End AutodiffExt.

(** ** methods.py: the Poisson generator and the adaptive neuron *)

Module MethodsExt.
Import Methods.
Local Open Scope Q_scope.

(** [x < y] on floats. *)
Definition Qlt_bool (x y : Q) : bool := negb (Qle_bool y x).

(** Whether [np.random.exponential(1.0 / (rate / 1000.0))] returns: the
    quotient [rate / 1000.0] must not be zero ([ZeroDivisionError]) nor
    negative ([ValueError] of the generator). *)
Definition exponential_returns (rate : Q) : bool :=
  match Float64.quotient rate 1000 with
  | Some (Float64.Finite r) => Qlt_bool 0 r
  | Some (Float64.Infinity negative) => negb negative
  | _ => false
  end.

(** The inner function [generate_spike_train] of [poisson_neurons], in
    float arithmetic: the clock [t] is a float, the sum [t + dt] is
    rounded.  [draws] holds the values the successive calls of
    [np.random.exponential] return; the result is the spike train and the
    draws not used.  [None]: the call of the generator raises, or the
    list of draws is used up before [t] reaches [duration]. *)
Fixpoint generate_spike_train (rate duration : Q) (draws : list Q)
    (t : Float64.pyfloat) (spikes : list Float64.pyfloat)
    : option (list Float64.pyfloat * list Q) :=
  if Float64.gt (Float64.fl duration) t then
    if negb (exponential_returns rate) then None
    else
      match draws with
      | [] => None
      | dt :: draws' =>
          let t := Float64.add t (Float64.fl dt) in
          generate_spike_train rate duration draws' t
            (if Float64.gt (Float64.fl duration) t then spikes ++ [t]
             else spikes)
      end
  else Some (spikes, draws).

(** [poisson_neurons(ncells, rate, duration)]: [ncells] trains, drawn one
    after the other. *)
Fixpoint poisson_neurons (ncells : nat) (rate duration : Q) (draws : list Q)
    : option (list (list Float64.pyfloat) * list Q) :=
  match ncells with
  | O => Some ([], draws)
  | S ncells' =>
      match generate_spike_train rate duration draws (Float64.fl 0) [] with
      | None => None
      | Some (spikes, draws) =>
          match poisson_neurons ncells' rate duration draws with
          | None => None
          | Some (trains, draws) => Some (spikes :: trains, draws)
          end
      end
  end.

(** [x + y] on two one-dimensional arrays, with numpy's broadcasting of
    an array of length 1; [None] is the [ValueError] of shapes that do not
    match. *)
Definition array_add (x y : list Q) : option (list Q) :=
  if (length x =? length y)%nat then Some (zip_with Qplus x y)
  else
    match x, y with
    | [x0], _ => Some (map (Qplus x0) y)
    | _, [y0] => Some (map (fun xi => xi + y0) x)
    | _, _ => None
    end.

(** One turn of the loop of [lif_with_adaptation], at index [i >= 1];
    [I'] is the input current [I], and [None] is the [IndexError] of a
    read. *)
Definition adaptation_step (I' : list Q)
    (dt u_rest u_thresh tau_m tau_w a b R : Q)
    (state : list Q * list Q * list Q) (i : nat)
    : option (list Q * list Q * list Q) :=
  let '(u, w, spikes) := state in
  match u !! (i - 1)%nat, I' !! (i - 1)%nat, w !! (i - 1)%nat with
  | Some u1, Some I1, Some w1 =>
      let du_dt := (- (u1 - u_rest) + R * I1 - R * a * w1) / tau_m in
      let dw_dt := (a * (u1 - u_rest) - w1) / tau_w in
      let ui := u1 + dt * du_dt in
      let wi := w1 + dt * dw_dt in
      let u := <[i := ui]> u in
      let w := <[i := wi]> w in
      if Qle_bool u_thresh ui then
        Some (<[i := u_rest]> u, <[i := wi + b]> w, <[i := 1]> spikes)
      else Some (u, w, spikes)
  | _, _, _ => None
  end.

Fixpoint adaptation_loop
    (step : list Q * list Q * list Q -> nat ->
            option (list Q * list Q * list Q))
    (range : list nat) (state : list Q * list Q * list Q)
    : option (list Q * list Q * list Q) :=
  match range with
  | [] => Some state
  | i :: rest =>
      match step state i with
      | Some state => adaptation_loop step rest state
      | None => None
      end
  end.

(** [lif_with_adaptation]; [None] is an exception: [dt = 0], a quotient
    [T/dt] beyond the floats, a negative or zero number of steps, input
    arrays whose shapes do not match or that are shorter than the run.
    [int(T/dt)] is taken of the float quotient. *)
Definition lif_with_adaptation (spike_trains_exc spike_trains_inh : array2d)
    (dt T u_rest u_thresh tau_m tau_w a b R w_exc w_inh : Q)
    : option (list Q * list Q) :=
  match array_add (map (Qmult w_exc) (sum_axis0 spike_trains_exc))
                  (map (Qmult w_inh) (sum_axis0 spike_trains_inh)) with
  | None => None
  | Some I' =>
      match Float64.int_quotient T dt with
      | None => None
      | Some num_iters =>
          if (num_iters <=? 0)%Z then None
          else
            let n := Z.to_nat num_iters in
            let u := <[0%nat := u_rest]> (replicate n 0) in
            match
              adaptation_loop
                (adaptation_step I' dt u_rest u_thresh tau_m tau_w a b R)
                (seq 1 (n - 1)) (u, replicate n 0, replicate n 0)
            with
            | Some (u, _, spikes) => Some (u, spikes)
            | None => None
            end
      end
  end.

(** What holds of [(u, w, spikes)] in [lif_with_adaptation] after the
    samples [0..k] have been written. *)
Definition adaptation_inv (u_rest u_thresh : Q) (n k : nat)
    (state : list Q * list Q * list Q) : Prop :=
  length state.1.1 = n /\ length state.1.2 = n /\ length state.2 = n /\
  state.1.1 !! 0%nat = Some u_rest /\
  (forall i x, (i <= k)%nat -> state.1.1 !! i = Some x -> x < u_thresh) /\
  (forall i, state.2 !! i = Some 1 ->
     (i <= k)%nat /\ state.1.1 !! i = Some u_rest).

(** An entry of a binary spike train. *)
Definition bit (x : Q) : Prop := x = 0 \/ x = 1.

(** Input matrices of 29 columns: two excitatory cells that spike at
    every step, and a silent inhibitory cell. *)
Definition steady_exc : array2d := mkArray2d 29 (replicate 2 (replicate 29 1)).

Definition quiet_inh : array2d := mkArray2d 29 [replicate 29 0].

(** A spike time of a train: a finite float above 0 and below
    [duration]. *)
Definition spike_ok (duration : Q) (s : Float64.pyfloat) : Prop :=
  exists x, s = Float64.Finite x /\ 0 < x /\
            Float64.gt (Float64.fl duration) s = true.

(** Two finite floats in order. *)
Definition float_le (s t : Float64.pyfloat) : Prop :=
  exists x y, s = Float64.Finite x /\ t = Float64.Finite y /\ x <= y.

(** A spike train under construction: the times are spike times, do not
    decrease, and none is later than the clock [t]. *)
Definition train_ok (duration : Q) (t : Float64.pyfloat)
    (spikes : list Float64.pyfloat) : Prop :=
  Forall (fun s => spike_ok duration s /\
                   (t = Float64.Infinity false \/ float_le s t)) spikes /\
  forall i j x y, (i <= j)%nat -> spikes !! i = Some x -> spikes !! j = Some y ->
    float_le x y.

(** The clock of the loop when at most [k] more draws of at least 1 are
    needed to reach [K]. *)
Definition clock_ok (K : Z) (k : nat) (t : Float64.pyfloat) : Prop :=
  t = Float64.Infinity false \/
  exists r, t = Float64.Finite r /\ 0 <= r /\ (K <= Qfloor r + Z.of_nat k)%Z.

(** The state of the loop of [lif_integrate] while nothing has come in:
    the samples [0..k] of the potential equal [ur], no spike is flagged. *)
Definition rest_inv (ur : Q) (T k : nat) (state : list Q * list Q) : Prop :=
  length state.1 = T /\ state.2 = replicate T 0 /\
  forall i u, (i <= k)%nat -> state.1 !! i = Some u -> u == ur.

End MethodsExt.

(** ** Jafri_model.py: the gates of the fast sodium and the
       time-dependent potassium current *)

Module JafriGates.

Local Open Scope R_scope.

(** The derivatives of the gates [m], [h], [j] and [X]. *)
Record gate_derivatives := mkGates {
  dm_dt : R;
  dh_dt : R;
  dj_dt : R;
  dX_dt : R
}.

(** Lines 102-124 of [currents_concentrations]: the rates of the gates
    of the fast sodium current, with the branch on [V < -40.0], and those
    of the gate [X].  None of the names is assigned elsewhere in the
    function.  The quotients are those of the reals: the embedding says
    nothing at [V = -47.13] and [V = -30], where [alpha_m] and [alpha_X],
    [beta_X] divide by zero. *)
Definition currents_concentrations_gates (V m h j X : R) : gate_derivatives :=
  let alpha_m := (0.32 * (V + 47.13)) / (1.0 - exp (-0.1 * (V + 47.13))) in
  let beta_m := 0.08 * exp (- V / 11.0) in
  let '(alpha_h, beta_h, alpha_j, beta_j) :=
    if Rlt_dec V (- 40.0) then
      (0.135 * exp ((80.0 + V) / -6.80),
       3.56 * exp (0.079 * V) + 310000 * exp (0.35 * V),
       ((-127140 * exp (0.244400 * V) - 3.474e-05 * exp (-0.04391 * V))
        * (V + 37.78)) / (1.0 + exp (0.311 * (V + 79.23))),
       (0.121200 * exp (-0.0105200 * V))
       / (1.0 + exp (-0.1378 * (V + 40.14))))
    else
      (0.0,
       1.0 / (0.13 * (1.0 + exp ((V + 10.66) / -11.1))),
       0.0,
       (0.3 * exp (-2.535e-07 * V)) / (1.0 + exp (-0.1 * (V + 32.0))))
  in
  let alpha_X := (7.19e-05 * (V + 30.0)) / (1.0 - exp (-0.1480 * (V + 30.0))) in
  let beta_X := (0.000131 * (V + 30.0)) / (-1.0 + exp (0.0687 * (V + 30.0))) in
  {| dm_dt := alpha_m * (1.0 - m) - beta_m * m;
     dh_dt := alpha_h * (1.0 - h) - beta_h * h;
     dj_dt := alpha_j * (1.0 - j) - beta_j * j;
     dX_dt := alpha_X * (1.0 - X) - beta_X * X |}.

(** A gate whose derivative [d] does not leave [[0, 1]]: not negative at
    or below 0, not positive at or above 1. *)
Definition points_inwards (gate d : R) : Prop :=
  (gate <= 0 -> 0 <= d) /\ (1 <= gate -> d <= 0).

End JafriGates.

(** ** 02B_APD_restitution/run.py: [run] *)

Module RestitutionRun.
Import Restitution.

Local Open Scope string_scope.
Local Open Scope list_scope.

(** An element of the argument list handed to [job.bench]. *)
Inductive cmd_arg :=
| Str (s : string)
| Int (n : Z)
| Float (x : Q).

(** The options [run] reads: those of [jobID], and the integers and
    flags of the parser. *)
Record run_args := mkRunArgs {
  opts : args;
  BCL : Z;
  prebeats : Z;
  nbeats : Z;
  CIinc : Z;
  initial : option string;
  dry : bool
}.

(** How far [run] got: an exception, past the second call of
    [job.bench] (the plots that follow are not modelled), or still in the
    [while] loop when the fuel ran out. *)
Inductive status :=
| Raise (exception : string)
| Benched
| Searching.

(** What [run] did: the lines it printed, the argument lists of its calls
    of [job.bench], the lines it wrote to [restitution_protocol.txt] if it
    opened the file, and how it ended. *)
Record trace := mkTrace {
  stdout : list string;
  bench : list (list cmd_arg);
  protocol_file : option (list string);
  outcome : status
}.

(** What [run] does that can be seen from outside, apart from the
    protocol file: a line printed, a call of [job.bench]. *)
Inductive event :=
| Printed (line : string)
| Called (cmd : list cmd_arg).

(** The lines printed, and the calls made, in their order. *)
Definition printed (log : list event) : list string :=
  flat_map (fun e => match e with Printed line => [line] | Called _ => [] end)
    log.

Definition called (log : list event) : list (list cmd_arg) :=
  flat_map (fun e => match e with Printed _ => [] | Called cmd => [cmd] end)
    log.

(** The line feed that ends a line written with [fp.write]. *)
Definition nl : string := String "010"%char "".

Fixpoint spaces (n : nat) : string :=
  match n with
  | O => ""
  | S n' => String " " (spaces n')
  end.

(** ['{:3d}'.format(n)]: the decimal digits of [n], on the right of a
    field at least three characters wide. *)
Definition format_3d (n : Z) : string :=
  let s := Py.str_int n in (spaces (3 - String.length s) ++ s)%string.

(** [imp_setup], which is also [bcmd]. *)
Definition imp_setup (a : run_args) : list cmd_arg :=
  let imp_setup := [Str "--imp"; Str (imp (opts a))] in
  if truthy (params (opts a))
  then imp_setup ++ [Str "--imp-par"; Str (default "" (params (opts a)))]
  else imp_setup.

(** The protocol of a threshold run, lines 349-357. *)
Definition threshold_pars (job_ID : string) (stimcurr : Z) : list cmd_arg :=
  [Str "--duration"; Float 100.1;
   Str "--numstim"; Int 1;
   Str "--stim-start"; Int 1;
   Str "--bcl"; Int 100;
   Str "--stim-curr"; Int stimcurr;
   Str "--stim-dur"; Int 2;
   Str ("--fout=" ++ Py.os_path_join job_ID "thresh")%string;
   Str "--save-time"; Int 100;
   Str "--save-file"; Str (Py.os_path_join job_ID "thresh_save.sv")].

(** The options of the restitution run, lines 401-409. *)
Definition restitute_pars (a : run_args) (job_ID : string) (stimcurr : Z)
    (ropt : string) : list cmd_arg :=
  let pars :=
    [Str "--stim-curr"; Int stimcurr;
     Str "--stim-dur"; Int 2;
     Str "--restitute"; Str ropt;
     Str "--res-file"; Str (Py.os_path_join job_ID "restitution_protocol.txt");
     Str "--res-trace"; Str (Py.os_path_join job_ID "restout_trace.txt");
     Str ("--fout=" ++ Py.os_path_join job_ID "restout")%string] in
  if truthy (initial a)
  then pars ++ [Str "--initial"; Str (default "" (initial a))]
  else pars.

(** [args.CI1] after [if not args.CI1: args.CI1 = args.BCL]: an interval
    that is missing or 0 gives way to [BCL]. *)
Definition CI1_or_BCL (a : run_args) : Z :=
  match CI1 (opts a) with
  | Some c => if (c =? 0)%Z then BCL a else c
  | None => BCL a
  end.

(** The lines written for the S1S2 protocol, lines 380-386. *)
Definition S1S2_file (a : run_args) : list string :=
  [("  1   # protocol selection 1=S1S2 0=dynamic" ++ nl)%string;
   (format_3d (prebeats a)
     ++ " # number of prepacing beats before starting protocol" ++ nl)%string;
   (format_3d (BCL a) ++ " # basic cycle length" ++ nl)%string;
   (format_3d (CI1_or_BCL a) ++ " # S2 prematurity start" ++ nl)%string;
   (format_3d (CI0 (opts a)) ++ " # S2 prematurity end" ++ nl)%string;
   (format_3d (nbeats a)
     ++ " # number of beats preceding premature one" ++ nl)%string;
   (format_3d (CIinc a) ++ " # decrement in S2 prematurity in ms" ++ nl)%string].

(** The lines written for the dynamic protocol, lines 392-397. *)
Definition Dynamic_file (a : run_args) : list string :=
  [("  0   # protocol selection 1=S1S2 0=dynamic" ++ nl)%string;
   (format_3d (prebeats a)
     ++ " # number of prepacing beats before starting protocol" ++ nl)%string;
   (format_3d (BCL a) ++ " # initial basic cycle length" ++ nl)%string;
   (format_3d (CI0 (opts a)) ++ " # final basic cycle length" ++ nl)%string;
   (format_3d (nbeats a)
     ++ " # number of beats preceding premature one" ++ nl)%string;
   (format_3d (CIinc a) ++ " # decrement in S2 prematurity in ms" ++ nl)%string].

Section Run.

(** The entry [Vm[50,1]] of the file [thresh.txt] that the threshold run
    with the given stimulus current leaves behind. *)
Variable Vm_50 : Z -> Q.

(** The [while not thresh_achieved] loop, lines 344-370, entered with
    [stimcurr] and the prints and calls made so far, in the order in
    which they were made.  [None]: the loop has not ended after [fuel]
    turns. *)
Fixpoint threshold_loop (fuel : nat) (a : run_args) (job_ID : string)
    (stimcurr : Z) (log : list event) : list event * option Z :=
  match fuel with
  | O => (log, None)
  | S fuel' =>
      let stimcurr := (stimcurr + 2)%Z in
      let log :=
        log ++ [Printed ("Currently applied stimulus current: "
                         ++ Py.str_int stimcurr)%string] in
      let log :=
        log ++ [Called (imp_setup a ++ threshold_pars job_ID stimcurr)] in
      if dry a then (log, Some stimcurr)
      else if Methods.Qgt_bool (Vm_50 stimcurr) (-10)
      then (log, Some stimcurr)
      else threshold_loop fuel' a job_ID stimcurr log
  end.

(** [ropt] when line 403 reads it; [None] if no branch has assigned it. *)
Definition restitute_option (a : run_args) : option string :=
  let ropt :=
    if String.eqb (Protocol (opts a)) "S1S2" then Some "S1S2" else None in
  if String.eqb (Protocol (opts a)) "Dynamic" && negb (dry a)
  then Some "dyn" else ropt.

(** The file [restitution_protocol.txt] after lines 376-397; [None] if
    it was not opened. *)
Definition write_protocol (a : run_args) : option (list string) :=
  let file :=
    if String.eqb (Protocol (opts a)) "S1S2" && negb (dry a)
    then Some (S1S2_file a) else None in
  if String.eqb (Protocol (opts a)) "Dynamic" && negb (dry a)
  then Some (Dynamic_file a) else file.

(** [run(args, job)] up to and including the second [job.bench]: the
    prints and calls in the order in which they are made, the protocol
    file, and how the run ended. *)
Definition run_log (fuel : nat) (a : run_args) (job_ID : string)
    : list event * option (list string) * status :=
  match threshold_loop fuel a job_ID 0 [] with
  | (log, None) => (log, None, Searching)
  | (log, Some stimcurr) =>
      let stimcurr := (stimcurr * 2)%Z in
      let log :=
        log ++ [Printed ("Chosen stimulus current: "
                         ++ Py.str_int stimcurr)%string] in
      let file := write_protocol a in
      match restitute_option a with
      | None => (log, file, Raise "UnboundLocalError")
      | Some ropt =>
          (log ++ [Called (imp_setup a
                           ++ restitute_pars a job_ID stimcurr ropt)],
           file, Benched)
      end
  end.

(** The same run, with the printed lines and the calls told apart. *)
Definition run (fuel : nat) (a : run_args) (job_ID : string) : trace :=
  let '(log, file, outcome) := run_log fuel a job_ID in
  mkTrace (printed log) (called log) file outcome.

End Run.

(** The currents [s + 2, s + 4, ..., s + 2 k] of [k] turns of the loop
    entered with [s]. *)
Fixpoint currents_from (s : Z) (k : nat) : list Z :=
  match k with
  | O => []
  | S k' => (s + 2)%Z :: currents_from (s + 2)%Z k'
  end.

(** The line printed and the call made in a turn of the loop. *)
Definition threshold_print (stimcurr : Z) : string :=
  ("Currently applied stimulus current: " ++ Py.str_int stimcurr)%string.

Definition threshold_call (a : run_args) (job_ID : string) (stimcurr : Z)
    : list cmd_arg :=
  imp_setup a ++ threshold_pars job_ID stimcurr.

(** A turn of the loop: the print, then the call. *)
Definition threshold_turn (a : run_args) (job_ID : string) (stimcurr : Z)
    : list event :=
  [Printed (threshold_print stimcurr); Called (threshold_call a job_ID stimcurr)].

(** The options of the tutorial's first run, with [--dry] or without. *)
Definition tutorial_args (protocol : string) (dry : bool) : run_args :=
  mkRunArgs (mkArgs 50 None protocol "tenTusscherPanfilov" None)
    600 20 5 25 None dry.

End RestitutionRun.

(** ** 01_basic_bench/run.py: [jobID] and the parser's choices *)

Module BasicBenchExt.
Import BasicBench.

Local Open Scope string_scope.
Local Open Scope list_scope.

(** [jobID(args)]; [plug_in] and [plug_par] are [args.plug_in] and
    [args.plug_par], which [run] does not read. *)
Definition jobID (a : args) (plug_in plug_par : string) : option string :=
  Py.format "exp_{}{}_{}{}_bcl_{}_ms_duration_{}_ms"
    [EP a; EP_par a; plug_in; plug_par; bcl a; duration a].

(** The [choices] of the option [--EP]. *)
Definition EP_choices : list string :=
  ["tenTusscherPanfilov"; "DrouhardRoberge"; "OHara"].

End BasicBenchExt.
(** * Properties *)

(** ** Python built-ins *)

Module PyFacts.
Local Open Scope R_scope.

Lemma pow_raises_true (x n : R) :
  Py.pow_raises x n = true <-> x = 0 /\ n < 0.
Proof.
  unfold Py.pow_raises.
  destruct (Req_dec_T x 0) as [ E | E ]; [ destruct (Rlt_dec n 0) as [ L | L ] | ];
    split; try tauto; try discriminate.
Qed.

Lemma pow_raises_false (x n : R) :
  Py.pow_raises x n = false <-> ~ (x = 0 /\ n < 0).
Proof.
  rewrite <- pow_raises_true. destruct (Py.pow_raises x n); split; congruence.
Qed.

Lemma pow_Some (py_pow : R -> R -> R) (x n : R) :
  ~ (x = 0 /\ n < 0) -> Py.pow py_pow x n = Some (py_pow x n).
Proof.
  intros H. unfold Py.pow. apply pow_raises_false in H. now rewrite H.
Qed.

Lemma pow_None (py_pow : R -> R -> R) (x n : R) :
  x = 0 /\ n < 0 -> Py.pow py_pow x n = None.
Proof.
  intros H. unfold Py.pow. apply pow_raises_true in H. now rewrite H.
Qed.

Lemma truediv_Some (x y : R) : y <> 0 -> Py.truediv x y = Some (x / y).
Proof.
  intros H. unfold Py.truediv. destruct (Req_dec_T y 0); [ contradiction | reflexivity ].
Qed.

Lemma truediv_None (x y : R) : y = 0 -> Py.truediv x y = None.
Proof.
  intros H. unfold Py.truediv. destruct (Req_dec_T y 0); [ reflexivity | contradiction ].
Qed.

End PyFacts.


(** ** Rounding to binary64 *)

Module Float64Facts.
Import Float64.
Local Open Scope Q_scope.

Lemma two_nonzero : ~ 2 == 0.
Proof. discriminate. Qed.

Lemma pow2_pos (e : Z) : 0 < pow2 e.
Proof. apply Qpower_0_lt. reflexivity. Qed.

Lemma pow2_add (a b : Z) : pow2 (a + b) == pow2 a * pow2 b.
Proof. apply Qpower_plus, two_nonzero. Qed.

Lemma pow2_sub (a b : Z) : pow2 (a - b) == pow2 a / pow2 b.
Proof. apply Qpower_minus, two_nonzero. Qed.

Lemma pow2_le (a b : Z) : (a <= b)%Z -> pow2 a <= pow2 b.
Proof. intros H. apply Qpower_le_compat_l; [ exact H | discriminate ]. Qed.

Lemma pow2_lt (a b : Z) : (a < b)%Z -> pow2 a < pow2 b.
Proof. intros H. apply Qpower_lt_compat_l; [ exact H | reflexivity ]. Qed.

Lemma pow2_Z (e : Z) : (0 <= e)%Z -> pow2 e == inject_Z (2 ^ e).
Proof. intros H. unfold pow2. now rewrite (Zpower_Qpower 2 e H). Qed.

Lemma pow2_0 : pow2 0 == 1.
Proof. reflexivity. Qed.

(** [x / pow2 e] is [x * pow2 (- e)]. *)
Lemma div_pow2 (x : Q) (e : Z) : x / pow2 e == x * pow2 (- e).
Proof.
  unfold Qdiv, pow2. now rewrite Qpower_opp.
Qed.

Lemma Qnum_den (q : Q) : q == inject_Z (Qnum q) / inject_Z (Zpos (Qden q)).
Proof.
  destruct q as [n d]. cbn [Qnum Qden]. unfold Qeq, Qdiv, Qmult, Qinv, inject_Z.
  cbn. lia.
Qed.

Lemma Qnum_pos (q : Q) : 0 < q -> (0 < Qnum q)%Z.
Proof. destruct q as [n d]. unfold Qlt. cbn. lia. Qed.

(** *** The binade of a positive number *)

Lemma ilog2_lower (q : Q) : 0 < q -> pow2 (ilog2 q) <= q.
Proof.
  intros Hq. unfold ilog2.
  set (k := (Z.log2 (Qnum q) - Z.log2 (Z.pos (Qden q)))%Z).
  destruct (Qle_bool (pow2 k) q) eqn:E; [ now apply Qle_bool_iff | ].
  pose proof (Qnum_pos q Hq) as Hn.
  destruct (Z.log2_spec (Qnum q) Hn) as [Ln _].
  destruct (Z.log2_spec (Z.pos (Qden q)) (Pos2Z.is_pos _)) as [_ Ud].
  pose proof (Z.log2_nonneg (Qnum q)) as N1.
  pose proof (Z.log2_nonneg (Z.pos (Qden q))) as N2.
  replace (k - 1)%Z
    with (Z.log2 (Qnum q) - Z.succ (Z.log2 (Z.pos (Qden q))))%Z
    by (unfold k; lia).
  rewrite pow2_sub, (pow2_Z _ N1), (pow2_Z (Z.succ _)) by lia.
  rewrite (Qnum_den q) at 3.
  set (a := (2 ^ Z.log2 (Qnum q))%Z) in *.
  set (b := (2 ^ Z.succ (Z.log2 (Z.pos (Qden q))))%Z) in *.
  assert (Hb : (0 < b)%Z) by lia.
  assert (Ha : (0 < a)%Z) by (unfold a; apply Z.pow_pos_nonneg; lia).
  apply Qle_shift_div_l; [ change 0 with (inject_Z 0); rewrite <- Zlt_Qlt; lia | ].
  unfold Qdiv. rewrite <- Qmult_assoc, (Qmult_comm (/ _)), Qmult_assoc.
  apply Qle_shift_div_r; [ change 0 with (inject_Z 0); now rewrite <- Zlt_Qlt | ].
  rewrite <- !inject_Z_mult, <- Zle_Qle. nia.
Qed.

Lemma ilog2_upper (q : Q) : 0 < q -> q < pow2 (ilog2 q + 1).
Proof.
  intros Hq. unfold ilog2.
  set (k := (Z.log2 (Qnum q) - Z.log2 (Z.pos (Qden q)))%Z).
  destruct (Qle_bool (pow2 k) q) eqn:E.
  - pose proof (Qnum_pos q Hq) as Hn.
    destruct (Z.log2_spec (Qnum q) Hn) as [_ Un].
    destruct (Z.log2_spec (Z.pos (Qden q)) (Pos2Z.is_pos _)) as [Ld _].
    pose proof (Z.log2_nonneg (Qnum q)) as N1.
    pose proof (Z.log2_nonneg (Z.pos (Qden q))) as N2.
    replace (k + 1)%Z
      with (Z.succ (Z.log2 (Qnum q)) - Z.log2 (Z.pos (Qden q)))%Z
      by (unfold k; lia).
    rewrite pow2_sub, (pow2_Z _ N2), (pow2_Z (Z.succ _)) by lia.
    rewrite (Qnum_den q) at 1.
    set (a := (2 ^ Z.succ (Z.log2 (Qnum q)))%Z) in *.
    set (b := (2 ^ Z.log2 (Z.pos (Qden q)))%Z) in *.
    assert (Hb : (0 < b)%Z) by (unfold b; apply Z.pow_pos_nonneg; lia).
    apply Qlt_shift_div_l; [ change 0 with (inject_Z 0); now rewrite <- Zlt_Qlt | ].
    unfold Qdiv. rewrite <- Qmult_assoc, (Qmult_comm (/ _)), Qmult_assoc.
    apply Qlt_shift_div_r; [ change 0 with (inject_Z 0); rewrite <- Zlt_Qlt; lia | ].
    rewrite <- !inject_Z_mult, <- Zlt_Qlt. nia.
  - replace (k - 1 + 1)%Z with k by lia.
    apply Qnot_le_lt. intros H. apply Qle_bool_iff in H. congruence.
Qed.

(** *** Rounding to an integer *)

Lemma rne_floor (q : Q) : (Qfloor q <= rne q <= Qfloor q + 1)%Z.
Proof.
  unfold rne. destruct (Qcompare _ _); [ destruct (Z.even _) | | ]; lia.
Qed.

Lemma rne_ge (q : Q) (n : Z) : inject_Z n <= q -> (n <= rne q)%Z.
Proof.
  intros H. pose proof (rne_floor q) as [L _].
  apply Qfloor_resp_le in H. rewrite Qfloor_Z in H. lia.
Qed.

Lemma rne_le (q : Q) (n : Z) : q <= inject_Z n -> (rne q <= n)%Z.
Proof.
  intros H. unfold rne.
  pose proof (Qfloor_le q) as L. pose proof (Qlt_floor q) as U.
  pose proof (Qfloor_resp_le _ _ H) as F. rewrite Qfloor_Z in F.
  destruct (Z.eq_dec (Qfloor q) n) as [E | N].
  - assert (C : Qcompare (q - inject_Z (Qfloor q)) (1 # 2) = Lt).
    { apply -> Qlt_alt. rewrite E in *. rewrite inject_Z_plus in U.
      change (inject_Z 1) with 1 in U. lra. }
    rewrite C. lia.
  - destruct (Qcompare _ _); [ destruct (Z.even _) | | ]; lia.
Qed.

(** Below the midpoint under [n], the nearest integer is below [n]. *)
Lemma rne_lt (q : Q) (n : Z) : q < inject_Z n - (1 # 2) -> (rne q < n)%Z.
Proof.
  intros H. unfold rne.
  pose proof (Qfloor_le q) as L. pose proof (Qlt_floor q) as U.
  assert (F : (Qfloor q < n)%Z).
  { rewrite Zlt_Qlt. lra. }
  destruct (Qcompare (q - inject_Z (Qfloor q)) (1 # 2)) eqn:C; try lia.
  - apply Qeq_alt in C.
    assert (Qfloor q + 1 < n)%Z; [ | destruct (Z.even _); lia ].
    rewrite Zlt_Qlt, inject_Z_plus. change (inject_Z 1) with 1. lra.
  - apply Qgt_alt in C.
    rewrite Zlt_Qlt, inject_Z_plus. change (inject_Z 1) with 1. lra.
Qed.

(** *** Rounding a positive number *)

Lemma scaled_pos (q : Q) (e : Z) : 0 < q -> 0 < q / pow2 e.
Proof.
  intros H. apply Qlt_shift_div_l; [ apply pow2_pos | ]. now rewrite Qmult_0_l.
Qed.

Lemma round_pos_nonneg (q : Q) : 0 < q -> 0 <= round_pos q.
Proof.
  intros H. unfold round_pos.
  apply Qmult_le_0_compat; [ | apply Qlt_le_weak, pow2_pos ].
  change 0 with (inject_Z 0). rewrite <- Zle_Qle. apply rne_ge.
  apply Qlt_le_weak, scaled_pos, H.
Qed.

(** Rounding does not cross an integer that is a float: from above. *)
Lemma round_pos_ge (q : Q) (c : Z) :
  (0 < c <= 2 ^ 53)%Z -> inject_Z c <= q -> inject_Z c <= round_pos q.
Proof.
  intros Hc H. assert (Hq : 0 < q).
  { apply Qlt_le_trans with (inject_Z c); [ | exact H ].
    change 0 with (inject_Z 0). rewrite <- Zlt_Qlt. lia. }
  unfold round_pos. set (e := ulp_exponent q).
  destruct (Z.le_gt_cases e 0) as [He | He].
  - (* the last place is at or below the units *)
    assert (E : pow2 (- e) == inject_Z (2 ^ (- e))) by (apply pow2_Z; lia).
    assert (B : (c * 2 ^ (- e) <= rne (q / pow2 e))%Z).
    { apply rne_ge. rewrite inject_Z_mult, <- E, div_pow2.
      apply Qmult_le_compat_r; [ exact H | apply Qlt_le_weak, pow2_pos ]. }
    apply Qle_trans with (inject_Z (c * 2 ^ (- e)) * pow2 e).
    + rewrite inject_Z_mult, <- E, <- Qmult_assoc, <- pow2_add.
      replace (- e + e)%Z with 0%Z by lia. rewrite pow2_0, Qmult_1_r.
      apply Qle_refl.
    + apply Qmult_le_compat_r; [ now rewrite <- Zle_Qle | ].
      apply Qlt_le_weak, pow2_pos.
  - (* the number is at least 2^53 *)
    assert (Ee : e = (ilog2 q - 52)%Z) by (unfold e, ulp_exponent in *; lia).
    assert (B : (2 ^ 52 <= rne (q / pow2 e))%Z).
    { apply rne_ge. rewrite <- (pow2_Z 52) by lia.
      apply Qle_shift_div_l; [ apply pow2_pos | ].
      rewrite <- pow2_add. replace (52 + e)%Z with (ilog2 q) by lia.
      now apply ilog2_lower. }
    apply Qle_trans with (inject_Z (2 ^ 53)); [ rewrite <- Zle_Qle; lia | ].
    apply Qle_trans with (inject_Z (2 ^ 52) * pow2 1).
    + vm_compute. discriminate.
    + apply Qle_trans with (inject_Z (rne (q / pow2 e)) * pow2 1).
      * apply Qmult_le_compat_r; [ now rewrite <- Zle_Qle | discriminate ].
      * apply Qmult_le_l.
        { change 0 with (inject_Z 0). rewrite <- Zlt_Qlt. lia. }
        apply pow2_le. lia.
Qed.

(** From below. *)
Lemma round_pos_le (q : Q) (c : Z) :
  (0 < c < 2 ^ 53)%Z -> 0 < q -> q <= inject_Z c ->
  round_pos q <= inject_Z c.
Proof.
  intros Hc Hq H. unfold round_pos. set (e := ulp_exponent q).
  assert (He : (e <= 0)%Z).
  { unfold e, ulp_exponent.
    assert (ilog2 q < 53)%Z; [ | lia ].
    apply (Qpower_lt_compat_l_inv 2); [ | reflexivity ].
    apply Qle_lt_trans with q; [ now apply ilog2_lower | ].
    apply Qle_lt_trans with (inject_Z c); [ exact H | ].
    change (2 ^ 53) with (pow2 53). rewrite (pow2_Z 53) by lia.
    rewrite <- Zlt_Qlt. lia. }
  assert (E : pow2 (- e) == inject_Z (2 ^ (- e))) by (apply pow2_Z; lia).
  assert (B : (rne (q / pow2 e) <= c * 2 ^ (- e))%Z).
  { apply rne_le. rewrite inject_Z_mult, <- E, div_pow2.
    apply Qmult_le_compat_r; [ exact H | apply Qlt_le_weak, pow2_pos ]. }
  apply Qle_trans with (inject_Z (c * 2 ^ (- e)) * pow2 e).
  - apply Qmult_le_compat_r; [ now rewrite <- Zle_Qle | ].
    apply Qlt_le_weak, pow2_pos.
  - rewrite inject_Z_mult, <- E, <- Qmult_assoc, <- pow2_add.
    replace (- e + e)%Z with 0%Z by lia. rewrite pow2_0, Qmult_1_r.
    apply Qle_refl.
Qed.

(** *** Rounding *)

(** What [round q] is, by the sign of [q]. *)
Lemma round_cases (q : Q) :
  (q == 0 /\ round q = Finite 0) \/
  (0 < q /\ (round q = Infinity false /\ pow2 1024 <= round_pos q \/
             round q = Finite (Qred (round_pos q)) /\
             round_pos q < pow2 1024)) \/
  (q < 0 /\ (round q = Infinity true /\ pow2 1024 <= round_pos (- q) \/
             round q = Finite (Qred (- round_pos (- q))) /\
             round_pos (- q) < pow2 1024)).
Proof.
  unfold round. destruct (Qcompare q 0) eqn:C.
  - left. apply Qeq_alt in C. now split.
  - right. right. apply Qlt_alt in C. split; [ exact C | ].
    destruct (Qle_bool (pow2 1024) (round_pos (- q))) eqn:E.
    + left. split; [ reflexivity | now apply Qle_bool_iff ].
    + right. split; [ reflexivity | ].
      apply Qnot_le_lt. intros H. apply Qle_bool_iff in H. congruence.
  - right. left. apply Qgt_alt in C. split; [ exact C | ].
    destruct (Qle_bool (pow2 1024) (round_pos q)) eqn:E.
    + left. split; [ reflexivity | now apply Qle_bool_iff ].
    + right. split; [ reflexivity | ].
      apply Qnot_le_lt. intros H. apply Qle_bool_iff in H. congruence.
Qed.

(** A number that is not negative rounds to a float that is not
    negative, or to plus infinity. *)
Lemma round_nonneg (q : Q) :
  0 <= q ->
  round q = Infinity false \/ exists r, round q = Finite r /\ 0 <= r.
Proof.
  intros H. destruct (round_cases q) as [[_ E] | [[P [[E _] | [E _]]] | [N _]]].
  - right. exists 0. split; [ exact E | apply Qle_refl ].
  - now left.
  - right. eexists. split; [ exact E | ]. rewrite Qred_correct.
    now apply round_pos_nonneg.
  - exfalso. apply (Qlt_not_le _ _ N H).
Qed.

(** A number at or above the integer [c] rounds to a float at or above
    [c], or to plus infinity. *)
Lemma round_ge (q : Q) (c : Z) :
  (0 < c <= 2 ^ 53)%Z -> inject_Z c <= q ->
  round q = Infinity false \/
  exists r, round q = Finite r /\ inject_Z c <= r.
Proof.
  intros Hc H.
  assert (Hq : 0 < q).
  { apply Qlt_le_trans with (inject_Z c); [ | exact H ].
    change 0 with (inject_Z 0). rewrite <- Zlt_Qlt. lia. }
  destruct (round_cases q) as [[Z' _] | [[_ [[E _] | [E _]]] | [N _]]].
  - rewrite Z' in Hq. now apply Qlt_irrefl in Hq.
  - now left.
  - right. eexists. split; [ exact E | ]. rewrite Qred_correct.
    now apply round_pos_ge.
  - exfalso. apply (Qlt_irrefl 0). now apply Qlt_trans with q.
Qed.

(** A number at or below [- c] rounds to a float at or below [- c], or
    to minus infinity. *)
Lemma round_le_opp (q : Q) (c : Z) :
  (0 < c <= 2 ^ 53)%Z -> q <= - inject_Z c ->
  round q = Infinity true \/
  exists r, round q = Finite r /\ r <= - inject_Z c.
Proof.
  intros Hc H.
  assert (Hc' : 0 < inject_Z c).
  { change 0 with (inject_Z 0). rewrite <- Zlt_Qlt. lia. }
  assert (Hq : q < 0) by lra.
  destruct (round_cases q) as [[Z' _] | [[P _] | [_ [[E _] | [E _]]]]].
  - rewrite Z' in Hq. now apply Qlt_irrefl in Hq.
  - exfalso. apply (Qlt_irrefl 0). now apply Qlt_trans with q.
  - now left.
  - right. eexists. split; [ exact E | ]. rewrite Qred_correct.
    assert (inject_Z c <= round_pos (- q)) by (apply round_pos_ge; [ exact Hc | lra ]).
    lra.
Qed.


(** *** The floats: 53 bits *)

(** A positive float is an integer of at most 53 bits times a power of
    two. *)
Lemma round_le (q : Q) (c : Z) :
  (0 < c < 2 ^ 53)%Z -> q <= inject_Z c ->
  round q = Infinity true \/
  exists r, round q = Finite r /\ r <= inject_Z c.
Proof.
  intros Hc H.
  assert (Hc' : 0 < inject_Z c).
  { change 0 with (inject_Z 0). rewrite <- Zlt_Qlt. lia. }
  destruct (round_cases q)
    as [[_ E] | [[P [[_ B] | [E _]]] | [N [[E _] | [E _]]]]].
  - right. exists 0. split; [ exact E | now apply Qlt_le_weak ].
  - exfalso. pose proof (round_pos_le q c Hc P H) as L.
    assert (T : inject_Z c < pow2 1024).
    { apply Qlt_le_trans with (inject_Z (2 ^ 53)); [ rewrite <- Zlt_Qlt; lia | ].
      vm_compute. discriminate. }
    apply (Qlt_irrefl (pow2 1024)).
    apply Qle_lt_trans with (round_pos q); [ exact B | ].
    now apply Qle_lt_trans with (inject_Z c).
  - right. eexists. split; [ exact E | ]. rewrite Qred_correct.
    now apply round_pos_le.
  - now left.
  - right. eexists. split; [ exact E | ]. rewrite Qred_correct.
    assert (0 <= round_pos (- q)) by (apply round_pos_nonneg; lra).
    lra.
Qed.

Lemma round_pos_repr (q : Q) :
  0 < q ->
  exists (m e : Z), (0 <= m <= 2 ^ 53)%Z /\ round_pos q == inject_Z m * pow2 e.
Proof.
  intros Hq. exists (rne (q / pow2 (ulp_exponent q))), (ulp_exponent q).
  split; [ | reflexivity ]. set (e := ulp_exponent q). split.
  - apply rne_ge. apply Qlt_le_weak, scaled_pos, Hq.
  - apply rne_le. apply Qle_shift_div_r; [ apply pow2_pos | ].
    rewrite <- (pow2_Z 53) by lia. rewrite <- pow2_add.
    apply Qle_trans with (pow2 (ilog2 q + 1));
      [ now apply Qlt_le_weak, ilog2_upper | ].
    apply pow2_le. unfold e, ulp_exponent. lia.
Qed.

Lemma round_repr (q r : Q) :
  round q = Finite r -> 0 < r ->
  exists (m e : Z), (0 < m <= 2 ^ 53)%Z /\ r == inject_Z m * pow2 e.
Proof.
  intros E Hr.
  destruct (round_cases q) as [[_ E'] | [[P [[E' _] | [E' _]]] | [N [[E' _] | [E' _]]]]];
    rewrite E' in E; try discriminate; injection E as [= <-].
  - now apply Qlt_irrefl in Hr.
  - rewrite Qred_correct in *.
    destruct (round_pos_repr q P) as (m & e & [Hm0 Hm] & Em).
    exists m, e. split; [ | now rewrite Qred_correct ].
    split; [ | exact Hm ].
    destruct (Z.eq_dec m 0%Z) as [-> | Nm]; [ | lia ].
    rewrite Em, Qmult_0_l in Hr. now apply Qlt_irrefl in Hr.
  - rewrite Qred_correct in Hr.
    assert (Hn : 0 < - q) by lra.
    pose proof (round_pos_nonneg (- q) Hn). lra.
Qed.

(** Two numbers on the grids [2^ea] and [2^eb] lie on the finer one. *)
Lemma common_grid (ma ea mb eb : Z) :
  exists (g A B : Z),
    inject_Z ma * pow2 ea == inject_Z A * pow2 g /\
    inject_Z mb * pow2 eb == inject_Z B * pow2 g /\
    ((A = ma /\ g = ea) \/ (B = mb /\ g = eb)).
Proof.
  assert (S' : forall m e g : Z, (g <= e)%Z ->
            inject_Z m * pow2 e == inject_Z (m * 2 ^ (e - g)) * pow2 g).
  { intros m e g H. rewrite inject_Z_mult, <- (pow2_Z (e - g)) by lia.
    rewrite <- Qmult_assoc, <- pow2_add.
    replace (e - g + g)%Z with e by lia. reflexivity. }
  destruct (Z.le_gt_cases ea eb) as [H | H].
  - exists ea, ma, (mb * 2 ^ (eb - ea))%Z.
    split; [ reflexivity | ]. split; [ now apply S' | now left ].
  - exists eb, (ma * 2 ^ (ea - eb))%Z, mb.
    split; [ apply S'; lia | ]. split; [ reflexivity | now right ].
Qed.

(** Two floats [0 < a < b] differ by more than [b / 2^54]. *)
Lemma float_spacing (a b : Q) (ma ea mb eb : Z) :
  (0 < ma <= 2 ^ 53)%Z -> (0 < mb <= 2 ^ 53)%Z ->
  a == inject_Z ma * pow2 ea -> b == inject_Z mb * pow2 eb ->
  a < b ->
  a / b < 1 - (1 # 2 ^ 54).
Proof.
  intros Hma Hmb Ea Eb Hab.
  destruct (common_grid ma ea mb eb) as (g & A & B & EA & EB & Hg).
  rewrite EA in Ea. rewrite EB in Eb.
  pose proof (pow2_pos g) as Pg.
  assert (HAB : (A < B)%Z).
  { rewrite Zlt_Qlt. apply Qmult_lt_r with (pow2 g); [ exact Pg | ].
    now rewrite <- Ea, <- Eb. }
  assert (HA : (0 < A)%Z).
  { rewrite Zlt_Qlt. apply Qmult_lt_r with (pow2 g); [ exact Pg | ].
    rewrite Qmult_0_l, <- EA.
    apply Qmult_lt_0_compat; [ | apply pow2_pos ].
    change 0 with (inject_Z 0). rewrite <- Zlt_Qlt. lia. }
  assert (K : (A * 2 ^ 54 < B * (2 ^ 54 - 1))%Z)
    by (destruct Hg as [[-> _] | [-> _]]; lia).
  assert (Pb : 0 < b).
  { rewrite Eb. apply Qmult_lt_0_compat; [ | exact Pg ].
    change 0 with (inject_Z 0). rewrite <- Zlt_Qlt. lia. }
  apply Qlt_shift_div_r; [ exact Pb | ]. rewrite Ea, Eb.
  rewrite Qmult_assoc. apply Qmult_lt_compat_r; [ exact Pg | ].
  apply Qmult_lt_r with (inject_Z (2 ^ 54)); [ reflexivity | ].
  rewrite <- inject_Z_mult.
  apply Qlt_le_trans with (inject_Z (B * (2 ^ 54 - 1)));
    [ now rewrite <- Zlt_Qlt | ].
  rewrite inject_Z_mult. apply Qle_lteq. right.
  assert (C : inject_Z (2 ^ 54 - 1) == (1 - (1 # 2 ^ 54)) * inject_Z (2 ^ 54))
    by reflexivity.
  rewrite C. ring.
Qed.

(** Below [1 - 2^-54] a number rounds to a float below 1. *)
Lemma round_lt_1 (x : Q) :
  0 <= x -> x < 1 - (1 # 2 ^ 54) ->
  exists r, round x = Finite r /\ 0 <= r /\ r < 1.
Proof.
  intros H0 H1.
  destruct (round_cases x) as [[_ E] | [[P D] | [N _]]].
  - exists 0. split; [ exact E | ]. split; [ apply Qle_refl | reflexivity ].
  - assert (R : round_pos x < 1).
    { unfold round_pos. set (e := ulp_exponent x).
      assert (He : (e <= -53)%Z).
      { unfold e, ulp_exponent. assert (ilog2 x < 0)%Z; [ | lia ].
        apply (Qpower_lt_compat_l_inv 2); [ | reflexivity ].
        apply Qle_lt_trans with x; [ now apply ilog2_lower | ].
        change (2 ^ 0) with 1.
        apply Qlt_trans with (1 - (1 # 2 ^ 54)); [ exact H1 | reflexivity ]. }
      set (n := (2 ^ (- e))%Z).
      assert (En : pow2 (- e) == inject_Z n) by (apply pow2_Z; lia).
      assert (Hn : (2 ^ 53 <= n)%Z) by (apply Z.pow_le_mono_r; lia).
      assert (Hn' : inject_Z (2 ^ 53) <= inject_Z n) by (now rewrite <- Zle_Qle).
      assert (M : (rne (x / pow2 e) < n)%Z).
      { apply rne_lt. rewrite div_pow2, En.
        apply Qlt_le_trans with ((1 - (1 # 2 ^ 54)) * inject_Z n).
        - apply Qmult_lt_compat_r; [ | exact H1 ].
          apply Qlt_le_trans with (inject_Z (2 ^ 53)); [ reflexivity | exact Hn' ].
        - assert (C : (1 # 2) == (1 # 2 ^ 54) * inject_Z (2 ^ 53)) by reflexivity.
          assert (D' : (1 # 2 ^ 54) * inject_Z (2 ^ 53)
                      <= (1 # 2 ^ 54) * inject_Z n).
          { apply Qmult_le_l; [ reflexivity | exact Hn' ]. }
          rewrite C. set (u := 1 # 2 ^ 54) in *.
          set (v := inject_Z (2 ^ 53)) in *. lra. }
      apply Qlt_le_trans with (inject_Z n * pow2 e).
      - apply Qmult_lt_compat_r; [ apply pow2_pos | now rewrite <- Zlt_Qlt ].
      - rewrite <- En, <- pow2_add. replace (- e + e)%Z with 0%Z by lia.
        apply Qle_refl. }
    destruct D as [[_ O] | [E _]].
    + exfalso. apply (Qlt_irrefl 1).
      apply Qlt_trans with (pow2 1024); [ reflexivity | ].
      now apply Qle_lt_trans with (round_pos x).
    + eexists. split; [ exact E | ]. rewrite Qred_correct.
      split; [ now apply round_pos_nonneg | exact R ].
  - exfalso. apply (Qlt_not_le _ _ N H0).
Qed.

(** The float quotient of two floats [0 <= a < b] is below 1: [int()]
    of it is 0. *)
Lemma quotient_lt_1 (x y : Q) :
  0 <= x -> gt (fl y) (fl x) = true ->
  exists q, quotient x y = Some (Finite q) /\ 0 <= q /\ q < 1.
Proof.
  intros Hx G. unfold quotient, fl in *.
  destruct (round_nonneg x Hx) as [Ex | [a [Ex Ha]]]; rewrite Ex in *.
  - destruct (round y) as [ b | [ | ] | ]; cbn in G; discriminate.
  - destruct (round y) as [b | [ | ] | ] eqn:Ey; cbn [gt] in G;
      try discriminate.
    + (* two finite floats *)
      apply negb_true_iff in G.
      assert (Hab : a < b).
      { apply Qnot_le_lt. intros H. apply Qle_bool_iff in H. congruence. }
      assert (Pb : 0 < b) by (now apply Qle_lt_trans with a).
      unfold div. cbn [is_zero].
      assert (Qeq_bool b 0 = false) as ->.
      { destruct (Qeq_bool b 0) eqn:E; [ | reflexivity ].
        apply Qeq_bool_eq in E. rewrite E in Pb. now apply Qlt_irrefl in Pb. }
      destruct (round_lt_1 (a / b)) as (r & Er & Hr).
      * apply Qle_shift_div_l; [ exact Pb | ]. now rewrite Qmult_0_l.
      * apply Qle_lteq in Ha. destruct Ha as [Pa | Za].
        -- destruct (round_repr x a Ex Pa) as (ma & ea & Hma & Ea).
           destruct (round_repr y b Ey Pb) as (mb & eb & Hmb & Eb).
           exact (float_spacing a b ma ea mb eb Hma Hmb Ea Eb Hab).
        -- rewrite <- Za. unfold Qdiv. rewrite Qmult_0_l. reflexivity.
      * exists r. split; [ now rewrite Er | exact Hr ].
    + (* the divisor is plus infinity *)
      exists 0. split; [ reflexivity | ]. split; [ apply Qle_refl | reflexivity ].
Qed.

Lemma int_lt_1 (q : Q) : 0 <= q -> q < 1 -> int (Finite q) = inr 0%Z.
Proof.
  intros H0 H1. cbn [int]. f_equal.
  destruct q as [n d]. unfold Qle, Qlt in *. cbn in *.
  apply Z.quot_small. lia.
Qed.

(** *** Values Python prints *)

Example fl_tenth :
  fl 0.1 = Finite (3602879701896397 # 36028797018963968).
Proof. vm_compute. reflexivity. Qed.

(** [0.1 + 0.2] is [0.30000000000000004], not [0.3]. *)
Example add_tenths :
  add (fl 0.1) (fl 0.2) = fl 0.30000000000000004 /\
  add (fl 0.1) (fl 0.2) <> fl 0.3.
Proof. split; [ vm_compute; reflexivity | vm_compute; discriminate ]. Qed.

(** [0.7 / 0.1] is [6.999999999999999], [0.3 / 0.1] is
    [2.9999999999999996], [33 / 1.1] is [29.999999999999996], [4.3 / 0.1]
    is [42.99999999999999]. *)
Example int_quotients :
  quotient 0.7 0.1 = Some (fl 6.999999999999999) /\
  int_quotient 0.7 0.1 = Some 6%Z /\
  int_quotient 0.3 0.1 = Some 2%Z /\
  int_quotient 33 1.1 = Some 29%Z /\
  int_quotient 4.3 0.1 = Some 42%Z /\
  int_quotient 5 1 = Some 5%Z.
Proof. repeat split; vm_compute; reflexivity. Qed.

(** [254.9 - 259.9] is [-4.999999999999972]. *)
Example sub_rounds :
  sub (fl 254.9) (fl 259.9) = fl (-4.999999999999972) /\
  gt (sub (fl 254.9) (fl 259.9)) (fl (-5)) = true.
Proof. split; vm_compute; reflexivity. Qed.

(** [2e-324] is [0.0], [1e308 / 1e-308] is [inf], and [int(inf)]
    raises. *)
Example range_ends :
  fl 2e-324 = Finite 0 /\
  quotient 1e308 1e-308 = Some (Infinity false) /\
  int_quotient 1e308 1e-308 = None /\
  int_quotient 1 0 = None.
Proof. repeat split; vm_compute; reflexivity. Qed.

End Float64Facts.
(** ** variable.py *)

Module AutodiffFacts.
Import Autodiff.
Local Open Scope R_scope.

Lemma criteria_Some (h : heap) (v : nat) (o : VariableObj) :
  h !! v = Some o ->
  criteria h v = Some (match _gradients o with
                       | [(target, _)] => Nat.eqb target v
                       | _ => false
                       end).
Proof. intros E. unfold criteria. now rewrite E. Qed.

Lemma criteria_false_edges (h : heap) (v : nat) (o : VariableObj) :
  well_formed h -> h !! v = Some o -> criteria h v = Some false ->
  Forall (fun e : nat * R => (e.1 < v)%nat) (_gradients o).
Proof.
  intros W E C. rewrite (criteria_Some h v o E) in C.
  destruct (W v o E) as [[s Hs] | F]; [ | exact F ].
  rewrite Hs in C. rewrite Nat.eqb_refl in C. discriminate.
Qed.

Lemma for_edges_frame (h : heap) (f v : nat) :
  (forall c tg g, (c < v)%nat -> criteria h c = Some false ->
     exists g', _compute_gradients f h c tg g = Some g' /\
                forall k, (c <= k)%nat -> g' !! k = g !! k) ->
  (v <= length h)%nat ->
  forall (edges : list (nat * R)) tg g,
    Forall (fun e : nat * R => (e.1 < v)%nat) edges ->
    exists g', for_edges (_compute_gradients f h) h tg edges g = Some g' /\
               forall k, (v <= k)%nat -> g' !! k = g !! k.
Proof.
  intros IH Hv edges. induction edges as [ | [c cg] rest IHr ]; intros tg g F.
  - exists g. split; [ reflexivity | tauto ].
  - inversion F as [ | e l Hc Fr ]; subst. simpl in Hc. cbn [for_edges].
    destruct (lookup_lt_is_Some_2 h c ltac:(lia)) as [oc Eoc].
    rewrite (criteria_Some h c oc Eoc).
    set (g1 := <[c := getitem g c + tg * cg]> g).
    assert (Hg1 : forall k, (v <= k)%nat -> g1 !! k = g !! k).
    { intros k Hk. unfold g1. apply lookup_insert_ne. lia. }
    destruct (match _gradients oc with [(target, _)] => Nat.eqb target c | _ => false end) eqn:Cr.
    + destruct (IHr tg g1 Fr) as [g' [E' Fr']]. exists g'. split; [ exact E' | ].
      intros k Hk. rewrite Fr' by exact Hk. now apply Hg1.
    + destruct (IH c (tg * cg) g1 Hc) as [g2 [E2 F2]].
      { rewrite (criteria_Some h c oc Eoc). now rewrite Cr. }
      rewrite E2. destruct (IHr tg g2 Fr) as [g' [E' Fr']]. exists g'.
      split; [ exact E' | ]. intros k Hk. rewrite Fr' by exact Hk.
      rewrite F2 by lia. now apply Hg1.
Qed.

Lemma compute_gradients_frame (h : heap) :
  well_formed h ->
  forall fuel v tg g, (v < fuel)%nat -> (v < length h)%nat ->
    criteria h v = Some false ->
    exists g', _compute_gradients fuel h v tg g = Some g' /\
               forall k, (v <= k)%nat -> g' !! k = g !! k.
Proof.
  intros W fuel. induction fuel as [ | f IH ]; intros v tg g Hf Hv C; [ lia | ].
  destruct (lookup_lt_is_Some_2 h v Hv) as [o Eo].
  cbn [_compute_gradients]. rewrite Eo.
  apply (for_edges_frame h f v).
  - intros c tg' g0 Hc Cc. apply IH; [ lia | lia | exact Cc ].
  - lia.
  - exact (criteria_false_edges h v o W Eo C).
Qed.

(** A well-formed heap never runs [compute_gradients] out of fuel. *)
Lemma compute_gradients_total (h : heap) (v : nat) :
  well_formed h -> (v < length h)%nat ->
  exists g, compute_gradients v h = Some (g, h).
Proof.
  intros W Hv. unfold compute_gradients.
  destruct (lookup_lt_is_Some_2 h v Hv) as [o Eo].
  destruct (criteria h v) as [[ | ] | ] eqn:C.
  - rewrite (criteria_Some _ v o Eo) in C.
    destruct (_gradients o) as [ | [t s] [ | e l ] ] eqn:G; try discriminate.
    injection C as C. apply Nat.eqb_eq in C. subst t.
    destruct (length h) as [ | f ] eqn:L; [ lia | ].
    cbn [_compute_gradients]. rewrite Eo, G. cbn [for_edges].
    rewrite (criteria_Some _ v o Eo), G, Nat.eqb_refl. eauto.
  - destruct (compute_gradients_frame h W (length h) v 1 ∅ Hv Hv C) as [g [E _]].
    rewrite E. eauto.
  - rewrite (criteria_Some _ v o Eo) in C. discriminate.
Qed.

(** Allocation keeps the heap well formed when the new edges point to
    existing objects. *)
Lemma init_well_formed (h : heap) (x : R) (gradients : option (list (nat * R)))
    (nm : string) :
  well_formed h ->
  (forall g, gradients = Some g ->
     Forall (fun e : nat * R => (e.1 < length h)%nat) g) ->
  forall self h', __init__ x gradients nm h = Some (self, h') ->
    self = length h /\ well_formed h'.
Proof.
  intros W G self h' E. unfold __init__ in E. injection E as <- <-.
  split; [ reflexivity | ]. intros i o Ho.
  destruct (Nat.lt_ge_cases i (length h)) as [Hi | Hi].
  - rewrite lookup_app_l in Ho by exact Hi. now apply W.
  - rewrite lookup_app_r in Ho by exact Hi.
    destruct (i - length h)%nat as [ | d ] eqn:D; [ | destruct d; discriminate ].
    assert (i = length h) by lia. subst i. injection Ho as <-. cbn [_gradients].
    destruct gradients as [ g | ]; [ right; now apply G | left; eauto ].
Qed.

Section Facts.

Variable py_pow : R -> R -> R.

Lemma pow_spec (h : heap) (a : nat) (n : R) (va : VariableObj) :
  h !! a = Some va -> ~ (value va = 0 /\ n < 0) ->
  pow py_pow a n h =
    Some (length h,
          h ++ [mkVariable (py_pow (value va) n) [(a, n * value va)] ""]).
Proof.
  intros E N. unfold pow, bind, deref. rewrite E.
  apply PyFacts.pow_raises_false in N. rewrite N. reflexivity.
Qed.

Lemma pow_raises (h : heap) (a : nat) (n : R) (va : VariableObj) :
  h !! a = Some va -> value va = 0 /\ n < 0 -> pow py_pow a n h = None.
Proof.
  intros E N. unfold pow, bind, deref. rewrite E.
  apply PyFacts.pow_raises_true in N. rewrite N. reflexivity.
Qed.

Lemma inv_spec (h : heap) (a : nat) (va : VariableObj) :
  h !! a = Some va -> value va <> 0 ->
  inv py_pow a h =
    Some (length h,
          h ++ [mkVariable (1 / value va)
                  [(a, -1 / py_pow (value va) 2)] ""]).
Proof.
  intros E N. unfold inv, bind, deref. rewrite E.
  destruct (Req_dec_T (value va) 0); [ contradiction | reflexivity ].
Qed.

(** Every operation of the library keeps the heap well formed: the edges
    of a new object point to objects that [deref] has just found. *)
Lemma keeps_ret {A} (a : A) : keeps (ret a).
Proof. intros h x h' W [= _ <-]. exact W. Qed.

Lemma keeps_bind {A B} (m : M A) (k : A -> M B) :
  keeps m -> (forall a, keeps (k a)) -> keeps (bind m k).
Proof.
  intros Km Kk h x h' W E. unfold bind in E.
  destruct (m h) as [[a h1] | ] eqn:Em; [ | discriminate ].
  exact (Kk a h1 x h' (Km h a h1 W Em) E).
Qed.

Lemma keeps_deref (v : nat) : keeps (deref v).
Proof.
  intros h x h' W E. unfold deref in E.
  destruct (h !! v); [ | discriminate ]. now injection E as _ <-.
Qed.

Lemma keeps_init_leaf (x : R) (nm : string) : keeps (__init__ x None nm).
Proof.
  intros h self h' W E.
  apply (init_well_formed h x None nm W) in E; [ tauto | discriminate ].
Qed.

Lemma keeps_wrap (other : operand) : keeps (wrap other).
Proof. destruct other; [ apply keeps_ret | apply keeps_init_leaf ]. Qed.

Ltac keeps_primitive :=
  let h := fresh "h" in let W := fresh "W" in let E := fresh "E" in
  intros h ? ? W E; cbv [add mul neg inv pow bind deref raise] in E;
  repeat match type of E with
         | context [h !! ?v] =>
             let Ev := fresh "Ev" in
             destruct (h !! v) eqn:Ev; [ apply lookup_lt_Some in Ev | discriminate ]
         end;
  repeat match type of E with
         | context [if ?c then _ else _] => destruct c; [ discriminate | ]
         end;
  eapply init_well_formed in E;
  [ apply E | exact W
  | intros ? [= <-]; repeat constructor; assumption ].

Lemma keeps_add (a b : nat) : keeps (add a b).
Proof. keeps_primitive. Qed.

Lemma keeps_mul (a b : nat) : keeps (mul a b).
Proof. keeps_primitive. Qed.

Lemma keeps_neg (a : nat) : keeps (neg a).
Proof. keeps_primitive. Qed.

Lemma keeps_inv (a : nat) : keeps (inv py_pow a).
Proof. keeps_primitive. Qed.

Lemma keeps_pow (a : nat) (n : R) : keeps (pow py_pow a n).
Proof. keeps_primitive. Qed.

Lemma keeps_exp (a : operand) : keeps (exp a).
Proof.
  intros h x h' W E. unfold exp, bind in E.
  destruct (wrap a h) as [[v h1] | ] eqn:Ew; [ | discriminate ].
  pose proof (keeps_wrap a h v h1 W Ew) as W1. unfold deref in E.
  destruct (h1 !! v) eqn:Ev; [ apply lookup_lt_Some in Ev | discriminate ].
  eapply init_well_formed in E;
    [ apply E | exact W1 | intros ? [= <-]; repeat constructor; assumption ].
Qed.

Create HintDb keeps.
#[local] Hint Resolve keeps_ret keeps_deref keeps_init_leaf keeps_wrap
  keeps_add keeps_mul keeps_neg keeps_inv keeps_pow keeps_exp : keeps.
#[local] Hint Extern 1 (keeps (bind _ _)) =>
  apply keeps_bind; [ | intro ] : keeps.

Lemma keeps_operators (self : nat) (other : operand) (exponent : R) :
  keeps (__add__ self other) /\ keeps (__radd__ self other) /\
  keeps (__mul__ self other) /\ keeps (__rmul__ self other) /\
  keeps (__sub__ self other) /\ keeps (__rsub__ self other) /\
  keeps (__truediv__ py_pow self other) /\
  keeps (__rtruediv__ py_pow self other) /\
  keeps (__pow__ py_pow self exponent) /\ keeps (__neg__ self).
Proof.
  unfold __add__, __radd__, __mul__, __rmul__, __sub__, __rsub__,
    __truediv__, __rtruediv__, __pow__, __neg__.
  repeat split; auto 10 with keeps.
Qed.

Lemma pow_well_formed (h : heap) (a : nat) (n : R) (p : nat) (h' : heap) :
  well_formed h -> pow py_pow a n h = Some (p, h') -> well_formed h'.
Proof. intros W E. exact (keeps_pow a n h p h' W E). Qed.

Lemma powerRZ_pred (x : R) (k : Z) :
  x <> 0 -> powerRZ x (k - 1) = powerRZ x (k - 2) * x.
Proof.
  intros Hx. replace (k - 1)%Z with ((k - 2) + 1)%Z by lia.
  rewrite powerRZ_add by exact Hx. now rewrite powerRZ_1.
Qed.


(** C6.  [Variable(v)] built without [gradients] has exactly one gradient
    edge; the edge points to the new object itself and carries
    [np.sign(v)].  The recursion test of [compute_gradients] holds for the
    object in every later heap, so the loop of [_compute_gradients] never
    recurses into it, and [compute_gradients] of the object itself
    returns after that single edge. *)
Theorem leaf_has_one_self_edge (v : R) (nm : string) (h : heap) :
  exists self h',
    __init__ v None nm h = Some (self, h') /\
    h' !! self = Some (mkVariable v [(self, sign v)] nm) /\
    (0 < v /\ sign v = 1 \/ v = 0 /\ sign v = 0 \/ v < 0 /\ sign v = -1) /\
    (forall later, criteria (h' ++ later) self = Some true) /\
    (forall later recurse tg cg g,
       for_edges recurse (h' ++ later) tg [(self, cg)] g =
         Some (<[self := getitem g self + tg * cg]> g)) /\
    (forall later fuel,
       _compute_gradients (S fuel) (h' ++ later) self 1 ∅ =
         Some (<[self := 0 + 1 * sign v]> ∅)).
Proof.
  exists (length h), (h ++ [mkVariable v [(length h, sign v)] nm]).
  assert (L : forall later,
    ((h ++ [mkVariable v [(length h, sign v)] nm]) ++ later) !! length h =
      Some (mkVariable v [(length h, sign v)] nm)).
  { intros later. rewrite <- app_assoc. rewrite lookup_app_r by lia.
    now rewrite Nat.sub_diag. }
  assert (C : forall later,
    criteria ((h ++ [mkVariable v [(length h, sign v)] nm]) ++ later)
      (length h) = Some true).
  { intros later. rewrite (criteria_Some _ _ _ (L later)). cbn [_gradients].
    now rewrite Nat.eqb_refl. }
  split; [ reflexivity | ]. split.
  { specialize (L []). now rewrite app_nil_r in L. }
  split.
  { unfold sign. destruct (Rlt_dec 0 v) as [P | P]; [ lra | ].
    destruct (Rlt_dec v 0) as [N | N]; lra. }
  split; [ exact C | ]. split.
  - intros later recurse tg cg g. cbn [for_edges]. now rewrite C.
  - intros later fuel. cbn [_compute_gradients]. rewrite L. cbn [_gradients for_edges].
    rewrite C. unfold getitem. now rewrite lookup_empty.
Qed.

Lemma power_coincides (n x p1 p2 : R) :
  n <> 0 -> x <> 0 -> p1 = p2 * x ->
  (n * x = n * p1 <-> p2 = 1).
Proof.
  intros Hn Hx ->. split.
  - intros E. apply (Rmult_eq_reg_r (n * x)).
    + rewrite Rmult_1_l. rewrite E at 2. ring.
    + now apply Rmult_integral_contrapositive_currified.
  - intros ->. ring.
Qed.

Lemma Rpower_pred (x n : R) :
  0 < x -> Rpower x (n - 1) = Rpower x (n - 2) * x.
Proof.
  intros Hx. replace (n - 1) with ((n - 2) + 1) by ring.
  rewrite Rpower_plus. now rewrite Rpower_1.
Qed.


(** The self-test's run: the heap it builds and the numbers it compares,
    before any arithmetic simplification. *)
Lemma loss_gradient_wrt_y_run :
  exists h,
    loss_gradient_wrt_y py_pow [] =
      Some (0 + 1 * (5 * / 10) *
              (2 * (10 + -1 * (1 * (1 / (Rtrigo_def.exp (-1 * (4 + 3 * (1 * / 10))) + 1))))) * 1,
            10 + -1 * (1 * (1 / (Rtrigo_def.exp (-1 * (4 + 3 * (1 * / 10))) + 1))),
            10,
            1 * (1 / (Rtrigo_def.exp (-1 * (4 + 3 * (1 * / 10))) + 1)),
            h).
Proof.
  pose proof (exp_pos (-1 * (4 + 3 * (1 * / 10)))) as P.
  eexists.
  with_strategy transparent [gmap_empty]
    cbv - [Rplus Rmult Rinv Rdiv Rminus Ropp IZR Rtrigo_def.exp sign
           Req_dec_T Rlt_dec].
  repeat match goal with
         | |- context [Req_dec_T ?x ?y] =>
             destruct (Req_dec_T x y); [ try (exfalso; lra) | ]
         | |- context [Rlt_dec ?x ?y] =>
             destruct (Rlt_dec x y); [ try (exfalso; lra) | ]
         end;
  reflexivity.
Qed.

Lemma sigmoid_bounds (x : R) : 0 < / (Rtrigo_def.exp x + 1) < 1.
Proof.
  pose proof (exp_pos x) as P. split.
  - apply Rinv_0_lt_compat. lra.
  - rewrite <- Rinv_1 at 2. apply Rinv_lt_contravar; lra.
Qed.

(** C1, as amended.  For w0=4, w1=3, x1=0.1, y=10 the gradient map of
    [0.5*(y - y_hat)**2] with [y_hat = sigmoid(w0 + w1*x1)] holds at the
    node [y] the value [y - y_hat], which is the value of the node
    [y - y_hat(...)] the self-test compares it with, and [np.isclose] to
    it. *)
Theorem loss_gradient_wrt_y_is_y_minus_y_hat :
  exists g expected vy vyh h,
    loss_gradient_wrt_y py_pow [] = Some (g, expected, vy, vyh, h) /\
    vy = 10 /\
    vyh = 1 / (1 + Rtrigo_def.exp (- (4 + 3 * 0.1))) /\
    expected = vy - vyh /\
    g = vy - vyh /\
    isclose g expected.
Proof.
  destruct loss_gradient_wrt_y_run as [h E].
  eexists _, _, _, _, h. split; [ exact E | ].
  replace (- (4 + 3 * 0.1)) with (-1 * (4 + 3 * (1 * / 10))) by lra.
  set (e := Rtrigo_def.exp _).
  pose proof (exp_pos (-1 * (4 + 3 * (1 * / 10)))) as P. fold e in P.
  assert (G : 0 + 1 * (5 * / 10) * (2 * (10 + -1 * (1 * (1 / (e + 1))))) * 1
              = 10 - 1 * (1 / (e + 1))) by lra.
  assert (X : 10 + -1 * (1 * (1 / (e + 1))) = 10 - 1 * (1 / (e + 1))) by lra.
  split; [ reflexivity | ]. split; [ field; lra | ]. split; [ exact X | ].
  split; [ exact G | ].
  unfold isclose. rewrite G, X, Rminus_diag, Rabs_R0.
  pose proof (Rabs_pos (10 - 1 * (1 / (e + 1)))). lra.
Qed.

End Facts.

(** The claim as first stated fails: the value at [y] is not within the
    tolerance of [y_hat - y], whichever of the two is taken as the
    reference.  (The self-test only raises to the power 2.) *)
Lemma loss_gradient_wrt_y_is_not_y_hat_minus_y :
  exists g expected vy vyh h,
    loss_gradient_wrt_y (pow_at 2) [] = Some (g, expected, vy, vyh, h) /\
    ~ isclose g (vyh - vy) /\ ~ isclose (vyh - vy) g.
Proof.
  destruct (loss_gradient_wrt_y_run (pow_at 2)) as [h E].
  eexists _, _, _, _, h. split; [ exact E | ].
  pose proof (sigmoid_bounds (-1 * (4 + 3 * (1 * / 10)))) as B.
  unfold isclose, Rdiv. set (s := / (_ + 1)) in *. split; intros H.
  - rewrite Rabs_right in H by lra. rewrite Rabs_left in H by lra. lra.
  - rewrite Rabs_left in H by lra. rewrite Rabs_right in H by lra. lra.
Qed.

Lemma one_leaf_well_formed (x : R) : well_formed (one_leaf x).
Proof.
  intros i o E. destruct i as [ | i ]; [ | destruct i; discriminate ].
  injection E as <-. left. eauto.
Qed.



End AutodiffFacts.

(** ** methods.py *)

Module MethodsFacts.
Import Methods.
Local Open Scope Q_scope.

(** *** [spike_trains_to_binary] *)

(** [int()] is the floor on a float that is not negative. *)
Lemma int_nonneg (x : Q) :
  0 <= x -> Float64.int (Float64.Finite x) = inr (Qfloor x).
Proof.
  destruct x as [n d]. unfold Qle, Float64.int, Qfloor. cbn [Qnum Qden].
  intros H. f_equal. apply Z.quot_div_nonneg; lia.
Qed.

Lemma Qdiv_nonneg (x y : Q) : 0 <= x -> 0 < y -> 0 <= x / y.
Proof.
  intros Hx Hy. unfold Qdiv. apply Qmult_le_0_compat; [ exact Hx | ].
  apply Qlt_le_weak, Qinv_lt_0_compat, Hy.
Qed.

Lemma Qfloor_nonneg (x : Q) : 0 <= x -> (0 <= Qfloor x)%Z.
Proof.
  intros H. change 0%Z with (Qfloor 0). now apply Qfloor_resp_le.
Qed.

(** A float quotient of a number that is not negative by one that is
    not negative is not negative, and [int()] of it is its floor. *)
Lemma quotient_nonneg (x y q : Q) :
  0 <= x -> 0 <= y -> Float64.quotient x y = Some (Float64.Finite q) ->
  0 <= q.
Proof.
  intros Hx Hy. unfold Float64.quotient, Float64.fl, Float64.div.
  destruct (Float64.is_zero (Float64.round y)) eqn:Z'; [ discriminate | ].
  destruct (Float64Facts.round_nonneg x Hx) as [-> | [a [-> Ha]]];
    destruct (Float64Facts.round_nonneg y Hy) as [Ey | [b [Ey Hb]]];
    rewrite Ey in *; try discriminate.
  - intros [= <-]. apply Qle_refl.
  - assert (Nb : ~ b == 0).
    { intros E. cbn in Z'. apply Qeq_bool_iff in E. congruence. }
    assert (Hq : 0 <= a / b).
    { apply Qdiv_nonneg; [ exact Ha | ]. apply Qle_lteq in Hb.
      destruct Hb as [Hb | Hb]; [ exact Hb | ]. now symmetry in Hb. }
    intros E. destruct (Float64Facts.round_nonneg (a / b) Hq) as [E' | [r [E' Hr]]];
      rewrite E' in E; [ discriminate | ].
    injection E as [= <-]. exact Hr.
Qed.

Lemma int_quotient_floor (x y q : Q) :
  0 <= x -> 0 <= y -> Float64.quotient x y = Some (Float64.Finite q) ->
  Float64.int_quotient x y = Some (Qfloor q) /\
  Float64.floor_quotient x y = Some (Qfloor q) /\ (0 <= Qfloor q)%Z.
Proof.
  intros Hx Hy E. pose proof (quotient_nonneg x y q Hx Hy E) as Hq.
  unfold Float64.int_quotient, Float64.floor_quotient. rewrite E.
  rewrite (int_nonneg q Hq). repeat split. now apply Qfloor_nonneg.
Qed.

(** What the loop leaves in a bin: 1 if a spike fell into it, else what
    was there. *)
Lemma mark_bins_spec (bin_size : Q) (n_bins : Z) (spike_times : list Q) :
  0 <= bin_size -> Forall (Qle 0) spike_times ->
  Forall (fun t => finite_quotient t bin_size) spike_times ->
  forall binary : list Q, length binary = Z.to_nat n_bins ->
  exists binary' : list Q,
    mark_bins bin_size n_bins spike_times binary = Some binary' /\
    length binary' = length binary /\
    forall i : nat, (i < length binary)%nat ->
      binary' !! i =
        if existsb (fun t => is_bin (Float64.floor_quotient t bin_size) i)
             spike_times
        then Some 1 else binary !! i.
Proof.
  intros Hb F G. revert G.
  induction F as [ | t rest Ht F IH ]; intros G binary L.
  - exists binary. cbn. auto.
  - apply Forall_cons in G. destruct G as [[q Eq] G].
    destruct (int_quotient_floor t bin_size q Ht Hb Eq) as (Ei & Ef & P).
    cbn [mark_bins existsb]. rewrite Ei, Ef. cbn [is_bin].
    set (b := Qfloor q) in *.
    destruct (b <? n_bins)%Z eqn:Lt.
    + apply Z.ltb_lt in Lt. unfold setitem.
      assert (In_range : ((0 <=? b) && (b <? Z.of_nat (length binary)))%Z = true).
      { apply andb_true_intro. split; [ apply Z.leb_le | apply Z.ltb_lt ]; lia. }
      rewrite In_range.
      destruct (IH G (<[Z.to_nat b := 1]> binary)) as [binary' [E [L' S']]].
      { now rewrite length_insert. }
      exists binary'. split; [ exact E | ]. rewrite length_insert in L', S'.
      split; [ exact L' | ]. intros i Hi. rewrite (S' i Hi).
      destruct (existsb _ rest); [ now rewrite orb_true_r | ].
      rewrite orb_false_r. destruct (b =? Z.of_nat i)%Z eqn:Eb.
      * apply Z.eqb_eq in Eb. replace (Z.to_nat b) with i by lia.
        now apply list_lookup_insert_eq.
      * apply Z.eqb_neq in Eb. apply list_lookup_insert_ne. lia.
    + apply Z.ltb_ge in Lt. destruct (IH G binary L) as [binary' [E [L' S']]].
      exists binary'. split; [ exact E | ]. split; [ exact L' | ].
      intros i Hi. rewrite (S' i Hi).
      replace (b =? Z.of_nat i)%Z with false; [ reflexivity | ].
      symmetry. apply Z.eqb_neq. lia.
Qed.

Lemma spike_train_to_binary_spec (duration bin_size q : Q)
    (spike_times : list Q) :
  0 <= bin_size -> 0 <= duration -> Forall (Qle 0) spike_times ->
  Float64.quotient duration bin_size = Some (Float64.Finite q) ->
  Forall (fun t => finite_quotient t bin_size) spike_times ->
  exists binary : list Q,
    spike_train_to_binary duration bin_size spike_times = Some binary /\
    binned bin_size (Z.to_nat (Qfloor q)) spike_times binary.
Proof.
  intros Hb Hd F Eq G. unfold spike_train_to_binary.
  destruct (int_quotient_floor duration bin_size q Hd Hb Eq) as (-> & _ & P).
  set (n_bins := Qfloor q) in *.
  assert ((n_bins <? 0)%Z = false) as -> by (apply Z.ltb_ge; lia).
  destruct (mark_bins_spec bin_size n_bins spike_times Hb F G
              (replicate (Z.to_nat n_bins) 0)) as [binary [E [L S']]].
  { apply length_replicate. }
  rewrite length_replicate in L, S'.
  exists binary. split; [ exact E | ]. split; [ exact L | ].
  intros i Hi. rewrite (S' i Hi). destruct (existsb _ spike_times); [ reflexivity | ].
  now apply lookup_replicate_2.
Qed.

(** C8, as amended.  The spike times [0.5, 0.5, 3.2] with [duration=5],
    [bin_size=1] give exactly [1,0,0,1,0]; and for a positive bin size, a
    duration that is not negative and spike times that are not negative,
    all with a finite float quotient by the bin size, every train yields
    [floor(duration/bin_size)] bins in which bin [i] is 1 exactly when
    some spike time [t] has [floor(t/bin_size) = i]: a spike marks no
    other bin, and one whose bin lies at or past the last is dropped
    without an error.  The quotients are those Python computes, the
    exact quotient of the two floats rounded to the nearest float: 0.7 by
    0.1 is a float just below 7, and the spike 0.7 falls into bin 6. *)
Theorem spike_trains_to_binary_bins (spike_timess : list (list Q))
    (duration bin_size : Q) :
  0 < bin_size -> 0 <= duration -> Forall (Forall (Qle 0)) spike_timess ->
  finite_quotient duration bin_size ->
  Forall (Forall (fun t => finite_quotient t bin_size)) spike_timess ->
  spike_trains_to_binary [[0.5; 0.5; 3.2]] 5 1 = Some [[1; 0; 0; 1; 0]] /\
  spike_trains_to_binary [[0.7]] 1 0.1 =
    Some [[0; 0; 0; 0; 0; 0; 1; 0; 0; 0]] /\
  exists (n_bins : nat) (binaries : list (list Q)),
    Float64.floor_quotient duration bin_size = Some (Z.of_nat n_bins) /\
    spike_trains_to_binary spike_timess duration bin_size = Some binaries /\
    Forall2 (binned bin_size n_bins) spike_timess binaries.
Proof.
  intros Hb Hd F [q Eq] G.
  split; [ vm_compute; reflexivity | ]. split; [ vm_compute; reflexivity | ].
  apply Qlt_le_weak in Hb.
  destruct (int_quotient_floor duration bin_size q Hd Hb Eq) as (_ & Ef & P).
  exists (Z.to_nat (Qfloor q)). rewrite Z2Nat.id by exact P.
  revert G. induction F as [ | spike_times rest Ft F IH ]; intros G.
  - exists []. split; [ exact Ef | ]. split; [ reflexivity | constructor ].
  - apply Forall_cons in G. destruct G as [Gt G].
    destruct (spike_train_to_binary_spec duration bin_size q spike_times
                Hb Hd Ft Eq Gt) as [binary [E B]].
    destruct (IH G) as [binaries [_ [Es Bs]]].
    exists (binary :: binaries). cbn [spike_trains_to_binary].
    rewrite E, Es. split; [ exact Ef | ].
    split; [ reflexivity | now constructor ].
Qed.

Lemma spike_trains_to_binary_bins_witness :
  spike_trains_to_binary [[0.5; 0.5; 3.2]] 5 1 = Some [[1; 0; 0; 1; 0]] /\
  spike_trains_to_binary [[0.7]] 1 0.1 =
    Some [[0; 0; 0; 0; 0; 0; 1; 0; 0; 0]] /\
  exists (n_bins : nat) (binaries : list (list Q)),
    Float64.floor_quotient 0.3 0.1 = Some (Z.of_nat n_bins) /\
    spike_trains_to_binary [[0.25; 0.7]; []] 0.3 0.1 = Some binaries /\
    Forall2 (binned 0.1 n_bins) [[0.25; 0.7]; []] binaries.
Proof.
  apply (spike_trains_to_binary_bins [[0.25; 0.7]; []] 0.3 0.1).
  - reflexivity.
  - discriminate.
  - repeat constructor; discriminate.
  - eexists. vm_compute. reflexivity.
  - repeat constructor; eexists; vm_compute; reflexivity.
Defined.

(** The claim as first stated ("for every input ... only to bin
    floor(t/bin_size)") fails for a negative spike time: -0.5 marks bin 0,
    and floor(-0.5) is -1. *)
Lemma negative_spike_time_marks_bin_0 :
  spike_trains_to_binary [[-0.5]] 5 1 = Some [[1; 0; 0; 0; 0]] /\
  Float64.floor_quotient (-0.5) 1 = Some (-1)%Z.
Proof. split; vm_compute; reflexivity. Qed.


(** *** [lif_integrate] *)

Lemma sum_axis0_length (a : array2d) :
  array2d_wf a -> length (sum_axis0 a) = ncols a.
Proof.
  unfold array2d_wf, sum_axis0. generalize (ncols a) as n. intros n F.
  assert (G : forall acc : list Q, length acc = n ->
            length (fold_left (fun acc r => zip_with Qplus acc r) (rows a) acc) = n).
  { induction F as [ | r rest Hr F IH ]; intros acc L; [ exact L | ].
    cbn [fold_left]. apply IH. rewrite length_zip_with. lia. }
  apply G, length_replicate.
Qed.

Section Lif.

Variables tau dt ur u_thresh w_exc w_inh : Q.
Variables exc_spike_counts inh_spike_counts : list Q.
Variable T : nat.

Hypothesis ur_below : ur <= u_thresh.
Hypothesis exc_length : length exc_spike_counts = T.
Hypothesis inh_length : length inh_spike_counts = T.

Lemma lif_step_inv (k : nat) (state : list Q * list Q) :
  (S k < T)%nat -> lif_inv ur u_thresh T k state ->
  exists state',
    lif_step tau dt ur u_thresh w_exc w_inh exc_spike_counts inh_spike_counts
      state k = Some state' /\
    lif_inv ur u_thresh T (S k) state'.
Proof using ur_below exc_length inh_length.
  destruct state as [us out]. intros Hk (Lu & Lo & U0 & Le & Fl). cbn [fst snd] in *.
  destruct (lookup_lt_is_Some_2 us k ltac:(lia)) as [u Eu].
  destruct (lookup_lt_is_Some_2 exc_spike_counts k ltac:(lia)) as [e Ee].
  destruct (lookup_lt_is_Some_2 inh_spike_counts k ltac:(lia)) as [i Ei].
  unfold lif_step. rewrite Eu, Ei, Ee.
  set (u' := u - dt * (u - ur) / tau + (w_inh * i + w_exc * e)).
  destruct (Qgt_bool u' u_thresh) eqn:G; eexists; (split; [ reflexivity | ]);
    unfold lif_inv; cbn [fst snd]; rewrite ?length_insert.
  - split; [ exact Lu | ]. split; [ exact Lo | ]. split.
    { rewrite !list_lookup_insert_ne by lia. exact U0. }
    split.
    + intros j v Hj Ej. destruct (Nat.eq_dec j (S k)) as [-> | N].
      * rewrite list_lookup_insert_eq in Ej by (rewrite length_insert; lia).
        injection Ej as <-. exact ur_below.
      * rewrite !list_lookup_insert_ne in Ej by lia. apply (Le j v); [ lia | exact Ej ].
    + intros j Ej. destruct (Nat.eq_dec j (S k)) as [-> | N].
      * split; [ lia | ]. apply list_lookup_insert_eq. rewrite length_insert. lia.
      * rewrite list_lookup_insert_ne in Ej by lia. destruct (Fl j Ej) as [Hj Uj].
        split; [ lia | ]. rewrite !list_lookup_insert_ne by lia. exact Uj.
  - split; [ exact Lu | ]. split; [ exact Lo | ]. split.
    { rewrite list_lookup_insert_ne by lia. exact U0. }
    split.
    + intros j v Hj Ej. destruct (Nat.eq_dec j (S k)) as [-> | N].
      * rewrite list_lookup_insert_eq in Ej by lia. injection Ej as <-.
        unfold Qgt_bool in G. apply negb_false_iff in G. now apply Qle_bool_iff.
      * rewrite list_lookup_insert_ne in Ej by lia. apply (Le j v); [ lia | exact Ej ].
    + intros j Ej. destruct (Fl j Ej) as [Hj Uj]. split; [ lia | ].
      rewrite list_lookup_insert_ne by lia. exact Uj.
Qed.

Lemma lif_loop_inv (n k : nat) (state : list Q * list Q) :
  (k + n < T)%nat -> lif_inv ur u_thresh T k state ->
  exists state',
    lif_loop
      (lif_step tau dt ur u_thresh w_exc w_inh exc_spike_counts inh_spike_counts)
      (seq k n) state = Some state' /\
    lif_inv ur u_thresh T (k + n) state'.
Proof using ur_below exc_length inh_length.
  revert k state. induction n as [ | n IH ]; intros k state Hk I.
  - exists state. rewrite Nat.add_0_r. split; [ reflexivity | exact I ].
  - destruct (lif_step_inv k state ltac:(lia) I) as [s1 [E1 I1]].
    destruct (IH (S k) s1 ltac:(lia) I1) as [s2 [E2 I2]].
    exists s2. cbn [seq lif_loop]. rewrite E1.
    replace (k + S n)%nat with (S k + n)%nat by lia. split; [ exact E2 | exact I2 ].
Qed.

End Lif.

(** The invariants for any parameters with [ur <= u_thresh]. *)
Lemma lif_integrate_invariants (spike_trains_exc spike_trains_inh : array2d)
    (tau dt ur u_thresh w_exc w_inh : Q) (T : nat) :
  ur <= u_thresh -> (1 <= T)%nat ->
  ncols spike_trains_exc = T -> ncols spike_trains_inh = T ->
  array2d_wf spike_trains_exc -> array2d_wf spike_trains_inh ->
  exists us out_spike_train : list Q,
    lif_integrate spike_trains_exc spike_trains_inh
      tau dt ur u_thresh w_exc w_inh = Some (us, out_spike_train) /\
    length us = T /\ length out_spike_train = T /\
    us !! 0%nat = Some ur /\
    (forall i, out_spike_train !! i = Some 1 -> us !! i = Some ur) /\
    (forall i u, us !! i = Some u -> u <= u_thresh).
Proof.
  intros Hur HT Ce Ci We Wi. unfold lif_integrate.
  pose proof (sum_axis0_length _ We) as Le. rewrite Ce in Le.
  pose proof (sum_axis0_length _ Wi) as Li. rewrite Ci in Li.
  rewrite Le. destruct T as [ | T' ]; [ lia | ].
  cbn [replicate]. cbn [length insert list_insert].
  rewrite length_replicate.
  replace (S T' - 1)%nat with T' by lia.
  destruct (lif_loop_inv tau dt ur u_thresh w_exc w_inh
              (sum_axis0 spike_trains_exc) (sum_axis0 spike_trains_inh) (S T')
              Hur Le Li T' 0 (ur :: replicate T' 0, 0 :: replicate T' 0))
    as [[us out] [E (Lu & Lo & U0 & Hle & Fl)]]; [ lia | | ].
  { unfold lif_inv. cbn [fst snd length]. rewrite length_replicate.
    split; [ reflexivity | ]. split; [ reflexivity | ]. split; [ reflexivity | ].
    split.
    - intros i u Hi Eu. assert (i = 0%nat) by lia. subst i. injection Eu as <-.
      exact Hur.
    - intros i Ei. destruct i as [ | i ]; [ discriminate | ].
      cbn in Ei. apply lookup_replicate in Ei. destruct Ei as [Ei _]. discriminate. }
  cbn [fst snd] in *. exists us, out. split; [ exact E | ].
  split; [ exact Lu | ]. split; [ exact Lo | ]. split; [ exact U0 | ]. split.
  - intros i Ei. now destruct (Fl i Ei).
  - intros i u Eu. apply (Hle i u); [ | exact Eu ].
    apply lookup_lt_Some in Eu. lia.
Qed.

(** C5.  With the default parameters and two spike matrices of the same
    time length [T >= 1], [lif_integrate] returns traces of length [T]
    with [us[0] = ur = -77]; wherever the spike flag is 1 the potential is
    exactly -77; and no stored potential exceeds the threshold -55. *)
Theorem lif_integrate_default_invariants
    (spike_trains_exc spike_trains_inh : array2d) (T : nat) :
  (1 <= T)%nat ->
  ncols spike_trains_exc = T -> ncols spike_trains_inh = T ->
  array2d_wf spike_trains_exc -> array2d_wf spike_trains_inh ->
  exists us out_spike_train : list Q,
    lif_integrate_default spike_trains_exc spike_trains_inh =
      Some (us, out_spike_train) /\
    length us = T /\ length out_spike_train = T /\
    us !! 0%nat = Some (-77) /\
    (forall i, out_spike_train !! i = Some 1 -> us !! i = Some (-77)) /\
    (forall i u, us !! i = Some u -> u <= -55).
Proof.
  intros HT Ce Ci We Wi. unfold lif_integrate_default.
  apply (lif_integrate_invariants spike_trains_exc spike_trains_inh
           20 1 (-77) (-55) 2 (-2) T); try assumption.
  discriminate.
Qed.

(** The third potential is the unreduced fraction the arithmetic leaves,
    equal to -77. *)
Example lif_burst :
  lif_integrate_default burst_exc silent_inh =
    Some ([-77; -77; -1540 # 20], [0; 1; 0]).
Proof. reflexivity. Qed.

Lemma lif_integrate_default_invariants_witness :
  exists us out_spike_train : list Q,
    lif_integrate_default burst_exc silent_inh = Some (us, out_spike_train) /\
    length us = 3%nat /\ length out_spike_train = 3%nat /\
    us !! 0%nat = Some (-77) /\
    (forall i, out_spike_train !! i = Some 1 -> us !! i = Some (-77)) /\
    (forall i u, us !! i = Some u -> u <= -55).
Proof.
  apply (lif_integrate_default_invariants burst_exc silent_inh 3).
  - lia.
  - reflexivity.
  - reflexivity.
  - repeat constructor.
  - repeat constructor.
Defined.

End MethodsFacts.

(** ** Jafri_model.py *)

Module JafriFacts.
Import Jafri.
Local Open Scope R_scope.

(** The twelve occupancy derivatives add up to [gamma * (C_Ca0 - C0)] with
    [gamma = 0.1875 * Ca_SS]: every transition cancels against its reverse
    except C0 -> C_Ca0, which leaves C0 at rate [gamma * C0] and enters
    C_Ca0 at rate [gamma * C_Ca0]. *)
Lemma total_occupancy_rate_value (self : Jafri_model_parts)
    (V y C0 C1 C2 C3 C4 C_Ca0 C_Ca1 C_Ca2 C_Ca3 C_Ca4 O O_Ca Ca_SS : R) :
  total_occupancy_rate
    (currents_concentrations_ltype self V y C0 C1 C2 C3 C4
       C_Ca0 C_Ca1 C_Ca2 C_Ca3 C_Ca4 O O_Ca Ca_SS)
  = 0.1875 * Ca_SS * (C_Ca0 - C0).
Proof.
  unfold total_occupancy_rate, currents_concentrations_ltype.
  cbn [dC0_dt dC1_dt dC2_dt dC3_dt dC4_dt dC_Ca0_dt dC_Ca1_dt dC_Ca2_dt
       dC_Ca3_dt dC_Ca4_dt dO_dt dO_Ca_dt].
  set (alpha := 0.40 * exp _). set (beta := 0.05 * exp _).
  unfold Rdiv. ring.
Qed.

(** C2 at a state with all the channels in C0 and [Ca_SS = 1]: the total
    occupancy changes at rate -0.1875, not 0. *)
Theorem total_occupancy_not_conserved :
  total_occupancy_rate
    (currents_concentrations_ltype class_attributes (-80) 0.5
       1 0 0 0 0 0 0 0 0 0 0 0 1)
  = -0.1875.
Proof. rewrite total_occupancy_rate_value. lra. Qed.

End JafriFacts.

(** ** L10_widget.py (L09) *)

Module CICRFacts.
Import CICR.
Local Open Scope R_scope.

(** Where no [**] and no division raises, [rhs] returns the pair of the
    derivatives. *)
Lemma rhs_returns (py_pow : R -> R -> R) (t Cai CaSR
    Cao k_entry k_extrusion k_uptake kappa0 kappa1 Kd n gamma : R) :
  ~ raises py_pow Cai Kd n gamma ->
  rhs py_pow t (Cai, CaSR)
    Cao k_entry k_extrusion k_uptake kappa0 kappa1 Kd n gamma =
  Some (k_entry * (Cao - Cai)
        + (kappa0 + kappa1 * py_pow Cai n / (py_pow Cai n + py_pow Kd n))
          * (CaSR - Cai)
        - k_extrusion * Cai - k_uptake * Cai,
        (k_uptake * Cai
         - (kappa0 + kappa1 * py_pow Cai n / (py_pow Cai n + py_pow Kd n))
           * (CaSR - Cai)) / gamma).
Proof.
  unfold raises. intros N. unfold rhs.
  rewrite (PyFacts.pow_Some py_pow Cai n) by tauto.
  rewrite (PyFacts.pow_Some py_pow Kd n) by tauto. cbn [mbind option_bind].
  rewrite PyFacts.truediv_Some by tauto. cbn [mbind option_bind].
  rewrite PyFacts.truediv_Some by tauto. reflexivity.
Qed.

(** Where one does, [rhs] returns nothing. *)
Lemma rhs_raises (py_pow : R -> R -> R) (t Cai CaSR
    Cao k_entry k_extrusion k_uptake kappa0 kappa1 Kd n gamma : R) :
  raises py_pow Cai Kd n gamma ->
  rhs py_pow t (Cai, CaSR)
    Cao k_entry k_extrusion k_uptake kappa0 kappa1 Kd n gamma = None.
Proof.
  intros H. unfold rhs, Py.pow, Py.truediv.
  destruct (Py.pow_raises Cai n) eqn:P1; [ reflexivity | ].
  destruct (Py.pow_raises Kd n) eqn:P2; [ reflexivity | ].
  cbn [mbind option_bind].
  destruct (Req_dec_T (py_pow Cai n + py_pow Kd n) 0) as [ Z | Z ];
    [ reflexivity | ].
  cbn [mbind option_bind].
  destruct (Req_dec_T gamma 0) as [ G | G ]; [ reflexivity | ].
  exfalso. apply PyFacts.pow_raises_false in P1, P2.
  unfold raises in H. tauto.
Qed.


Lemma Rpower_pos (x y : R) : 0 < Rpower x y.
Proof. apply exp_pos. Qed.



(** [rhs] is autonomous: the time argument is not read. *)
Lemma rhs_autonomous (py_pow : R -> R -> R) (t t' : R) (y : R * R)
    (Cao k_entry k_extrusion k_uptake kappa0 kappa1 Kd n gamma : R) :
  rhs py_pow t y Cao k_entry k_extrusion k_uptake kappa0 kappa1 Kd n gamma =
  rhs py_pow t' y Cao k_entry k_extrusion k_uptake kappa0 kappa1 Kd n gamma.
Proof. reflexivity. Qed.

End CICRFacts.

(** ** 02B_APD_restitution/run.py *)

Module RestitutionFacts.
Import Restitution.
Local Open Scope Q_scope.

Lemma Qgt_bool_true (x y : Q) : Methods.Qgt_bool x y = true <-> y < x.
Proof.
  unfold Methods.Qgt_bool. rewrite negb_true_iff. split.
  - intros H. apply Qnot_le_lt. intros L. apply Qle_bool_iff in L. congruence.
  - intros H. destruct (Qle_bool x y) eqn:E; [ | reflexivity ].
    apply Qle_bool_iff in E. now apply Qlt_not_le in H.
Qed.

Lemma gt_above (r c : Q) : c < r -> Float64.gt (Float64.Finite r) (Float64.Finite c) = true.
Proof.
  intros H. cbn [Float64.gt]. apply negb_true_iff.
  destruct (Qle_bool r c) eqn:E; [ | reflexivity ].
  apply Qle_bool_iff in E. lra.
Qed.

Lemma gt_below (r c : Q) : r <= c -> Float64.gt (Float64.Finite r) (Float64.Finite c) = false.
Proof.
  intros H. cbn [Float64.gt]. apply negb_false_iff. now apply Qle_bool_iff.
Qed.

(** A float that is not above another passes the test, whatever the
    (negative) threshold. *)
Lemma not_above_passes (x y : Float64.pyfloat) (c : Q) :
  c < 0 -> not_above y x ->
  Float64.gt (Float64.sub x y) (Float64.Finite c) = true.
Proof.
  intros Hc (b & a & -> & -> & H).
  unfold Float64.sub. cbn [Float64.opp Float64.add].
  destruct (Float64Facts.round_nonneg (a + - b)) as [-> | [r [-> Hr]]];
    [ lra | reflexivity | apply gt_above; lra ].
Qed.

(** A float at least [c] above another fails the test with the
    threshold [- c]. *)
Lemma above_by_fails (x y : Float64.pyfloat) (c : Z) :
  (0 < c <= 2 ^ 53)%Z -> above_by (inject_Z c) x y ->
  Float64.gt (Float64.sub x y) (Float64.Finite (- inject_Z c)) = false.
Proof.
  intros Hc (a & b & -> & -> & H).
  unfold Float64.sub. cbn [Float64.opp Float64.add].
  destruct (Float64Facts.round_le_opp (a + - b) c Hc) as [-> | [r [-> Hr]]];
    [ lra | reflexivity | now apply gt_below ].
Qed.

(** Comment lines leave the state of the loop as it is. *)
Lemma visualize_loop_data_rows (lines : list line) :
  forall di apd cnt diffdi diffapd,
    visualize_loop lines di apd cnt diffdi diffapd =
    visualize_loop (data_rows lines) di apd cnt diffdi diffapd.
Proof.
  induction lines as [ | l rest IH ]; intros di apd cnt diffdi diffapd;
    [ reflexivity | ].
  unfold data_rows. cbn [List.filter visualize_loop].
  destruct (is_comment l) eqn:C; cbn [negb].
  - apply IH.
  - cbn [visualize_loop]. rewrite C.
    destruct (if (0 <? cnt)%nat then _ else _) as [[dd da] | ]; [ | reflexivity ].
    destruct (_ && _); [ | reflexivity ].
    destruct (p l !! 3%nat); [ | reflexivity ].
    destruct (p l !! 5%nat); [ | reflexivity ]. apply IH.
Qed.

Lemma fields_of (l : line) :
  (6 <= length (p l))%nat ->
  exists p3 p5,
    p l !! 3%nat = Some p3 /\ p l !! 5%nat = Some p5 /\
    apd_of l = Float64.fl p3 /\ di_of l = Float64.fl p5.
Proof.
  intros L. unfold apd_of, di_of.
  destruct (lookup_lt_is_Some_2 (p l) 3 ltac:(lia)) as [x3 E3].
  destruct (lookup_lt_is_Some_2 (p l) 5 ltac:(lia)) as [x5 E5].
  exists x3, x5. rewrite E3, E5. auto.
Qed.

(** After a kept row [prev] the loop keeps the rows of the chain that
    starts at [prev], and stops. *)
Lemma visualize_loop_chain (rest : list line) :
  Forall (fun l => is_comment l = false /\ (6 <= length (p l))%nat) rest ->
  forall (kept : list line) (prev : line) (diffdi diffapd : Float64.pyfloat),
    visualize_loop rest (map di_of (kept ++ [prev])) (map apd_of (kept ++ [prev]))
      (S (length kept)) diffdi diffapd =
    Some (map di_of (kept ++ [prev] ++ take (chain prev rest) rest),
          map apd_of (kept ++ [prev] ++ take (chain prev rest) rest)).
Proof.
  intros F. induction F as [ | r rest [C L] F IH ];
    intros kept prev diffdi diffapd.
  - cbn [visualize_loop chain take]. now rewrite app_nil_r.
  - cbn [visualize_loop chain]. rewrite C. cbn [Nat.ltb Nat.leb].
    replace (S (length kept) - 1)%nat with (length kept) by lia.
    destruct (fields_of r L) as (p3 & p5 & E3 & E5 & A3 & A5).
    rewrite E3, E5, <- A3, <- A5.
    rewrite !map_app. cbn [map].
    rewrite !lookup_app_r by (rewrite length_map; lia).
    rewrite !length_map, Nat.sub_diag. cbn [lookup list_lookup].
    fold (keeps prev r). destruct (keeps prev r) eqn:K.
    + specialize (IH (kept ++ [prev]) r
                    (Float64.sub (di_of prev) (di_of r))
                    (Float64.sub (apd_of prev) (apd_of r))).
      rewrite length_app in IH. cbn [length] in IH.
      replace (length kept + 1)%nat with (S (length kept)) in IH by lia.
      rewrite !map_app in IH. cbn [map] in IH. cbn [take].
      rewrite IH. rewrite <- !app_assoc. reflexivity.
    + cbn [take]. now rewrite !app_nil_r.
Qed.

Lemma chain_le (rest : list line) :
  forall prev, (chain prev rest <= length rest)%nat.
Proof.
  induction rest as [ | r rest IH ]; intros prev; cbn [chain length];
    [ lia | ].
  destruct (keeps prev r); [ specialize (IH r) | ]; lia.
Qed.

Lemma chain_keeps (rest : list line) :
  forall (prev : line) (j : nat) (x y : line),
    (S j < S (chain prev rest))%nat ->
    (prev :: rest) !! j = Some x -> (prev :: rest) !! S j = Some y ->
    keeps x y = true.
Proof.
  induction rest as [ | r rest IH ]; intros prev j x y Hj Ex Ey;
    cbn [chain] in Hj; [ lia | ].
  destruct (keeps prev r) eqn:K; [ | lia ].
  destruct j as [ | j ].
  - cbn in Ex, Ey. congruence.
  - apply (IH r j x y); [ lia | exact Ex | exact Ey ].
Qed.

Lemma chain_stops (rest : list line) :
  forall (prev x y : line),
    (prev :: rest) !! chain prev rest = Some x ->
    (prev :: rest) !! S (chain prev rest) = Some y ->
    keeps x y = false.
Proof.
  induction rest as [ | r rest IH ]; intros prev x y Ex Ey;
    cbn [chain] in *; [ discriminate | ].
  destruct (keeps prev r) eqn:K.
  - apply (IH r x y); [ exact Ex | exact Ey ].
  - cbn in Ex, Ey. congruence.
Qed.

(** C3, as amended.  On a table with a data row, every data row with at
    least six fields, [visualize] retains exactly the longest prefix of
    the data rows (comment lines skipped, column 3 as APD, column 5 as
    DI) in which every row after the first passes the test
    [previous DI - DI > -5] and [previous APD - APD > -10], the
    differences being those of the floats, rounded: the first row is
    always kept, and the first row that fails the test is dropped with
    all that follow.  In particular, if the floats of DI and APD do not
    increase over the first [m] rows and row [m+1] lies at least 5 above
    row [m] in DI or at least 10 above it in APD, exactly the first [m]
    rows are retained. *)
Theorem visualize_retains_longest_prefix (lines : list line) :
  data_rows lines <> [] ->
  Forall (fun l => (6 <= length (p l))%nat) (data_rows lines) ->
  exists k : nat,
    (1 <= k <= length (data_rows lines))%nat /\
    visualize lines =
      Some (map di_of (take k (data_rows lines)),
            map apd_of (take k (data_rows lines))) /\
    (forall j prev cur, (S j < k)%nat ->
       data_rows lines !! j = Some prev -> data_rows lines !! S j = Some cur ->
       Float64.gt (Float64.sub (di_of prev) (di_of cur)) (Float64.fl (-5))
         = true /\
       Float64.gt (Float64.sub (apd_of prev) (apd_of cur)) (Float64.fl (-10))
         = true) /\
    (forall prev cur,
       data_rows lines !! (k - 1)%nat = Some prev ->
       data_rows lines !! k = Some cur ->
       ~ (Float64.gt (Float64.sub (di_of prev) (di_of cur)) (Float64.fl (-5))
            = true /\
          Float64.gt (Float64.sub (apd_of prev) (apd_of cur))
            (Float64.fl (-10)) = true)) /\
    (forall m : nat, (1 <= m)%nat ->
       (forall j prev cur, (S j < m)%nat ->
          data_rows lines !! j = Some prev ->
          data_rows lines !! S j = Some cur ->
          not_above (di_of cur) (di_of prev) /\
          not_above (apd_of cur) (apd_of prev)) ->
       (exists prev cur,
          data_rows lines !! (m - 1)%nat = Some prev /\
          data_rows lines !! m = Some cur /\
          (above_by 5 (di_of prev) (di_of cur) \/
           above_by 10 (apd_of prev) (apd_of cur))) ->
       k = m).
Proof.
  intros Ne F. unfold visualize. rewrite visualize_loop_data_rows.
  assert (D : Forall (fun l => is_comment l = false /\ (6 <= length (p l))%nat)
                (data_rows lines)).
  { apply List.Forall_forall. intros l Hl. split.
    - apply filter_In in Hl. destruct Hl as [_ Hl]. now apply negb_true_iff.
    - rewrite List.Forall_forall in F. now apply F. }
  destruct (data_rows lines) as [ | r0 rest ]; [ congruence | ]. clear Ne F.
  inversion D as [ | ? ? [C0 L0] D' ]; subst.
  exists (S (chain r0 rest)).
  pose proof (chain_le rest r0) as Hle.
  assert (K : forall j prev cur, (S j < S (chain r0 rest))%nat ->
            (r0 :: rest) !! j = Some prev -> (r0 :: rest) !! S j = Some cur ->
            Float64.gt (Float64.sub (di_of prev) (di_of cur)) (Float64.fl (-5))
              = true /\
            Float64.gt (Float64.sub (apd_of prev) (apd_of cur))
              (Float64.fl (-10)) = true).
  { intros j prev cur Hj Ex Ey. apply andb_true_iff.
    exact (chain_keeps rest r0 j prev cur Hj Ex Ey). }
  assert (S' : forall prev cur,
            (r0 :: rest) !! (S (chain r0 rest) - 1)%nat = Some prev ->
            (r0 :: rest) !! S (chain r0 rest) = Some cur ->
            ~ (Float64.gt (Float64.sub (di_of prev) (di_of cur))
                 (Float64.fl (-5)) = true /\
               Float64.gt (Float64.sub (apd_of prev) (apd_of cur))
                 (Float64.fl (-10)) = true)).
  { intros prev cur Ex Ey H. apply andb_true_iff in H.
    replace (S (chain r0 rest) - 1)%nat with (chain r0 rest) in Ex by lia.
    fold (keeps prev cur) in H.
    rewrite (chain_stops rest r0 prev cur Ex Ey) in H. discriminate. }
  split; [ cbn [length]; lia | ]. split.
  { cbn [visualize_loop]. rewrite C0. cbn [Nat.ltb Nat.leb].
    destruct (fields_of r0 L0) as (p3 & p5 & E3 & E5 & A3 & A5).
    rewrite E3, E5, <- A3, <- A5.
    change (Float64.gt (Float64.fl 0) (Float64.fl (-5))
            && Float64.gt (Float64.fl 0) (Float64.fl (-10))) with true.
    cbn iota. cbn [app].
    pose proof (visualize_loop_chain rest D' [] r0 (Float64.fl 0)
                  (Float64.fl 0)) as E.
    cbn [app map length] in E. rewrite E. reflexivity. }
  split; [ exact K | ]. split; [ exact S' | ].
  intros m Hm Mono (prev & cur & Ex & Ey & Jump).
  destruct (Nat.lt_trichotomy (S (chain r0 rest)) m) as [Lt | [Eq | Gt]];
    [ exfalso | exact Eq | exfalso ].
  - destruct (lookup_lt_is_Some_2 (r0 :: rest) (S (chain r0 rest) - 1))
      as [x Hx].
    { apply lookup_lt_Some in Ey. lia. }
    destruct (lookup_lt_is_Some_2 (r0 :: rest) (S (chain r0 rest)))
      as [y Hy].
    { apply lookup_lt_Some in Ey. lia. }
    apply (S' x y Hx Hy).
    replace (S (chain r0 rest) - 1)%nat with (chain r0 rest) in Hx by lia.
    destruct (Mono (chain r0 rest) x y Lt Hx Hy) as [M1 M2]. split.
    + apply (not_above_passes (di_of x) (di_of y) (-5)); [ reflexivity | exact M1 ].
    + apply (not_above_passes (apd_of x) (apd_of y) (-10)); [ reflexivity | exact M2 ].
  - destruct m as [ | m ]; [ lia | ].
    replace (S m - 1)%nat with m in Ex by lia.
    destruct (K m prev cur Gt Ex Ey) as [K1 K2]. destruct Jump as [J | J].
    + pose proof (above_by_fails (di_of prev) (di_of cur) 5 ltac:(lia) J) as B.
      change (Float64.Finite (- inject_Z 5)) with (Float64.fl (-5)) in B.
      congruence.
    + pose proof (above_by_fails (apd_of prev) (apd_of cur) 10 ltac:(lia) J) as B.
      change (Float64.Finite (- inject_Z 10)) with (Float64.fl (-10)) in B.
      congruence.
Qed.

Lemma visualize_retains_longest_prefix_witness :
  exists k : nat,
    (1 <= k <= length (data_rows table_with_jump))%nat /\
    visualize table_with_jump =
      Some (map di_of (take k (data_rows table_with_jump)),
            map apd_of (take k (data_rows table_with_jump))) /\
    (forall j prev cur, (S j < k)%nat ->
       data_rows table_with_jump !! j = Some prev ->
       data_rows table_with_jump !! S j = Some cur ->
       Float64.gt (Float64.sub (di_of prev) (di_of cur)) (Float64.fl (-5))
         = true /\
       Float64.gt (Float64.sub (apd_of prev) (apd_of cur)) (Float64.fl (-10))
         = true) /\
    (forall prev cur,
       data_rows table_with_jump !! (k - 1)%nat = Some prev ->
       data_rows table_with_jump !! k = Some cur ->
       ~ (Float64.gt (Float64.sub (di_of prev) (di_of cur)) (Float64.fl (-5))
            = true /\
          Float64.gt (Float64.sub (apd_of prev) (apd_of cur))
            (Float64.fl (-10)) = true)) /\
    (forall m : nat, (1 <= m)%nat ->
       (forall j prev cur, (S j < m)%nat ->
          data_rows table_with_jump !! j = Some prev ->
          data_rows table_with_jump !! S j = Some cur ->
          not_above (di_of cur) (di_of prev) /\
          not_above (apd_of cur) (apd_of prev)) ->
       (exists prev cur,
          data_rows table_with_jump !! (m - 1)%nat = Some prev /\
          data_rows table_with_jump !! m = Some cur /\
          (above_by 5 (di_of prev) (di_of cur) \/
           above_by 10 (apd_of prev) (apd_of cur))) ->
       k = m).
Proof.
  apply (visualize_retains_longest_prefix table_with_jump).
  - discriminate.
  - repeat constructor.
Defined.

Example visualize_table_with_jump :
  visualize table_with_jump =
    Some ([Float64.Finite 100; Float64.Finite 90],
          [Float64.Finite 300; Float64.Finite 280]).
Proof. vm_compute. reflexivity. Qed.

(** The claim as first stated fails in two ways.  Its "in particular"
    fails when the rise is small: DI and APD fall over the first two
    rows and rise in the third (90 to 92, 280 to 281), and all three rows
    are retained.  And the test is on the rounded difference of the
    floats, not on the difference of the numbers in the file: the rows
    with DI 254.9 and 259.9 are both retained, the difference of the two
    floats being just above -5. *)
Lemma visualize_retains_small_rise :
  visualize [row 300 100; row 280 90; row 281 92] =
    Some ([Float64.Finite 100; Float64.Finite 90; Float64.Finite 92],
          [Float64.Finite 300; Float64.Finite 280; Float64.Finite 281]) /\
  (exists di, visualize table_rounded = Some (di, [Float64.Finite 300; Float64.Finite 300])
              /\ length di = 2%nat) /\
  ~ (-5 < 254.9 - 259.9).
Proof.
  split; [ vm_compute; reflexivity | ]. split.
  - eexists. split; [ vm_compute; reflexivity | reflexivity ].
  - intros H. vm_compute in H. discriminate.
Qed.

(** *** [jobID] *)

Local Open Scope string_scope.

Lemma append_empty_r (s : string) : s ++ "" = s.
Proof.
  induction s as [ | c s IH ]; [ reflexivity | ].
  change (String c (s ++ "") = String c s). now rewrite IH.
Qed.

(** With a parameter string given, the identifier ends with the name of
    the ionic model; the parameter string is not part of it. *)
Lemma jobID_with_params (today : string) (a : args) (s : string) :
  params a = Some s -> s <> "" ->
  jobID today a =
    Some ((today ++ "_CI0-" ++ Py.str_int (CI0 a) ++ "_CI1-"
           ++ Py.str_optional_int (CI1 a) ++ "_" ++ Protocol a)
          ++ "_" ++ imp a).
Proof.
  intros E N. unfold jobID. rewrite E. cbn [truthy].
  assert (String.eqb s "" = false) as -> by (now apply String.eqb_neq).
  cbn [negb Py.format]. rewrite !append_empty_r. reflexivity.
Qed.

(** C7 at [--params G_Kr=0.134]: the identifier holds the date, CI0, CI1,
    the protocol and the model name, and not the parameter string. *)
Theorem jobID_leaves_out_params :
  jobID "2024-06-20"
    (mkArgs 50 (Some 600%Z) "S1S2" "tenTusscherPanfilov" (Some "G_Kr=0.134"))
  = Some "2024-06-20_CI0-50_CI1-600_S1S2_tenTusscherPanfilov" /\
  Py.contains "G_Kr=0.134"
    "2024-06-20_CI0-50_CI1-600_S1S2_tenTusscherPanfilov" = false.
Proof. split; reflexivity. Qed.

End RestitutionFacts.

(** ** 01_basic_bench/run.py *)

Module BasicBenchFacts.
Import BasicBench.
Local Open Scope string_scope.
Local Open Scope list_scope.

Section Facts.

Variable float : string -> option Float64.pyfloat.
Variable isfile : string -> bool.

(** Where the stimuli can be counted the argument list is built without
    an exception. *)
Lemma command_builds (a : args) (j : job) (n : Z) :
  numstim float a = inr n ->
  exists cmd, command float a j = inr cmd.
Proof.
  intros En. unfold command. rewrite En.
  cbn [fmt Py.format bind].
  destruct (negb (String.eqb (ID a) "")); cbn [fmt Py.format bind]; eauto.
Qed.

(** C9, as amended.  With a non-empty [--init] and options [--duration]
    and [--bcl] from which the number of stimuli can be computed (that
    statement comes first and raises otherwise): if the path names no
    file, [run] prints the line that names it and exits with status -1
    without a call of [job.bench]; if it names a file, [run] does not
    exit there and calls [job.bench] with ['--read-ini-file', path]
    appended to the argument list built so far. *)
Theorem run_checks_init_file (a : args) (j : job) (n : Z) :
  numstim float a = inr n ->
  init a <> "" ->
  exists cmd,
    command float a j = inr cmd /\
    (isfile (init a) = false ->
       run float isfile a j =
         mkTrace
           [(("State variable initialization file " ++ init a)
             ++ " not found!")%string]
           [] (Exit (-1))) /\
    (isfile (init a) = true ->
       exists tail msg,
         run float isfile a j =
           mkTrace []
             [((cmd ++ [Str "--read-ini-file"; Str (init a)]) ++ tail, msg)]
             Benched).
Proof.
  intros En Ni.
  destruct (command_builds a j n En) as [cmd Ec].
  exists cmd. split; [ exact Ec | ].
  assert (String.eqb (init a) "" = false) as N by (now apply String.eqb_neq).
  unfold run. rewrite Ec, N. cbn [negb andb]. split.
  - intros ->. cbn [negb fmt Py.format]. reflexivity.
  - intros ->. cbn [negb]. unfold output_options.
    cbn [fmt Py.format bind]. eauto.
Qed.

End Facts.

Lemma run_checks_init_file_witness :
  exists cmd,
    command float_of_example args_missing_init (mkJob "exp") = inr cmd /\
    (false = false ->
       run float_of_example (fun _ => false) args_missing_init
         (mkJob "exp") =
         mkTrace
           [(("State variable initialization file " ++ "missing.sv")
             ++ " not found!")%string]
           [] (Exit (-1))) /\
    (false = true ->
       exists tail msg,
         run float_of_example (fun _ => false) args_missing_init
           (mkJob "exp") =
           mkTrace []
             [((cmd ++ [Str "--read-ini-file"; Str "missing.sv"]) ++ tail, msg)]
             Benched).
Proof.
  apply (run_checks_init_file float_of_example (fun _ => false)
           args_missing_init (mkJob "exp") 2).
  - vm_compute. reflexivity.
  - discriminate.
Defined.

(** The claim as first stated fails: with [--init missing.sv --bcl 0]
    the path is not empty and names no file, yet [run] prints nothing and
    does not exit with -1; counting the stimuli, which comes before the
    check, raises [ZeroDivisionError]. *)
Lemma run_missing_init_zero_bcl :
  init args_zero_bcl <> "" /\
  run float_of_example (fun _ => false) args_zero_bcl (mkJob "exp") =
    mkTrace [] [] (Raise "ZeroDivisionError").
Proof. split; [ discriminate | vm_compute; reflexivity ]. Qed.

Example run_missing_init :
  run float_of_example (fun _ => false) args_missing_init (mkJob "exp") =
    mkTrace ["State variable initialization file missing.sv not found!"]
      [] (Exit (-1)).
Proof. vm_compute. reflexivity. Qed.

Example run_existing_init :
  run float_of_example (fun _ => true) args_missing_init (mkJob "exp") =
    mkTrace []
      [([Str "--duration"; Str "500"; Str "--stim-assign"; Str "on";
         Str "--stim-species"; Str "K_i"; Str "--imp=tenTusscherPanfilov";
         Str "--stim-curr"; Float 30; Str "--numstim"; Int 2;
         Str "--bcl"; Str "500"; Str "--dt"; Float 0.01;
         Str "--dt-out"; Float 0.1; Str "--save-ini-file";
         Str "exp_tenTusscherPanfilov_bcl_500_ms_dur_500_ms.sv";
         Str "--save-ini-time"; Str "500";
         Str "--read-ini-file"; Str "missing.sv";
         Str "--fout=exp/tenTusscherPanfilov"; Str "--bin"; Str "-v"],
        "Testing tenTusscherPanfilov")]
      Benched.
Proof. vm_compute. reflexivity. Qed.

(** The count is taken of the float quotient: [--duration 0.3 --bcl 0.1]
    gives 3 stimuli, the quotient being just below 3. *)
Example numstim_rounds :
  numstim float_of_example (mkArgs "OHara" "" "" "0.3" "0.1" "") = inr 3%Z.
Proof. vm_compute. reflexivity. Qed.

End BasicBenchFacts.

(** ** variable.py: the chain rule *)

Module AutodiffExtFacts.
Import Autodiff AutodiffExt AutodiffFacts.
Local Open Scope R_scope.

Lemma is_leaf_criteria (h : heap) (c : nat) (b : bool) :
  criteria h c = Some b -> is_leaf h c = b.
Proof. unfold is_leaf. intros ->. now destruct b. Qed.

Lemma well_formed_edges (h : heap) (v : nat) (o : VariableObj) :
  well_formed h -> h !! v = Some o ->
  Forall (fun e : nat * R =>
            (e.1 < length h)%nat /\ (is_leaf h e.1 = false -> (e.1 < v)%nat))
    (_gradients o).
Proof.
  intros W E. pose proof (lookup_lt_Some _ _ _ E) as Hv.
  destruct (W v o E) as [[s Hs] | F].
  - rewrite Hs. constructor; [ | constructor ]. cbn. split; [ exact Hv | ].
    intros L. rewrite (is_leaf_criteria h v true) in L; [ discriminate | ].
    rewrite (criteria_Some h v o E), Hs. now rewrite Nat.eqb_refl.
  - eapply Forall_impl; [ exact F | ]. cbn. intros e He. split; lia.
Qed.

Lemma getitem_insert (g : gmap nat R) (c k : nat) (x : R) :
  getitem (<[c := x]> g) k = if Nat.eqb c k then x else getitem g k.
Proof.
  unfold getitem. destruct (Nat.eqb c k) eqn:E.
  - apply Nat.eqb_eq in E. subst. now rewrite lookup_insert_eq.
  - apply Nat.eqb_neq in E. now rewrite lookup_insert_ne.
Qed.

(** The loop adds to the map, at every key, the total gradient times the
    path sums of the edges. *)
Lemma for_edges_path_sum (h : heap) (f v : nat) :
  (forall c tg g, (c < v)%nat -> (c < length h)%nat ->
     exists g', _compute_gradients f h c tg g = Some g' /\
                forall k, getitem g' k = getitem g k + tg * path_sum f h c k) ->
  forall (edges : list (nat * R)) tg g,
    Forall (fun e : nat * R =>
              (e.1 < length h)%nat /\ (is_leaf h e.1 = false -> (e.1 < v)%nat))
      edges ->
    exists g', for_edges (_compute_gradients f h) h tg edges g = Some g' /\
      forall k, getitem g' k =
        getitem g k +
        tg * fold_right
               (fun e acc =>
                  e.2 * ((if Nat.eqb e.1 k then 1 else 0) +
                         (if is_leaf h e.1 then 0 else path_sum f h e.1 k))
                  + acc)
               0 edges.
Proof.
  intros IH edges. induction edges as [ | [c cg] rest IHr ]; intros tg g F.
  - exists g. split; [ reflexivity | ]. intros k. cbn. ring.
  - inversion F as [ | e l [Hc Hl] Fr ]; subst. cbn [fst snd] in Hc, Hl.
    cbn [for_edges fold_right fst snd].
    destruct (lookup_lt_is_Some_2 h c Hc) as [oc Eoc].
    pose proof (criteria_Some h c oc Eoc) as Cc. rewrite Cc.
    pose proof (is_leaf_criteria h c _ Cc) as Lc. rewrite Lc.
    set (g1 := <[c := getitem g c + tg * cg]> g).
    assert (G1 : forall k, getitem g1 k =
                   getitem g k + tg * (cg * (if Nat.eqb c k then 1 else 0))).
    { intros k. unfold g1. rewrite getitem_insert.
      destruct (Nat.eqb c k) eqn:E; [ | ring ].
      apply Nat.eqb_eq in E. subst. ring. }
    destruct (match _gradients oc with
              | [(target, _)] => Nat.eqb target c
              | _ => false
              end) eqn:B.
    + destruct (IHr tg g1 Fr) as [g' [E' S']]. exists g'.
      split; [ exact E' | ]. intros k. rewrite S', G1. ring.
    + destruct (IH c (tg * cg) g1 (Hl Lc) Hc) as [g2 [E2 S2]]. rewrite E2.
      destruct (IHr tg g2 Fr) as [g' [E' S']]. exists g'.
      split; [ exact E' | ]. intros k. rewrite S', S2, G1. ring.
Qed.

Lemma compute_gradients_path_sum (h : heap) :
  well_formed h ->
  forall f v tg g, (v < f)%nat -> (v < length h)%nat ->
    exists g', _compute_gradients f h v tg g = Some g' /\
               forall k, getitem g' k = getitem g k + tg * path_sum f h v k.
Proof.
  intros W f. induction f as [ | f IH ]; intros v tg g Hf Hv; [ lia | ].
  destruct (lookup_lt_is_Some_2 h v Hv) as [o Eo].
  cbn [_compute_gradients path_sum]. rewrite Eo.
  apply (for_edges_path_sum h f v).
  - intros c tg' g0 Hc Hl. apply IH; lia.
  - exact (well_formed_edges h v o W Eo).
Qed.

(** More fuel than the index of the object does not change the sum. *)
Lemma path_sum_fuel (h : heap) (k : nat) :
  well_formed h ->
  forall f f' v, (v < f)%nat -> (v < f')%nat ->
    path_sum f h v k = path_sum f' h v k.
Proof.
  intros W f. induction f as [ | f IH ]; intros f' v Hf Hf'; [ lia | ].
  destruct f' as [ | f' ]; [ lia | ]. cbn [path_sum].
  destruct (h !! v) as [o | ] eqn:Eo; [ | reflexivity ].
  pose proof (well_formed_edges h v o W Eo) as F.
  induction F as [ | e rest [He Hl] F IHF ]; [ reflexivity | ].
  cbn [fold_right]. rewrite IHF. f_equal. f_equal. f_equal.
  destruct (is_leaf h e.1) eqn:L; [ reflexivity | ].
  specialize (Hl eq_refl). apply IH; lia.
Qed.

Lemma gradient_of_path_sum (h : heap) (v k : nat) :
  well_formed h -> (v < length h)%nat ->
  compute_gradients v h <> None /\
  gradient_of h v k = path_sum (length h) h v k.
Proof.
  intros W Hv. unfold gradient_of, compute_gradients.
  destruct (compute_gradients_path_sum h W (length h) v 1 ∅ Hv Hv)
    as [g [E S']].
  rewrite E. split; [ discriminate | ]. rewrite S'. unfold getitem at 1.
  rewrite lookup_empty. cbn. ring.
Qed.


Lemma path_sum_edge_sum (h : heap) (v k : nat) (o : VariableObj) :
  well_formed h -> h !! v = Some o ->
  path_sum (length h) h v k = edge_sum h (_gradients o) k.
Proof.
  intros W Eo. pose proof (lookup_lt_Some _ _ _ Eo) as Hv.
  destruct (length h) as [ | f ] eqn:L; [ lia | ].
  cbn [path_sum]. rewrite Eo. unfold edge_sum.
  pose proof (well_formed_edges h v o W Eo) as F. rewrite L in F.
  induction F as [ | e rest [He Hl] F IHF ]; [ reflexivity | ].
  cbn [fold_right]. rewrite IHF. f_equal. f_equal. unfold wrt. f_equal.
  destruct (is_leaf h e.1) eqn:Le; [ reflexivity | ].
  specialize (Hl eq_refl).
  destruct (gradient_of_path_sum h e.1 k W ltac:(lia)) as [_ ->].
  rewrite L. apply path_sum_fuel; [ exact W | lia | lia ].
Qed.

(** The chain rule.  On a heap built by the library [compute_gradients(v)]
    returns, and the gradient it holds at any [k] is the sum over the
    edges [(c, d)] of [v] of [d] times what [c] passes on to [k]: 1 if [c]
    is [k], plus [compute_gradients(c)[k]] unless [c] is a leaf. *)
Theorem chain_rule (h : heap) (v : nat) (o : VariableObj) :
  well_formed h -> h !! v = Some o ->
  exists g,
    compute_gradients v h = Some (g, h) /\
    forall k, getitem g k = edge_sum h (_gradients o) k.
Proof.
  intros W Eo. pose proof (lookup_lt_Some _ _ _ Eo) as Hv.
  destruct (compute_gradients_path_sum h W (length h) v 1 ∅ Hv Hv)
    as [g [E S']].
  exists g. split; [ unfold compute_gradients; now rewrite E | ].
  intros k. rewrite S', (path_sum_edge_sum h v k o W Eo).
  unfold getitem. rewrite lookup_empty. cbn [default]. ring.
Qed.

Lemma cube_heap_well_formed : well_formed cube_heap.
Proof.
  intros i o E. destruct i as [ | [ | [ | i ] ] ]; try discriminate;
    injection E as <-; [ left; eauto | right .. ];
    repeat constructor; cbn; lia.
Qed.

Example cube_heap_built :
  bind (__mul__ 0 (Var 0%nat)) (fun p => __mul__ p (Var 0%nat)) (one_leaf 3)
  = Some (2%nat, cube_heap).
Proof. reflexivity. Qed.

(** [(x * x) * x] at [x = 3]: the product refers to the inner product
    [x * x], into which [compute_gradients] recurses, and to the leaf. *)
Lemma chain_rule_witness :
  exists g,
    compute_gradients 2 cube_heap = Some (g, cube_heap) /\
    forall k, getitem g k =
      edge_sum cube_heap
        (_gradients (mkVariable (3 * 3 * 3) [(1%nat, 3); (0%nat, 3 * 3)] "")) k.
Proof.
  apply (chain_rule cube_heap 2
           (mkVariable (3 * 3 * 3) [(1%nat, 3); (0%nat, 3 * 3)] "")).
  - apply cube_heap_well_formed.
  - reflexivity.
Defined.

(** There the gradient at [x] is [3 * x**2 = 27]. *)
Example cube_gradient : gradient_of cube_heap 2 0 = 27.
Proof.
  unfold gradient_of.
  with_strategy transparent [gmap_empty]
    cbv - [Rplus Rmult Rinv Rdiv Rminus Ropp IZR sign].
  lra.
Qed.

Lemma gradient_of_edge_sum (h : heap) (v k : nat) (o : VariableObj) :
  well_formed h -> h !! v = Some o ->
  gradient_of h v k = edge_sum h (_gradients o) k.
Proof.
  intros W Eo. pose proof (lookup_lt_Some _ _ _ Eo) as Hv.
  destruct (gradient_of_path_sum h v k W Hv) as [_ ->].
  exact (path_sum_edge_sum h v k o W Eo).
Qed.

Lemma well_formed_app (h later : heap) :
  well_formed (h ++ later) -> well_formed h.
Proof.
  intros W i o E. apply W. rewrite lookup_app_l; [ exact E | ].
  now apply lookup_lt_Some in E.
Qed.

Lemma criteria_app (h later : heap) (c : nat) :
  (c < length h)%nat -> criteria (h ++ later) c = criteria h c.
Proof. intros Hc. unfold criteria. now rewrite lookup_app_l. Qed.

Lemma is_leaf_app (h later : heap) (c : nat) :
  (c < length h)%nat -> is_leaf (h ++ later) c = is_leaf h c.
Proof. intros Hc. unfold is_leaf. now rewrite criteria_app. Qed.

Lemma path_sum_app (h later : heap) (k : nat) :
  well_formed h ->
  forall f v, (v < length h)%nat ->
    path_sum f (h ++ later) v k = path_sum f h v k.
Proof.
  intros W f. induction f as [ | f IH ]; intros v Hv; [ reflexivity | ].
  cbn [path_sum]. rewrite lookup_app_l by exact Hv.
  destruct (h !! v) as [o | ] eqn:Eo; [ | reflexivity ].
  pose proof (well_formed_edges h v o W Eo) as F.
  induction F as [ | e rest [He Hl] F IHF ]; [ reflexivity | ].
  cbn [fold_right]. rewrite IHF. rewrite (is_leaf_app h later e.1 He).
  f_equal. f_equal. f_equal.
  destruct (is_leaf h e.1); [ reflexivity | now apply IH ].
Qed.

(** Objects are never changed: allocating further objects leaves the
    gradients of the existing ones as they were. *)
Theorem gradient_unchanged_by_allocation (h later : heap) (v k : nat) :
  well_formed (h ++ later) -> (v < length h)%nat ->
  gradient_of (h ++ later) v k = gradient_of h v k.
Proof.
  intros W Hv. pose proof (well_formed_app h later W) as Wh.
  destruct (gradient_of_path_sum (h ++ later) v k W) as [_ ->].
  { rewrite length_app. lia. }
  destruct (gradient_of_path_sum h v k Wh Hv) as [_ ->].
  rewrite (path_sum_app h later k Wh _ v Hv).
  apply path_sum_fuel; [ exact Wh | rewrite length_app; lia | exact Hv ].
Qed.

Lemma wrt_app (h later : heap) (c k : nat) :
  well_formed (h ++ later) -> (c < length h)%nat ->
  wrt (h ++ later) c k = wrt h c k.
Proof.
  intros W Hc. unfold wrt. rewrite (is_leaf_app h later c Hc).
  f_equal. destruct (is_leaf h c); [ reflexivity | ].
  pose proof (well_formed_app h later W) as Wh.
  destruct (gradient_of_path_sum (h ++ later) c k W) as [_ ->];
    [ rewrite length_app; lia | ].
  destruct (gradient_of_path_sum h c k Wh Hc) as [_ ->].
  rewrite (path_sum_app h later k Wh _ c Hc).
  apply path_sum_fuel; [ exact Wh | rewrite length_app; lia | exact Hc ].
Qed.

(** Gradients flow to earlier objects only: the map of an object that is
    not a leaf holds nothing at the object itself or at any object
    allocated after it. *)
Theorem gradient_only_at_earlier_objects (h : heap) (v k : nat) :
  well_formed h -> (v < length h)%nat -> criteria h v = Some false ->
  (v <= k)%nat ->
  exists g, compute_gradients v h = Some (g, h) /\ g !! k = None.
Proof.
  intros W Hv C Hk.
  destruct (compute_gradients_frame h W (length h) v 1 ∅ Hv Hv C) as [g [E F]].
  exists g. split; [ unfold compute_gradients; now rewrite E | ].
  rewrite (F k Hk). apply lookup_empty.
Qed.


Lemma lookup_new (h later : heap) (i : nat) (o : VariableObj) :
  later !! i = Some o -> (h ++ later) !! (length h + i)%nat = Some o.
Proof.
  intros E. rewrite lookup_app_r by lia.
  now replace (length h + i - length h)%nat with i by lia.
Qed.

(** What an edge to an object with edges to other objects passes on to an
    earlier object [k]: the gradient of the object at [k]. *)
Lemma wrt_inner (h : heap) (c k : nat) (o : VariableObj) :
  well_formed h -> h !! c = Some o -> (k < c)%nat ->
  (forall s, _gradients o <> [(c, s)]) ->
  wrt h c k = edge_sum h (_gradients o) k.
Proof.
  intros W E Hk N. unfold wrt.
  assert (Nat.eqb c k = false) as -> by (apply Nat.eqb_neq; lia).
  assert (is_leaf h c = false) as ->.
  { apply is_leaf_criteria. rewrite (criteria_Some h c o E).
    destruct (_gradients o) as [ | [t s] [ | e l ] ]; try reflexivity.
    destruct (Nat.eqb t c) eqn:T; [ | reflexivity ].
    apply Nat.eqb_eq in T. subst t. now destruct (N s). }
  rewrite (gradient_of_edge_sum h c k o W E). ring.
Qed.

(** What an edge to a fresh leaf passes on to an earlier object: nothing. *)
Lemma wrt_fresh_leaf (h : heap) (c k : nat) (o : VariableObj) (s : R) :
  h !! c = Some o -> (k < c)%nat -> _gradients o = [(c, s)] ->
  wrt h c k = 0.
Proof.
  intros E Hk G. unfold wrt.
  assert (Nat.eqb c k = false) as -> by (apply Nat.eqb_neq; lia).
  assert (is_leaf h c = true) as ->.
  { apply is_leaf_criteria. rewrite (criteria_Some h c o E), G.
    now rewrite Nat.eqb_refl. }
  ring.
Qed.

Section Rules.

Variable py_pow : R -> R -> R.

(** The product rule.  For objects [a], [b] of a heap built by the
    library, [a * b] has the value [a.value * b.value] and its gradient at
    every earlier object [k] is
    [b.value * (a wrt k) + a.value * (b wrt k)]. *)
Theorem product_rule (h : heap) (a b : nat) (va vb : VariableObj) :
  well_formed h -> h !! a = Some va -> h !! b = Some vb ->
  exists p h' vp,
    __mul__ a (Var b) h = Some (p, h') /\
    h' !! p = Some vp /\ value vp = value va * value vb /\
    forall k, (k < length h)%nat ->
      gradient_of h' p k = value vb * wrt h a k + value va * wrt h b k.
Proof.
  intros W Ea Eb.
  pose proof (lookup_lt_Some _ _ _ Ea) as Ha.
  pose proof (lookup_lt_Some _ _ _ Eb) as Hb.
  set (o := mkVariable (value va * value vb) [(a, value vb); (b, value va)] "").
  assert (E : __mul__ a (Var b) h = Some (length h, h ++ [o])).
  { cbv [__mul__ wrap bind ret mul deref]. now rewrite Ea, Eb. }
  assert (W' : well_formed (h ++ [o])).
  { destruct (keeps_operators (pow_at 2) a (Var b) 0) as (_ & _ & K & _).
    exact (K h _ _ W E). }
  exists (length h), (h ++ [o]), o. split; [ exact E | ].
  assert (Ep : (h ++ [o]) !! length h = Some o).
  { now apply list_lookup_middle. }
  split; [ exact Ep | ]. split; [ reflexivity | ]. intros k Hk.
  rewrite (gradient_of_edge_sum _ _ k o W' Ep).
  change (_gradients o) with [(a, value vb); (b, value va)].
  unfold edge_sum. cbn [fold_right fst snd].
  rewrite !(wrt_app h [_] _ k W') by assumption. ring.
Qed.

(** The difference rule.  [a - b] has the value [a.value - b.value] and
    its gradient at every earlier object [k] is [(a wrt k) - (b wrt k)];
    so the gradient of [a - a] vanishes at every earlier object. *)
Theorem difference_rule (h : heap) (a b : nat) (va vb : VariableObj) :
  well_formed h -> h !! a = Some va -> h !! b = Some vb ->
  exists p h' vp,
    __sub__ a (Var b) h = Some (p, h') /\
    h' !! p = Some vp /\ value vp = value va - value vb /\
    forall k, (k < length h)%nat ->
      gradient_of h' p k = wrt h a k - wrt h b k.
Proof.
  intros W Ea Eb.
  pose proof (lookup_lt_Some _ _ _ Ea) as Ha.
  pose proof (lookup_lt_Some _ _ _ Eb) as Hb.
  set (n := mkVariable (-1 * value vb) [(b, -1)] "").
  set (o := mkVariable (value va + -1 * value vb)
              [(a, 1); (length h, 1)] "").
  assert (En : (h ++ [n]) !! length h = Some n).
  { now apply list_lookup_middle. }
  assert (E : __sub__ a (Var b) h = Some (S (length h), h ++ [n; o])).
  { cbv [__sub__ wrap bind ret neg add deref]. rewrite Eb. cbv [__init__].
    rewrite lookup_app_l by exact Ha. rewrite Ea. cbv beta iota. fold n.
    rewrite En. cbv beta iota. rewrite length_app. cbn [length]. rewrite Nat.add_1_r.
    rewrite <- app_assoc. reflexivity. }
  assert (W' : well_formed (h ++ [n; o])).
  { destruct (keeps_operators (pow_at 2) a (Var b) 0) as (_ & _ & _ & _ & K & _).
    exact (K h _ _ W E). }
  assert (Ep : (h ++ [n; o]) !! S (length h) = Some o).
  { rewrite <- Nat.add_1_r. now apply lookup_new. }
  assert (En' : (h ++ [n; o]) !! length h = Some n).
  { now apply list_lookup_middle. }
  exists (S (length h)), (h ++ [n; o]), o. split; [ exact E | ].
  split; [ exact Ep | ]. split; [ cbn; ring | ]. intros k Hk.
  rewrite (gradient_of_edge_sum _ _ k o W' Ep).
  change (_gradients o) with [(a, 1); (length h, 1)].
  unfold edge_sum at 1. cbn [fold_right fst snd].
  rewrite (wrt_inner _ (length h) k n W' En' Hk).
  2:{ intros s [= Hs _]. lia. }
  change (_gradients n) with [(b, -1)].
  unfold edge_sum. cbn [fold_right fst snd].
  rewrite !(wrt_app h [_; _] _ k W') by assumption. ring.
Qed.



Lemma is_leaf_inner (h : heap) (c : nat) (o : VariableObj) :
  h !! c = Some o -> (forall s, _gradients o <> [(c, s)]) ->
  is_leaf h c = false.
Proof.
  intros E N. apply is_leaf_criteria. rewrite (criteria_Some h c o E).
  destruct (_gradients o) as [ | [t s] [ | e l ] ]; try reflexivity.
  destruct (Nat.eqb t c) eqn:T; [ | reflexivity ].
  apply Nat.eqb_eq in T. subst t. now destruct (N s).
Qed.

Lemma edge_sum_app (h later : heap) (edges : list (nat * R)) (k : nat) :
  well_formed (h ++ later) ->
  Forall (fun e : nat * R => (e.1 < length h)%nat) edges ->
  edge_sum (h ++ later) edges k = edge_sum h edges k.
Proof.
  intros W F. unfold edge_sum.
  induction F as [ | e rest He F IHF ]; [ reflexivity | ].
  cbn [fold_right]. rewrite IHF. now rewrite (wrt_app h later e.1 k W He).
Qed.

(** The rule of an operation that allocates one object [o] with edges to
    objects of [h]. *)
Lemma rule_one_object (m : M nat) (h : heap) (o : VariableObj) :
  well_formed h -> keeps m ->
  m h = Some (length h, h ++ [o]) ->
  Forall (fun e : nat * R => (e.1 < length h)%nat) (_gradients o) ->
  rule m h (value o) (edge_sum h (_gradients o)).
Proof.
  intros W K E F. pose proof (K h _ _ W E) as W'.
  assert (Ep : (h ++ [o]) !! length h = Some o) by (now apply list_lookup_middle).
  assert (N : forall s, _gradients o <> [(length h, s)]).
  { intros s Hs. rewrite Hs in F. inversion F as [ | ? ? Hlt ]. cbn in Hlt. lia. }
  exists (length h), [o], o. split; [ exact E | ]. split; [ exact W' | ].
  split; [ lia | ]. split; [ exact Ep | ].
  split; [ exact (is_leaf_inner _ _ o Ep N) | ]. split; [ reflexivity | ].
  intros k Hk. rewrite (wrt_inner _ _ k o W' Ep Hk N).
  now apply edge_sum_app.
Qed.

(** The rule of an operation that wraps a number into a leaf and then
    allocates one object [o]. *)
Lemma rule_leaf_and_object (m : M nat) (h : heap) (c : R) (o : VariableObj) :
  well_formed h -> keeps m ->
  m h = Some (S (length h),
              h ++ [mkVariable c [(length h, sign c)] ""; o]) ->
  Forall (fun e : nat * R => (e.1 <= length h)%nat) (_gradients o) ->
  (forall s, _gradients o <> [(S (length h), s)]) ->
  rule m h (value o)
    (edge_sum h (List.filter (fun e => negb (Nat.eqb e.1 (length h)))
                   (_gradients o))).
Proof.
  intros W K E F N. pose proof (K h _ _ W E) as W'.
  set (l := mkVariable c [(length h, sign c)] "") in *.
  assert (Ep : (h ++ [l; o]) !! S (length h) = Some o).
  { rewrite <- Nat.add_1_r. now apply lookup_new. }
  assert (El : (h ++ [l; o]) !! length h = Some l)
    by (now apply list_lookup_middle).
  exists (S (length h)), [l; o], o. split; [ exact E | ].
  split; [ exact W' | ]. split; [ lia | ]. split; [ exact Ep | ].
  split; [ exact (is_leaf_inner _ _ o Ep N) | ]. split; [ reflexivity | ].
  intros k Hk. rewrite (wrt_inner _ _ k o W' Ep ltac:(lia) N).
  clear Ep N E. unfold edge_sum.
  induction F as [ | e rest He F IHF ]; [ reflexivity | ].
  cbn [fold_right List.filter]. rewrite IHF.
  destruct (Nat.eqb e.1 (length h)) eqn:T; cbn [negb fold_right].
  - apply Nat.eqb_eq in T. rewrite T.
    rewrite (wrt_fresh_leaf _ _ k l (sign c) El Hk eq_refl). ring.
  - apply Nat.eqb_neq in T.
    now rewrite (wrt_app h [l; o] e.1 k W' ltac:(lia)).
Qed.

Lemma neg_rule (h : heap) (a : nat) (va : VariableObj) :
  well_formed h -> h !! a = Some va ->
  rule (__neg__ a) h (-1 * value va) (fun k => -1 * wrt h a k).
Proof.
  intros W Ea. pose proof (lookup_lt_Some _ _ _ Ea) as Ha.
  set (o := mkVariable (-1 * value va) [(a, -1)] "").
  assert (R0 : rule (__neg__ a) h (value o) (edge_sum h (_gradients o))).
  { apply rule_one_object; [ exact W | apply keeps_neg | | ].
    - cbv [__neg__ neg bind deref]. now rewrite Ea.
    - repeat constructor. exact Ha. }
  destruct R0 as (p & later & vp & E & W' & Hp & Ep & L & V & D).
  exists p, later, vp. repeat split; try assumption.
  intros k Hk. rewrite (D k Hk). cbn. ring.
Qed.

Lemma exp_rule (h : heap) (a : nat) (va : VariableObj) :
  well_formed h -> h !! a = Some va ->
  rule (exp (Var a)) h (Rtrigo_def.exp (value va))
    (fun k => Rtrigo_def.exp (value va) * wrt h a k).
Proof.
  intros W Ea. pose proof (lookup_lt_Some _ _ _ Ea) as Ha.
  set (o := mkVariable (Rtrigo_def.exp (value va))
              [(a, Rtrigo_def.exp (value va))] "").
  assert (R0 : rule (exp (Var a)) h (value o) (edge_sum h (_gradients o))).
  { apply rule_one_object; [ exact W | apply (keeps_exp py_pow) | | ].
    - cbv [exp wrap ret bind deref]. now rewrite Ea.
    - repeat constructor. exact Ha. }
  destruct R0 as (p & later & vp & E & W' & Hp & Ep & L & V & D).
  exists p, later, vp. repeat split; try assumption.
  intros k Hk. rewrite (D k Hk). cbn. ring.
Qed.

Lemma radd_number_rule (h : heap) (a : nat) (c : R) (va : VariableObj) :
  well_formed h -> h !! a = Some va ->
  rule (__radd__ a (Num c)) h (value va + c) (fun k => wrt h a k).
Proof.
  intros W Ea. pose proof (lookup_lt_Some _ _ _ Ea) as Ha.
  set (o := mkVariable (value va + c) [(a, 1); (length h, 1)] "").
  assert (R0 : rule (__radd__ a (Num c)) h (value o)
                 (edge_sum h (List.filter
                                (fun e => negb (Nat.eqb e.1 (length h)))
                                (_gradients o)))).
  { apply (rule_leaf_and_object _ h c o W).
    - destruct (keeps_operators (pow_at 2) a (Num c) 0) as (_ & K & _). exact K.
    - cbv [__radd__ wrap __init__ bind add deref].
      rewrite lookup_app_l by exact Ha. rewrite Ea. cbv beta iota.
      rewrite list_lookup_middle by reflexivity. cbv beta iota.
      rewrite length_app. cbn [length]. rewrite Nat.add_1_r.
      now rewrite <- app_assoc.
    - repeat constructor; cbn; lia.
    - intros s Hs. cbn in Hs. discriminate. }
  destruct R0 as (p & later & vp & E & W' & Hp & Ep & L & V & D).
  exists p, later, vp. repeat split; try assumption.
  intros k Hk. rewrite (D k Hk). cbn [_gradients o List.filter fst].
  assert (Nat.eqb a (length h) = false) as -> by (apply Nat.eqb_neq; lia).
  rewrite Nat.eqb_refl. cbn. ring.
Qed.

Lemma rtruediv_number_rule (h : heap) (a : nat) (c : R) (va : VariableObj) :
  well_formed h -> h !! a = Some va -> value va <> 0 ->
  rule (__rtruediv__ py_pow a (Num c)) h (c * (1 / value va))
    (fun k => c * (-1 / py_pow (value va) 2) * wrt h a k).
Proof.
  intros W Ea Na. pose proof (lookup_lt_Some _ _ _ Ea) as Ha.
  set (l := mkVariable c [(length h, sign c)] "").
  set (i := mkVariable (1 / value va) [(a, -1 / py_pow (value va) 2)] "").
  set (o := mkVariable (c * (1 / value va))
              [(length h, 1 / value va); (S (length h), c)] "").
  assert (E : __rtruediv__ py_pow a (Num c) h =
              Some (S (S (length h)), h ++ [l; i; o])).
  { cbv [__rtruediv__ wrap __init__ bind inv mul deref].
    rewrite lookup_app_l by exact Ha. rewrite Ea.
    destruct (Req_dec_T (value va) 0) as [ Z | _ ]; [ contradiction | ].
    cbv beta iota.
    rewrite lookup_app_l by (rewrite length_app; cbn; lia).
    rewrite list_lookup_middle by reflexivity. cbv beta iota.
    rewrite list_lookup_middle by (rewrite length_app; cbn; lia).
    cbv beta iota. rewrite !length_app. cbn [length].
    rewrite <- !app_assoc. cbn [app].
    replace (length h + 1 + 1)%nat with (S (S (length h))) by lia.
    replace (length h + 1)%nat with (S (length h)) by lia. reflexivity. }
  assert (W' : well_formed (h ++ [l; i; o])).
  { destruct (keeps_operators py_pow a (Num c) 0)
      as (_ & _ & _ & _ & _ & _ & _ & K & _).
    exact (K h _ _ W E). }
  assert (El : (h ++ [l; i; o]) !! length h = Some l)
    by (now apply list_lookup_middle).
  assert (Ei : (h ++ [l; i; o]) !! S (length h) = Some i).
  { rewrite <- Nat.add_1_r. now apply lookup_new. }
  assert (Ep : (h ++ [l; i; o]) !! S (S (length h)) = Some o).
  { replace (S (S (length h))) with (length h + 2)%nat by lia.
    now apply lookup_new. }
  assert (No : forall s, _gradients o <> [(S (S (length h)), s)])
    by (intros s; discriminate).
  assert (Ni : forall s, _gradients i <> [(S (length h), s)]).
  { intros s [= Hs _]. lia. }
  exists (S (S (length h))), [l; i; o], o. split; [ exact E | ].
  split; [ exact W' | ]. split; [ lia | ]. split; [ exact Ep | ].
  split; [ exact (is_leaf_inner _ _ o Ep No) | ]. split; [ reflexivity | ].
  intros k Hk. rewrite (wrt_inner _ _ k o W' Ep ltac:(lia) No).
  change (_gradients o) with [(length h, 1 / value va); (S (length h), c)].
  unfold edge_sum at 1. cbn [fold_right fst snd].
  rewrite (wrt_fresh_leaf _ _ k l (sign c) El Hk eq_refl).
  rewrite (wrt_inner _ _ k i W' Ei ltac:(lia) Ni).
  change (_gradients i) with [(a, -1 / py_pow (value va) 2)].
  unfold edge_sum. cbn [fold_right fst snd].
  rewrite (wrt_app h [l; i; o] a k W' Ha). ring.
Qed.


Lemma wrt_gradient_of (h : heap) (p k : nat) :
  (k < p)%nat -> is_leaf h p = false -> wrt h p k = gradient_of h p k.
Proof.
  intros Hk L. unfold wrt. rewrite L.
  assert (Nat.eqb p k = false) as -> by (apply Nat.eqb_neq; lia). ring.
Qed.

(** The logistic function of the self-test, [sigma(x) = 1. / (1. + exp(-x))].
    With [v ** 2 = v * v], [sigma(x)] has the value
    [s = 1 / (1 + exp(- x.value))] and its gradient at every earlier
    object [k] is [s * (1 - s) * (x wrt k)]. *)
Theorem sigma_gradient (h : heap) (x : nat) (vx : VariableObj) :
  well_formed h -> h !! x = Some vx ->
  (forall v, py_pow v 2 = v * v) ->
  exists p h' vp,
    sigma py_pow x h = Some (p, h') /\
    h' !! p = Some vp /\
    value vp = 1 / (1 + Rtrigo_def.exp (- value vx)) /\
    forall k, (k < length h)%nat ->
      gradient_of h' p k = value vp * (1 - value vp) * wrt h x k.
Proof.
  intros W Ex Hpow.
  destruct (neg_rule h x vx W Ex)
    as (nx & l1 & vnx & E1 & W1 & H1 & En & L1 & V1 & D1).
  destruct (exp_rule (h ++ l1) nx vnx W1 En)
    as (e & l2 & ve & E2 & W2 & H2 & Ee & L2 & V2 & D2).
  destruct (radd_number_rule ((h ++ l1) ++ l2) e 1 ve W2 Ee)
    as (s & l3 & vs & E3 & W3 & H3 & Es & L3 & V3 & D3).
  assert (Ns : value vs <> 0).
  { rewrite V3, V2. pose proof (exp_pos (value vnx)). lra. }
  destruct (rtruediv_number_rule (((h ++ l1) ++ l2) ++ l3) s 1 vs W3 Es Ns)
    as (p & l4 & vp & E4 & W4 & H4 & Ep & L4 & V4 & D4).
  exists p, ((((h ++ l1) ++ l2) ++ l3) ++ l4), vp.
  split.
  { unfold sigma, bind. rewrite E1, E2, E3. exact E4. }
  split; [ exact Ep | ].
  pose proof (exp_pos (value vnx)) as P.
  assert (Vp : value vp = 1 / (1 + Rtrigo_def.exp (- value vx))).
  { rewrite V4, V3, V2, V1.
    replace (-1 * value vx) with (- value vx) by ring.
    rewrite V1 in P. replace (-1 * value vx) with (- value vx) in P by ring.
    field. lra. }
  split; [ exact Vp | ]. intros k Hk.
  rewrite !length_app in *.
  rewrite <- (wrt_gradient_of _ p k ltac:(lia) L4).
  rewrite (D4 k) by lia.
  rewrite (D3 k) by lia.
  rewrite (D2 k) by lia.
  rewrite (D1 k Hk). rewrite Hpow, Vp, V3, V2, V1.
  replace (-1 * value vx) with (- value vx) by ring.
  rewrite V1 in P. replace (-1 * value vx) with (- value vx) in P by ring.
  field. lra.
Qed.

End Rules.

(** [x = Variable(3, name='a')] and [x * x]. *)
Lemma square_heap_well_formed :
  well_formed (one_leaf 3 ++ [mkVariable (3 * 3) [(0%nat, 3); (0%nat, 3)] ""]).
Proof.
  destruct (keeps_operators (pow_at 2) 0 (Var 0%nat) 0) as (_ & _ & K & _).
  apply (K (one_leaf 3) 1%nat); [ apply one_leaf_well_formed | reflexivity ].
Qed.


Lemma gradient_unchanged_by_allocation_witness :
  gradient_of
    (one_leaf 3 ++ [mkVariable (3 * 3) [(0%nat, 3); (0%nat, 3)] ""]) 0 0
  = gradient_of (one_leaf 3) 0 0.
Proof.
  apply (gradient_unchanged_by_allocation (one_leaf 3)
           [mkVariable (3 * 3) [(0%nat, 3); (0%nat, 3)] ""] 0 0).
  - apply square_heap_well_formed.
  - cbn. lia.
Defined.

Lemma gradient_only_at_earlier_objects_witness :
  exists g,
    compute_gradients 1
      (one_leaf 3 ++ [mkVariable (3 * 3) [(0%nat, 3); (0%nat, 3)] ""])
    = Some (g, one_leaf 3 ++ [mkVariable (3 * 3) [(0%nat, 3); (0%nat, 3)] ""])
    /\ g !! 1%nat = None.
Proof.
  apply (gradient_only_at_earlier_objects
           (one_leaf 3 ++ [mkVariable (3 * 3) [(0%nat, 3); (0%nat, 3)] ""])
           1 1).
  - apply square_heap_well_formed.
  - cbn. lia.
  - reflexivity.
  - lia.
Defined.

Lemma product_rule_witness :
  exists p h' vp,
    __mul__ 0 (Var 0%nat) (one_leaf 3) = Some (p, h') /\
    h' !! p = Some vp /\ value vp = 3 * 3 /\
    forall k, (k < length (one_leaf 3))%nat ->
      gradient_of h' p k
      = 3 * wrt (one_leaf 3) 0 k + 3 * wrt (one_leaf 3) 0 k.
Proof.
  apply (product_rule (one_leaf 3) 0 0
           (mkVariable 3 [(0%nat, sign 3)] "a")
           (mkVariable 3 [(0%nat, sign 3)] "a")).
  - apply one_leaf_well_formed.
  - reflexivity.
  - reflexivity.
Defined.

Lemma difference_rule_witness :
  exists p h' vp,
    __sub__ 0 (Var 0%nat) (one_leaf 3) = Some (p, h') /\
    h' !! p = Some vp /\ value vp = 3 - 3 /\
    forall k, (k < length (one_leaf 3))%nat ->
      gradient_of h' p k = wrt (one_leaf 3) 0 k - wrt (one_leaf 3) 0 k.
Proof.
  apply (difference_rule (one_leaf 3) 0 0
           (mkVariable 3 [(0%nat, sign 3)] "a")
           (mkVariable 3 [(0%nat, sign 3)] "a")).
  - apply one_leaf_well_formed.
  - reflexivity.
  - reflexivity.
Defined.


Lemma sigma_gradient_witness :
  exists p h' vp,
    sigma (pow_at 2) 0 (one_leaf 3) = Some (p, h') /\
    h' !! p = Some vp /\
    value vp = 1 / (1 + Rtrigo_def.exp (- 3)) /\
    forall k, (k < length (one_leaf 3))%nat ->
      gradient_of h' p k = value vp * (1 - value vp) * wrt (one_leaf 3) 0 k.
Proof.
  apply (sigma_gradient (pow_at 2) (one_leaf 3) 0
           (mkVariable 3 [(0%nat, sign 3)] "a")).
  - apply one_leaf_well_formed.
  - reflexivity.
  - intros v. unfold pow_at. ring.
Defined.

(** *** The heap invariant *)

Lemma keeps_compute_gradients (v : nat) : keeps (compute_gradients v).
Proof.
  intros h g h' W E. unfold compute_gradients in E.
  destruct (_compute_gradients (length h) h v 1 ∅); [ | discriminate ].
  now injection E as _ <-.
Qed.

(** Every function of the module leaves a well-formed heap well formed,
    and the empty heap is well formed: in every heap the library builds an
    object refers to itself alone, as a leaf, or to objects allocated
    before it, so the graph has no cycle. *)
Theorem library_keeps_well_formed (py_pow : R -> R -> R)
    (self : nat) (other : operand) (x exponent : R) (nm : string)
    (a b c : nat) :
  well_formed [] /\
  keeps (__init__ x None nm) /\
  keeps (__add__ self other) /\ keeps (__radd__ self other) /\
  keeps (__mul__ self other) /\ keeps (__rmul__ self other) /\
  keeps (__sub__ self other) /\ keeps (__rsub__ self other) /\
  keeps (__truediv__ py_pow self other) /\
  keeps (__rtruediv__ py_pow self other) /\
  keeps (__pow__ py_pow self exponent) /\ keeps (__neg__ self) /\
  keeps (exp other) /\ keeps (compute_gradients self) /\
  keeps (sigma py_pow a) /\ keeps (y_hat py_pow a b c) /\
  keeps (loss py_pow a b).
Proof.
  destruct (keeps_operators py_pow self other exponent)
    as (K1 & K2 & K3 & K4 & K5 & K6 & K7 & K8 & K9 & K10).
  split; [ intros i o E; discriminate | ].
  split; [ apply (keeps_init_leaf py_pow) | ].
  do 10 (split; [ assumption | ]).
  split; [ apply (keeps_exp py_pow) | ].
  split; [ apply keeps_compute_gradients | ].
  assert (Ks : forall a, keeps (sigma py_pow a)).
  { intros a0. unfold sigma.
    apply keeps_bind; [ apply (keeps_operators py_pow a0 other 0) | intros nx ].
    apply keeps_bind; [ apply (keeps_exp py_pow) | intros e ].
    apply keeps_bind; [ apply (keeps_operators py_pow e (Num 1) 0) | intros s ].
    apply (keeps_operators py_pow s (Num 1) 0). }
  split; [ apply Ks | ]. split.
  - unfold y_hat.
    apply keeps_bind; [ apply (keeps_operators py_pow b (Var c) 0) | intros m ].
    apply keeps_bind; [ apply (keeps_operators py_pow a (Var m) 0) | intros s ].
    apply Ks.
  - unfold loss.
    apply keeps_bind; [ apply (keeps_operators py_pow a (Var b) 0) | intros d ].
    apply keeps_bind; [ apply (keeps_operators py_pow d (Var b) 2) | intros p ].
    apply (keeps_operators py_pow p (Num 0.5) 0).
Qed.

End AutodiffExtFacts.

(** ** methods.py: the adaptive neuron, the binary trains, the generator *)

Module MethodsExtFacts.
Import Methods MethodsExt MethodsFacts.
Local Open Scope Q_scope.

(** *** [lif_with_adaptation] *)

Section Adaptation.

Variables dt u_rest u_thresh tau_m tau_w a b R : Q.
Variable I' : list Q.
Variable n : nat.

Hypothesis rest_below : u_rest < u_thresh.

Lemma adaptation_step_inv (k : nat) (state : list Q * list Q * list Q) :
  (S k < n)%nat -> (k < length I')%nat ->
  adaptation_inv u_rest u_thresh n k state ->
  exists state',
    adaptation_step I' dt u_rest u_thresh tau_m tau_w a b R state (S k)
      = Some state' /\
    adaptation_inv u_rest u_thresh n (S k) state'.
Proof using rest_below.
  destruct state as [[u w] spikes].
  intros Hk HI (Lu & Lw & Ls & U0 & Lt & Fl). cbn [fst snd] in *.
  destruct (lookup_lt_is_Some_2 u k ltac:(lia)) as [u1 Eu].
  destruct (lookup_lt_is_Some_2 w k ltac:(lia)) as [w1 Ew].
  destruct (lookup_lt_is_Some_2 I' k HI) as [I1 EI].
  unfold adaptation_step. replace (S k - 1)%nat with k by lia.
  rewrite Eu, EI, Ew.
  set (ui := u1 + dt * ((- (u1 - u_rest) + R * I1 - R * a * w1) / tau_m)).
  destruct (Qle_bool u_thresh ui) eqn:G; eexists; (split; [ reflexivity | ]);
    unfold adaptation_inv; cbn [fst snd]; rewrite ?length_insert.
  - split; [ exact Lu | ]. split; [ exact Lw | ]. split; [ exact Ls | ]. split.
    { rewrite !list_lookup_insert_ne by lia. exact U0. }
    split.
    + intros j v Hj Ej. destruct (Nat.eq_dec j (S k)) as [-> | N].
      * rewrite list_lookup_insert_eq in Ej by (rewrite length_insert; lia).
        injection Ej as <-. exact rest_below.
      * rewrite !list_lookup_insert_ne in Ej by lia.
        apply (Lt j v); [ lia | exact Ej ].
    + intros j Ej. destruct (Nat.eq_dec j (S k)) as [-> | N].
      * split; [ lia | ]. apply list_lookup_insert_eq.
        rewrite length_insert. lia.
      * rewrite list_lookup_insert_ne in Ej by lia.
        destruct (Fl j Ej) as [Hj Uj]. split; [ lia | ].
        rewrite !list_lookup_insert_ne by lia. exact Uj.
  - split; [ exact Lu | ]. split; [ exact Lw | ]. split; [ exact Ls | ]. split.
    { rewrite list_lookup_insert_ne by lia. exact U0. }
    split.
    + intros j v Hj Ej. destruct (Nat.eq_dec j (S k)) as [-> | N].
      * rewrite list_lookup_insert_eq in Ej by lia. injection Ej as <-.
        apply Qnot_le_lt. intros L. apply Qle_bool_iff in L. congruence.
      * rewrite list_lookup_insert_ne in Ej by lia.
        apply (Lt j v); [ lia | exact Ej ].
    + intros j Ej. destruct (Fl j Ej) as [Hj Uj]. split; [ lia | ].
      rewrite list_lookup_insert_ne by lia. exact Uj.
Qed.

Lemma adaptation_loop_inv (m k : nat) (state : list Q * list Q * list Q) :
  (k + m < n)%nat -> (k + m <= length I')%nat ->
  adaptation_inv u_rest u_thresh n k state ->
  exists state',
    adaptation_loop
      (adaptation_step I' dt u_rest u_thresh tau_m tau_w a b R)
      (seq (S k) m) state = Some state' /\
    adaptation_inv u_rest u_thresh n (k + m) state'.
Proof using rest_below.
  revert k state. induction m as [ | m IH ]; intros k state Hk HI Inv.
  - exists state. rewrite Nat.add_0_r. split; [ reflexivity | exact Inv ].
  - destruct (adaptation_step_inv k state ltac:(lia) ltac:(lia) Inv)
      as [s1 [E1 I1]].
    destruct (IH (S k) s1 ltac:(lia) ltac:(lia) I1) as [s2 [E2 I2]].
    exists s2. cbn [seq adaptation_loop]. rewrite E1.
    replace (k + S m)%nat with (S k + m)%nat by lia.
    split; [ exact E2 | exact I2 ].
Qed.

End Adaptation.

(** With [u_rest < u_thresh], time constants that are not zero (so that
    no division gives [inf] or [nan]), [n = int(T/dt) >= 1] steps, the
    quotient being the one of the floats, and two input matrices of one
    width that covers the run, [lif_with_adaptation] returns traces of
    [n] samples: the potential starts at [u_rest], is exactly [u_rest]
    wherever a spike is flagged, and stays strictly below the threshold
    at every sample.  For [T = 33], [dt = 1.1] these are 29 samples, the
    float quotient lying just below 30. *)
Theorem lif_with_adaptation_invariants
    (spike_trains_exc spike_trains_inh : array2d)
    (dt T u_rest u_thresh tau_m tau_w a b R w_exc w_inh : Q) (n : nat) :
  u_rest < u_thresh -> ~ tau_m == 0 -> ~ tau_w == 0 ->
  (1 <= n)%nat -> Float64.int_quotient T dt = Some (Z.of_nat n) ->
  ncols spike_trains_exc = ncols spike_trains_inh ->
  (n - 1 <= ncols spike_trains_exc)%nat ->
  array2d_wf spike_trains_exc -> array2d_wf spike_trains_inh ->
  exists u spikes : list Q,
    lif_with_adaptation spike_trains_exc spike_trains_inh
      dt T u_rest u_thresh tau_m tau_w a b R w_exc w_inh = Some (u, spikes) /\
    length u = n /\ length spikes = n /\
    u !! 0%nat = Some u_rest /\
    (forall i, spikes !! i = Some 1 -> u !! i = Some u_rest) /\
    (forall i x, u !! i = Some x -> x < u_thresh).
Proof.
  intros Hur _ _ Hn HT Hc Hlen We Wi. unfold lif_with_adaptation.
  pose proof (sum_axis0_length _ We) as Le.
  pose proof (sum_axis0_length _ Wi) as Li.
  unfold array_add. rewrite !length_map, Le, Li, Hc, Nat.eqb_refl.
  rewrite HT. assert ((Z.of_nat n <=? 0)%Z = false) as ->
    by (apply Z.leb_gt; lia).
  rewrite Nat2Z.id. destruct n as [ | n' ]; [ lia | ].
  cbn [replicate insert list_insert]. replace (S n' - 1)%nat with n' by lia.
  set (I' := zip_with Qplus _ _).
  assert (LI : length I' = ncols spike_trains_inh).
  { unfold I'. rewrite length_zip_with, !length_map, Le, Li, Hc. lia. }
  destruct (adaptation_loop_inv dt u_rest u_thresh tau_m tau_w a b R I'
              (S n') Hur n' 0
              (u_rest :: replicate n' 0, 0 :: replicate n' 0,
               0 :: replicate n' 0))
    as [[[u w] spikes] [E (Lu & Lw & Ls & U0 & Lt & Fl)]]; [ lia | lia | | ].
  { unfold adaptation_inv. cbn [fst snd length]. rewrite length_replicate.
    repeat (split; [ reflexivity | ]). split.
    - intros i x Hi Ex. assert (i = 0%nat) by lia. subst i.
      injection Ex as <-. exact Hur.
    - intros i Ei. destruct i as [ | i ]; [ discriminate | ].
      cbn in Ei. apply lookup_replicate in Ei. destruct Ei as [Ei _].
      discriminate. }
  cbn [fst snd] in *. rewrite E. exists u, spikes.
  split; [ reflexivity | ]. split; [ exact Lu | ]. split; [ exact Ls | ].
  split; [ exact U0 | ]. split.
  - intros i Ei. now destruct (Fl i Ei).
  - intros i x Ex. apply (Lt i x); [ | exact Ex ].
    apply lookup_lt_Some in Ex. lia.
Qed.

Lemma lif_with_adaptation_invariants_witness :
  exists u spikes : list Q,
    lif_with_adaptation steady_exc quiet_inh 1.1 33 (-70) (-50) 20 200 0.5 7 1
      2 (-2) = Some (u, spikes) /\
    length u = 29%nat /\ length spikes = 29%nat /\
    u !! 0%nat = Some (-70) /\
    (forall i, spikes !! i = Some 1 -> u !! i = Some (-70)) /\
    (forall i x, u !! i = Some x -> x < -50).
Proof.
  apply (lif_with_adaptation_invariants steady_exc quiet_inh
           1.1 33 (-70) (-50) 20 200 0.5 7 1 2 (-2) 29).
  - reflexivity.
  - discriminate.
  - discriminate.
  - lia.
  - vm_compute. reflexivity.
  - reflexivity.
  - cbn. lia.
  - repeat constructor.
  - repeat constructor.
Defined.

(** *** [spike_trains_to_binary] *)

Lemma setitem_bits (binary : list Q) (idx : Z) (binary' : list Q) :
  Forall bit binary -> setitem binary idx 1 = Some binary' ->
  length binary' = length binary /\ Forall bit binary'.
Proof.
  intros F E. unfold setitem in E.
  assert (B : forall i, length (<[i := 1]> binary) = length binary /\
                        Forall bit (<[i := 1]> binary)).
  { intros i. split; [ apply length_insert | ].
    apply Forall_insert; [ exact F | now right ]. }
  destruct (_ && _); [ injection E as <-; apply B | ].
  destruct (_ && _); [ injection E as <-; apply B | discriminate ].
Qed.

Lemma mark_bins_bits (bin_size : Q) (n_bins : Z) (spike_times : list Q) :
  forall binary binary' : list Q,
    Forall bit binary ->
    mark_bins bin_size n_bins spike_times binary = Some binary' ->
    length binary' = length binary /\ Forall bit binary'.
Proof.
  induction spike_times as [ | t rest IH ]; intros binary binary' F E.
  - injection E as <-. now split.
  - cbn [mark_bins] in E.
    destruct (Float64.int_quotient t bin_size) as [bin_idx | ];
      [ | discriminate ].
    destruct (_ <? n_bins)%Z.
    + destruct (setitem binary _ 1) as [b1 | ] eqn:S1; [ | discriminate ].
      destruct (setitem_bits binary _ b1 F S1) as [L1 F1].
      destruct (IH b1 binary' F1 E) as [L' F']. split; [ lia | exact F' ].
    + exact (IH binary binary' F E).
Qed.

(** Whenever [spike_trains_to_binary] returns, for any spike times at
    all, the result has one row per spike train, every row has
    [int(duration / bin_size)] entries, the quotient being the one of the
    floats, and every entry is 0 or 1.  For a duration of 0.3 and bins of
    0.1 these are two entries, not three. *)
Theorem spike_trains_to_binary_shape (spike_timess : list (list Q))
    (duration bin_size : Q) (binaries : list (list Q)) :
  spike_trains_to_binary spike_timess duration bin_size = Some binaries ->
  length binaries = length spike_timess /\
  Forall (fun binary =>
            Float64.int_quotient duration bin_size
              = Some (Z.of_nat (length binary)) /\
            Forall (fun x => x = 0 \/ x = 1) binary) binaries.
Proof.
  revert binaries.
  induction spike_timess as [ | spike_times rest IH ]; intros binaries E.
  - injection E as <-. split; [ reflexivity | constructor ].
  - cbn [spike_trains_to_binary] in E.
    destruct (spike_train_to_binary duration bin_size spike_times)
      as [binary | ] eqn:E1; [ | discriminate ].
    destruct (spike_trains_to_binary rest duration bin_size)
      as [bs | ] eqn:E2; [ | discriminate ].
    injection E as <-. destruct (IH bs eq_refl) as [L F].
    split; [ cbn [length]; lia | ]. constructor; [ | exact F ].
    unfold spike_train_to_binary in E1.
    destruct (Float64.int_quotient duration bin_size) as [n_bins | ];
      [ | discriminate ].
    destruct (n_bins <? 0)%Z eqn:N; [ discriminate | ].
    apply Z.ltb_ge in N.
    destruct (mark_bins_bits _ _ _ _ _ ltac:(apply Forall_replicate; now left) E1)
      as [L1 F1].
    rewrite length_replicate in L1. split; [ | exact F1 ].
    rewrite L1, Z2Nat.id by exact N. reflexivity.
Qed.

Lemma spike_trains_to_binary_shape_witness :
  length [[1; 1]] = length [[0.05; 0.25; -0.15]] /\
  Forall (fun binary =>
            Float64.int_quotient 0.3 0.1 = Some (Z.of_nat (length binary)) /\
            Forall (fun x => x = 0 \/ x = 1) binary) [[1; 1]].
Proof.
  apply (spike_trains_to_binary_shape [[0.05; 0.25; -0.15]] 0.3 0.1 [[1; 1]]).
  vm_compute. reflexivity.
Defined.


(** *** [poisson_neurons] *)

Lemma float_le_refl (x : Q) :
  float_le (Float64.Finite x) (Float64.Finite x).
Proof. exists x, x. repeat split. apply Qle_refl. Qed.

Lemma train_ok_later (duration : Q) (t t' : Float64.pyfloat)
    (spikes : list Float64.pyfloat) :
  t' = Float64.Infinity false \/ float_le t t' ->
  train_ok duration t spikes -> train_ok duration t' spikes.
Proof.
  intros Ht [F S']. split; [ | exact S' ].
  eapply Forall_impl; [ exact F | ]. cbn. intros s [Hs Hl].
  split; [ exact Hs | ].
  destruct Ht as [Ht | (y & z & Ey & Ez & Hyz)]; [ now left | ].
  destruct Hl as [Hl | (x & y' & Ex & Ey' & Hxy)]; [ congruence | ].
  right. exists x, z. repeat split; try assumption.
  rewrite Ey in Ey'. injection Ey' as <-. now apply Qle_trans with y.
Qed.

Lemma train_ok_append (duration r : Q) (spikes : list Float64.pyfloat) :
  spike_ok duration (Float64.Finite r) ->
  train_ok duration (Float64.Finite r) spikes ->
  train_ok duration (Float64.Finite r) (spikes ++ [Float64.Finite r]).
Proof.
  intros Hs [F S']. split.
  - apply Forall_app. split; [ exact F | ].
    constructor; [ | constructor ]. split; [ exact Hs | ].
    right. apply float_le_refl.
  - intros i j x y Hij Ex Ey.
    destruct (Nat.lt_ge_cases j (length spikes)) as [Hj | Hj].
    + rewrite lookup_app_l in Ex by lia. rewrite lookup_app_l in Ey by lia.
      exact (S' i j x y Hij Ex Ey).
    + rewrite lookup_app_r in Ey by lia.
      destruct (j - length spikes)%nat as [ | d ] eqn:D;
        [ | destruct d; discriminate ].
      injection Ey as <-.
      destruct (Nat.lt_ge_cases i (length spikes)) as [Hi | Hi].
      * rewrite lookup_app_l in Ex by lia.
        rewrite Forall_lookup in F. destruct (F i x Ex) as [_ [H | H]];
          [ discriminate | exact H ].
      * rewrite lookup_app_r in Ex by lia.
        destruct (i - length spikes)%nat as [ | d ] eqn:D';
          [ | destruct d; discriminate ].
        injection Ex as <-. apply float_le_refl.
Qed.

(** Below [2^53] a draw of at least 1 moves the clock past the next
    integer, whatever the rounding of the sum. *)
Lemma clock_step (r dt : Q) (K : Z) :
  0 <= r -> r < inject_Z K -> (K < 2 ^ 53)%Z -> 1 <= dt ->
  Float64.add (Float64.Finite r) (Float64.fl dt) = Float64.Infinity false \/
  exists r', Float64.add (Float64.Finite r) (Float64.fl dt) = Float64.Finite r'
             /\ inject_Z (Qfloor r + 1) <= r'.
Proof.
  intros H0 HK K53 Hdt.
  assert (F0 : (0 <= Qfloor r)%Z).
  { change 0%Z with (Qfloor 0). now apply Qfloor_resp_le. }
  assert (FK : (Qfloor r < K)%Z).
  { apply Z.lt_le_trans with (Qfloor r + 1)%Z; [ lia | ].
    pose proof (Qfloor_le r) as L.
    assert (inject_Z (Qfloor r) < inject_Z K) by lra.
    rewrite <- Zlt_Qlt in H. lia. }
  destruct (Float64Facts.round_ge dt 1 ltac:(lia) Hdt) as [E | (d' & E & Hd')];
    unfold Float64.fl; rewrite E; cbn [Float64.add]; [ now left | ].
  apply Float64Facts.round_ge; [ lia | ].
  rewrite inject_Z_plus. pose proof (Qfloor_le r) as L.
  change (inject_Z 1) with 1 in *. lra.
Qed.

(** The test of the loop fails from [K] on when [duration <= K]. *)
Lemma duration_bound (duration : Q) (K : Z) (r : Q) :
  duration <= inject_Z K -> (0 < K < 2 ^ 53)%Z ->
  Float64.gt (Float64.fl duration) (Float64.Finite r) = true ->
  r < inject_Z K.
Proof.
  intros HD HK G. unfold Float64.fl in G.
  destruct (Float64Facts.round_le duration K HK HD) as [E | (D & E & HDK)];
    rewrite E in G; cbn [Float64.gt] in G; [ discriminate | ].
  apply negb_true_iff in G.
  apply Qlt_le_trans with D; [ | exact HDK ].
  apply Qnot_le_lt. intros H. apply Qle_bool_iff in H. congruence.
Qed.

Lemma gt_infinity (x : Float64.pyfloat) :
  Float64.gt x (Float64.Infinity false) = false.
Proof. destruct x as [ q | [ | ] | ]; reflexivity. Qed.

(** Draws of at least 1 end the loop after [k] turns when the clock is
    within [k] of [K >= duration], and leave a train of spike times in
    order. *)
Lemma generate_spike_train_returns (rate duration : Q) (K : Z) :
  exponential_returns rate = true ->
  duration <= inject_Z K -> (0 < K < 2 ^ 53)%Z ->
  forall (k : nat) (draws : list Q) (t : Float64.pyfloat)
         (spikes : list Float64.pyfloat),
    Forall (Qle 1) draws -> (k <= length draws)%nat ->
    clock_ok K k t -> train_ok duration t spikes ->
    exists train rest t',
      generate_spike_train rate duration draws t spikes = Some (train, rest) /\
      (length draws - k <= length rest)%nat /\
      Forall (Qle 1) rest /\
      train_ok duration t' train.
Proof.
  intros Hr HD HK. induction k as [ | k IH ]; intros draws t spikes F L C Ok.
  - assert (E : Float64.gt (Float64.fl duration) t = false).
    { destruct C as [-> | (r & -> & H0 & Hf)]; [ apply gt_infinity | ].
      destruct (Float64.gt (Float64.fl duration) (Float64.Finite r)) eqn:G;
        [ | reflexivity ].
      apply (duration_bound duration K r HD HK) in G.
      pose proof (Qfloor_le r) as Lr.
      assert (inject_Z (Qfloor r) < inject_Z K) by lra.
      rewrite <- Zlt_Qlt in H. lia. }
    exists spikes, draws, t.
    destruct draws; cbn [generate_spike_train]; rewrite E;
      repeat split; try reflexivity; try assumption; try lia; apply Ok.
  - destruct draws as [ | dt draws ]; [ cbn in L; lia | ].
    apply Forall_cons in F. destruct F as [Hdt F].
    cbn [generate_spike_train].
    destruct (Float64.gt (Float64.fl duration) t) eqn:G.
    + rewrite Hr. cbn [negb].
      destruct C as [-> | (r & -> & H0 & Hf)];
        [ rewrite gt_infinity in G; discriminate | ].
      pose proof (duration_bound duration K r HD HK G) as HrK.
      set (t' := Float64.add (Float64.Finite r) (Float64.fl dt)).
      assert (St : t' = Float64.Infinity false \/
                   exists r', t' = Float64.Finite r' /\
                              inject_Z (Qfloor r + 1) <= r')
        by (apply (clock_step r dt K); try assumption; lia).
      assert (C' : clock_ok K k t').
      { destruct St as [E | (r' & E & Hr')]; [ now left | ].
        right. exists r'. split; [ exact E | ].
        assert (Fl : (Qfloor r + 1 <= Qfloor r')%Z).
        { rewrite <- (Qfloor_Z (Qfloor r + 1)). now apply Qfloor_resp_le. }
        assert (F0 : (0 <= Qfloor r)%Z).
        { change 0%Z with (Qfloor 0). now apply Qfloor_resp_le. }
        split; [ | lia ].
        apply Qle_trans with (inject_Z (Qfloor r + 1)); [ | exact Hr' ].
        change 0 with (inject_Z 0). rewrite <- Zle_Qle. lia. }
      assert (Lt : t' = Float64.Infinity false \/
                   float_le (Float64.Finite r) t').
      { destruct St as [E | (r' & E & Hr')]; [ now left | ].
        right. exists r, r'. repeat split; [ exact E | ].
        apply Qle_trans with (inject_Z (Qfloor r + 1)); [ | exact Hr' ].
        apply Qlt_le_weak, Qlt_floor. }
      assert (Ok' : train_ok duration t'
                (if Float64.gt (Float64.fl duration) t' then spikes ++ [t']
                 else spikes)).
      { destruct (Float64.gt (Float64.fl duration) t') eqn:G';
          [ | now apply train_ok_later with (Float64.Finite r) ].
        destruct St as [E | (r' & E & Hr')];
          [ rewrite E, gt_infinity in G'; discriminate | ].
        rewrite E in *. apply train_ok_append.
        - exists r'. repeat split; [ | exact G' ].
          apply Qlt_le_trans with (inject_Z (Qfloor r + 1)); [ | exact Hr' ].
          assert (F0 : (0 <= Qfloor r)%Z).
          { change 0%Z with (Qfloor 0). now apply Qfloor_resp_le. }
          change 0 with (inject_Z 0). rewrite <- Zlt_Qlt. lia.
        - now apply train_ok_later with (Float64.Finite r). }
      destruct (IH draws t' _ F ltac:(cbn [length] in L; lia) C' Ok')
        as (train & rest & t'' & E1 & L1 & F1 & Ok1).
      exists train, rest, t''. split; [ exact E1 | ].
      split; [ cbn [length]; lia | ]. split; assumption.
    + exists spikes, (dt :: draws), t. split; [ reflexivity | ].
      split; [ lia | ]. split; [ now constructor | exact Ok ].
Qed.

(** With a rate for which the generator returns and draws of at least 1
    (ms), enough of them for [ncells] trains of [K] draws with
    [duration <= K < 2^53], [poisson_neurons] returns [ncells] spike
    trains; their times are finite floats above 0 and below [duration]
    and do not decrease along a train.  The clock is a float: below
    [2^53] a draw of at least 1 moves it on, whatever the rounding. *)
Theorem poisson_neurons_spike_times (ncells K : nat)
    (rate duration : Q) (draws : list Q) :
  exponential_returns rate = true ->
  Forall (Qle 1) draws ->
  duration <= inject_Z (Z.of_nat K) -> (0 < Z.of_nat K < 2 ^ 53)%Z ->
  (ncells * K <= length draws)%nat ->
  exists (trains : list (list Float64.pyfloat)) (rest : list Q),
    poisson_neurons ncells rate duration draws = Some (trains, rest) /\
    length trains = ncells /\
    Forall (fun train =>
              Forall (spike_ok duration) train /\
              forall i j x y, (i <= j)%nat ->
                train !! i = Some x -> train !! j = Some y -> float_le x y)
      trains.
Proof.
  intros Hr F D HK. revert draws F.
  induction ncells as [ | ncells IH ]; intros draws F L;
    cbn [poisson_neurons].
  { exists [], draws. repeat split. constructor. }
  destruct (generate_spike_train_returns rate duration (Z.of_nat K) Hr D HK
              K draws (Float64.fl 0) [] F)
    as (train & draws1 & t' & E1 & L1 & F1 & [Ft St]).
  - lia.
  - right. exists 0. split; [ reflexivity | ].
    split; [ apply Qle_refl | ]. change (Qfloor 0) with 0%Z. lia.
  - split; [ constructor | ]. intros i j x y _ Ex. discriminate.
  - rewrite E1.
    destruct (IH draws1 F1) as (trains & rest & E2 & Ln & Fs); [ lia | ].
    rewrite E2. exists (train :: trains), rest.
    split; [ reflexivity | ]. split; [ cbn [length]; lia | ].
    constructor; [ | exact Fs ]. split; [ | exact St ].
    eapply Forall_impl; [ exact Ft | ]. cbn. tauto.
Qed.

Lemma poisson_neurons_spike_times_witness :
  exists (trains : list (list Float64.pyfloat)) (rest : list Q),
    poisson_neurons 2 250 4.5 [1.5; 1.25; 3; 3; 3; 9; 1; 1; 1; 1]
      = Some (trains, rest) /\
    length trains = 2%nat /\
    Forall (fun train =>
              Forall (spike_ok 4.5) train /\
              forall i j x y, (i <= j)%nat ->
                train !! i = Some x -> train !! j = Some y -> float_le x y)
      trains.
Proof.
  apply (poisson_neurons_spike_times 2 5 250 4.5
           [1.5; 1.25; 3; 3; 3; 9; 1; 1; 1; 1]).
  - vm_compute. reflexivity.
  - repeat constructor; discriminate.
  - discriminate.
  - split; reflexivity.
  - cbn. lia.
Defined.

(** The trains of that run. *)
Example poisson_neurons_run :
  poisson_neurons 2 250 4.5 [1.5; 1.25; 3; 3; 3; 9; 1; 1; 1; 1] =
    Some ([[Float64.Finite (3 # 2); Float64.Finite (11 # 4)];
           [Float64.Finite 3]],
          [9; 1; 1; 1; 1]).
Proof. vm_compute. reflexivity. Qed.

(** *** [lif_integrate] at rest, and a run too short to start *)

Lemma sum_axis0_silent (a : array2d) :
  Forall (Forall (Qeq 0)) (rows a) -> Forall (Qeq 0) (sum_axis0 a).
Proof.
  unfold sum_axis0. intros F.
  assert (F0 : Forall (Qeq 0) (replicate (ncols a) 0))
    by (apply Forall_replicate; reflexivity).
  revert F0. generalize (replicate (ncols a) 0) as acc.
  induction F as [ | r rs Hr F IH ]; intros acc F0; cbn [fold_left].
  - exact F0.
  - apply IH. clear - Hr F0. revert r Hr.
    induction F0 as [ | x acc Hx F0 IHacc ]; intros r Hr; [ constructor | ].
    destruct Hr as [ | y r Hy Hr ]; [ constructor | ].
    cbn [zip_with]. constructor; [ | now apply IHacc ].
    rewrite <- Hx, <- Hy. reflexivity.
Qed.

Section Rest.

Variables tau dt ur u_thresh w_exc w_inh : Q.
Variables exc_spike_counts inh_spike_counts : list Q.
Variable T : nat.

Hypothesis tau_nonzero : ~ tau == 0.
Hypothesis ur_below : ur <= u_thresh.
Hypothesis exc_length : length exc_spike_counts = T.
Hypothesis inh_length : length inh_spike_counts = T.
Hypothesis exc_silent : Forall (Qeq 0) exc_spike_counts.
Hypothesis inh_silent : Forall (Qeq 0) inh_spike_counts.

Lemma lif_step_rest (k : nat) (state : list Q * list Q) :
  (S k < T)%nat -> rest_inv ur T k state ->
  exists state',
    lif_step tau dt ur u_thresh w_exc w_inh exc_spike_counts inh_spike_counts
      state k = Some state' /\
    rest_inv ur T (S k) state'.
Proof using tau_nonzero ur_below exc_length inh_length exc_silent inh_silent.
  destruct state as [us out]. intros Hk (Lu & Lo & Le). cbn [fst snd] in *.
  destruct (lookup_lt_is_Some_2 us k ltac:(lia)) as [u Eu].
  destruct (lookup_lt_is_Some_2 exc_spike_counts k ltac:(lia)) as [e Ee].
  destruct (lookup_lt_is_Some_2 inh_spike_counts k ltac:(lia)) as [i Ei].
  unfold lif_step. rewrite Eu, Ei, Ee.
  pose proof (Le k u (Nat.le_refl k) Eu) as Hu.
  rewrite Forall_lookup in exc_silent, inh_silent.
  pose proof (exc_silent k e Ee) as He. pose proof (inh_silent k i Ei) as Hi.
  set (u' := u - dt * (u - ur) / tau + (w_inh * i + w_exc * e)).
  assert (Hu' : u' == ur).
  { unfold u'. rewrite Hu, <- He, <- Hi. field. exact tau_nonzero. }
  assert (Qgt_bool u' u_thresh = false) as ->.
  { unfold Qgt_bool. apply negb_false_iff, Qle_bool_iff.
    rewrite Hu'. exact ur_below. }
  eexists. split; [ reflexivity | ]. unfold rest_inv. cbn [fst snd].
  rewrite length_insert. split; [ exact Lu | ]. split; [ exact Lo | ].
  intros j v Hj Ej. destruct (Nat.eq_dec j (S k)) as [-> | N].
  - rewrite list_lookup_insert_eq in Ej by lia. injection Ej as <-. exact Hu'.
  - rewrite list_lookup_insert_ne in Ej by lia. apply (Le j v); [ lia | exact Ej ].
Qed.

Lemma lif_loop_rest (n k : nat) (state : list Q * list Q) :
  (k + n < T)%nat -> rest_inv ur T k state ->
  exists state',
    lif_loop
      (lif_step tau dt ur u_thresh w_exc w_inh exc_spike_counts inh_spike_counts)
      (seq k n) state = Some state' /\
    rest_inv ur T (k + n) state'.
Proof using tau_nonzero ur_below exc_length inh_length exc_silent inh_silent.
  revert k state. induction n as [ | n IH ]; intros k state Hk I'.
  - exists state. rewrite Nat.add_0_r. split; [ reflexivity | exact I' ].
  - destruct (lif_step_rest k state ltac:(lia) I') as [s1 [E1 I1]].
    destruct (IH (S k) s1 ltac:(lia) I1) as [s2 [E2 I2]].
    exists s2. cbn [seq lif_loop]. rewrite E1.
    replace (k + S n)%nat with (S k + n)%nat by lia. split; [ exact E2 | exact I2 ].
Qed.

End Rest.

(** Rest is a fixed point of [lif_integrate]: when no input cell ever
    spikes (all entries of both matrices are zero), [tau] is not zero and
    [ur <= u_thresh], the potential equals [ur] at every sample and the
    output spike train is all zeros, whatever [dt] and the weights are. *)
Theorem lif_integrate_silent_input_stays_at_rest
    (spike_trains_exc spike_trains_inh : array2d)
    (tau dt ur u_thresh w_exc w_inh : Q) :
  ~ tau == 0 -> ur <= u_thresh ->
  (1 <= ncols spike_trains_exc)%nat ->
  ncols spike_trains_exc = ncols spike_trains_inh ->
  array2d_wf spike_trains_exc -> array2d_wf spike_trains_inh ->
  Forall (Forall (Qeq 0)) (rows spike_trains_exc) ->
  Forall (Forall (Qeq 0)) (rows spike_trains_inh) ->
  exists us out_spike_train : list Q,
    lif_integrate spike_trains_exc spike_trains_inh
      tau dt ur u_thresh w_exc w_inh = Some (us, out_spike_train) /\
    length us = ncols spike_trains_exc /\
    Forall (fun u => u == ur) us /\
    out_spike_train = replicate (ncols spike_trains_exc) 0.
Proof.
  intros Htau Hur Hn Hc We Wi Se Si. unfold lif_integrate.
  pose proof (sum_axis0_length _ We) as Le.
  pose proof (sum_axis0_length _ Wi) as Li.
  rewrite Le. set (T := ncols spike_trains_exc) in *.
  destruct T as [ | T' ] eqn:ET; [ lia | ].
  cbn [replicate insert list_insert length]. rewrite length_replicate.
  replace (S T' - 1)%nat with T' by lia.
  destruct (lif_loop_rest tau dt ur u_thresh w_exc w_inh
              (sum_axis0 spike_trains_exc) (sum_axis0 spike_trains_inh)
              (S T') Htau Hur Le ltac:(lia)
              (sum_axis0_silent _ Se) (sum_axis0_silent _ Si)
              T' 0 (ur :: replicate T' 0, 0 :: replicate T' 0))
    as [[us out] [E (Lu & Lo & Hu)]]; [ lia | | ].
  { unfold rest_inv. cbn [fst snd length]. rewrite length_replicate.
    split; [ reflexivity | ]. split; [ reflexivity | ].
    intros i u Hi Eu. assert (i = 0%nat) by lia. subst i.
    injection Eu as <-. reflexivity. }
  cbn [fst snd] in *. exists us, out. split; [ exact E | ].
  split; [ exact Lu | ]. split; [ | exact Lo ].
  rewrite Forall_lookup. intros i u Eu. apply (Hu i u); [ | exact Eu ].
  apply lookup_lt_Some in Eu. lia.
Qed.

Lemma lif_integrate_silent_input_stays_at_rest_witness :
  exists us out_spike_train : list Q,
    lif_integrate silent_inh silent_inh 20 1 (-77) (-55) 2 (-2)
      = Some (us, out_spike_train) /\
    length us = 3%nat /\
    Forall (fun u => u == -77) us /\
    out_spike_train = replicate 3 0.
Proof.
  apply (lif_integrate_silent_input_stays_at_rest silent_inh silent_inh
           20 1 (-77) (-55) 2 (-2)).
  - discriminate.
  - discriminate.
  - cbn. lia.
  - reflexivity.
  - repeat constructor.
  - repeat constructor.
  - repeat constructor.
  - repeat constructor.
Defined.

(** A run shorter than one step makes [lif_with_adaptation] fail: for
    floats [0 <= T < dt] the float quotient is below 1, the traces have
    [int(T/dt) = 0] samples and the assignment [u[0] = u_rest] is out of
    range.  ([T] and [dt] are compared as floats, which is what the
    numbers passed in are.) *)
Theorem lif_with_adaptation_short_run_raises
    (spike_trains_exc spike_trains_inh : array2d)
    (dt T u_rest u_thresh tau_m tau_w a b R w_exc w_inh : Q) :
  0 <= T -> Float64.gt (Float64.fl dt) (Float64.fl T) = true ->
  lif_with_adaptation spike_trains_exc spike_trains_inh
    dt T u_rest u_thresh tau_m tau_w a b R w_exc w_inh = None.
Proof.
  intros H0 Hlt. unfold lif_with_adaptation.
  destruct (array_add _ _); [ | reflexivity ].
  destruct (Float64Facts.quotient_lt_1 T dt H0 Hlt) as (q & Eq & Hq0 & Hq1).
  unfold Float64.int_quotient. rewrite Eq.
  rewrite (Float64Facts.int_lt_1 q Hq0 Hq1). reflexivity.
Qed.

Lemma lif_with_adaptation_short_run_raises_witness :
  lif_with_adaptation burst_exc silent_inh 1 0.5 (-70) (-50) 20 200 0.5 7 1
    2 (-2) = None.
Proof.
  apply (lif_with_adaptation_short_run_raises burst_exc silent_inh 1 0.5).
  - discriminate.
  - reflexivity.
Defined.

End MethodsExtFacts.

(** ** Jafri_model.py: gates, and what the L-type channel conserves *)

Module JafriGatesFacts.
Import Jafri JafriGates.
Local Open Scope R_scope.

Lemma exp_lt_1 (x : R) : x < 0 -> exp x < 1.
Proof. intros H. rewrite <- exp_0. now apply exp_increasing. Qed.

Lemma exp_gt_1 (x : R) : 0 < x -> 1 < exp x.
Proof. intros H. rewrite <- exp_0. now apply exp_increasing. Qed.

(** [k x / (1 - exp (c x))] with [c < 0 < k] is positive away from
    [x = 0]. *)
Lemma rate_pos (k c x one : R) :
  0 < k -> c < 0 -> x <> 0 -> one = 1 -> 0 < (k * x) / (one - exp (c * x)).
Proof.
  intros Hk Hc Hx ->. destruct (Rlt_dec 0 x) as [P | N].
  - apply Rdiv_lt_0_compat; [ nra | ].
    assert (exp (c * x) < 1) by (apply exp_lt_1; nra). lra.
  - assert (Hn : x < 0) by lra.
    assert (1 < exp (c * x)) by (apply exp_gt_1; nra).
    replace ((k * x) / (1 - exp (c * x))) with ((k * - x) / (exp (c * x) - 1))
      by (field; lra).
    apply Rdiv_lt_0_compat; nra.
Qed.

(** [k x / (-1 + exp (c x))] with [0 < c], [0 < k] is positive away from
    [x = 0]. *)
Lemma rate_pos' (k c x one : R) :
  0 < k -> 0 < c -> x <> 0 -> one = -1 -> 0 < (k * x) / (one + exp (c * x)).
Proof.
  intros Hk Hc Hx ->. destruct (Rlt_dec 0 x) as [P | N].
  - apply Rdiv_lt_0_compat; [ nra | ].
    assert (1 < exp (c * x)) by (apply exp_gt_1; nra). lra.
  - assert (Hn : x < 0) by lra.
    assert (exp (c * x) < 1) by (apply exp_lt_1; nra).
    replace ((k * x) / (-1 + exp (c * x))) with ((k * - x) / (1 - exp (c * x)))
      by (field; lra).
    apply Rdiv_lt_0_compat; nra.
Qed.

Lemma inwards (alpha beta gate : R) :
  0 <= alpha -> 0 <= beta ->
  points_inwards gate (alpha * (1.0 - gate) - beta * gate).
Proof. intros Ha Hb. split; intros Hg; nra. Qed.

Lemma quotient_pos (x y : R) : 0 < x -> 0 < y -> 0 < x / y.
Proof. apply Rdiv_lt_0_compat. Qed.

(** Away from the two voltages at which a rate divides by zero, no gate
    derivative leads out of [[0, 1]]: each of [dm_dt], [dh_dt], [dj_dt],
    [dX_dt] is not negative when its gate is at or below 0 and not
    positive when its gate is at or above 1, in both branches of the test
    [V < -40.0]. *)
Theorem gates_stay_in_unit_interval (V m h j X : R) :
  V <> -47.13 -> V <> -30 ->
  let d := currents_concentrations_gates V m h j X in
  points_inwards m (dm_dt d) /\ points_inwards h (dh_dt d) /\
  points_inwards j (dj_dt d) /\ points_inwards X (dX_dt d).
Proof.
  intros Hm HX. cbv zeta. unfold currents_concentrations_gates.
  pose proof (exp_pos (- V / 11.0)) as Pm.
  assert (Am : 0 < (0.32 * (V + 47.13)) / (1.0 - exp (-0.1 * (V + 47.13))))
    by (apply rate_pos; lra).
  assert (AX : 0 < (7.19e-05 * (V + 30.0)) / (1.0 - exp (-0.1480 * (V + 30.0))))
    by (apply rate_pos; lra).
  assert (BX : 0 < (0.000131 * (V + 30.0)) / (-1.0 + exp (0.0687 * (V + 30.0))))
    by (apply rate_pos'; lra).
  destruct (Rlt_dec V (- 40.0)) as [Lo | Hi];
    cbn [dm_dt dh_dt dj_dt dX_dt].
  - split; [ apply inwards; lra | ].
    split.
    { apply inwards.
      - pose proof (exp_pos ((80.0 + V) / -6.80)). lra.
      - pose proof (exp_pos (0.079 * V)). pose proof (exp_pos (0.35 * V)). lra. }
    split; [ | apply inwards; lra ].
    apply inwards.
    + pose proof (exp_pos (0.244400 * V)) as P1.
      pose proof (exp_pos (-0.04391 * V)) as P2.
      pose proof (exp_pos (0.311 * (V + 79.23))) as P3.
      apply Rlt_le, quotient_pos; [ | lra ].
      replace ((-127140 * exp (0.244400 * V) - 3.474e-05 * exp (-0.04391 * V))
               * (V + 37.78))
        with ((127140 * exp (0.244400 * V) + 3.474e-05 * exp (-0.04391 * V))
              * (- (V + 37.78))) by ring.
      apply Rmult_lt_0_compat; lra.
    + pose proof (exp_pos (-0.0105200 * V)).
      pose proof (exp_pos (-0.1378 * (V + 40.14))).
      apply Rlt_le, quotient_pos; lra.
  - split; [ apply inwards; lra | ].
    split.
    { apply inwards; [ lra | ].
      pose proof (exp_pos ((V + 10.66) / -11.1)).
      apply Rlt_le, quotient_pos; lra. }
    split; [ | apply inwards; lra ].
    apply inwards; [ lra | ].
    pose proof (exp_pos (-2.535e-07 * V)).
    pose proof (exp_pos (-0.1 * (V + 32.0))).
    apply Rlt_le, quotient_pos; lra.
Qed.

Lemma gates_stay_in_unit_interval_witness :
  let d := currents_concentrations_gates (-80) 0 1 0 1 in
  points_inwards 0 (dm_dt d) /\ points_inwards 1 (dh_dt d) /\
  points_inwards 0 (dj_dt d) /\ points_inwards 1 (dX_dt d).
Proof.
  apply (gates_stay_in_unit_interval (-80) 0 1 0 1); lra.
Defined.

(** At and above -40 mV the inactivation gates of the sodium current can
    only close: [alpha_h] and [alpha_j] are zero in that branch, so
    [dh_dt] and [dj_dt] are negative for every open fraction.  The
    voltages -30 and 0, at which a later line of the function divides by
    zero, are left out. *)
Theorem inactivation_gates_only_close_from_minus_40 (V m h j X : R) :
  -40 <= V -> V <> -30 -> V <> 0 ->
  let d := currents_concentrations_gates V m h j X in
  (0 < h -> dh_dt d < 0) /\ (0 < j -> dj_dt d < 0) /\
  (h = 0 -> dh_dt d = 0) /\ (j = 0 -> dj_dt d = 0).
Proof.
  intros HV _ _. cbv zeta. unfold currents_concentrations_gates.
  destruct (Rlt_dec V (- 40.0)) as [Lo | Hi]; [ lra | ].
  cbn [dh_dt dj_dt].
  assert (Bh : 0 < 1.0 / (0.13 * (1.0 + exp ((V + 10.66) / -11.1)))).
  { pose proof (exp_pos ((V + 10.66) / -11.1)). apply quotient_pos; lra. }
  assert (Bj : 0 < (0.3 * exp (-2.535e-07 * V))
                   / (1.0 + exp (-0.1 * (V + 32.0)))).
  { pose proof (exp_pos (-2.535e-07 * V)).
    pose proof (exp_pos (-0.1 * (V + 32.0))). apply quotient_pos; lra. }
  repeat split; intros H; try nra; subst; ring.
Qed.

(** At -40 mV itself, the first voltage of the branch. *)
Lemma inactivation_gates_only_close_from_minus_40_witness :
  let d := currents_concentrations_gates (-40) 0.5 0.5 0.5 0.5 in
  (0 < 0.5 -> dh_dt d < 0) /\ (0 < 0.5 -> dj_dt d < 0) /\
  (0.5 = 0 -> dh_dt d = 0) /\ (0.5 = 0 -> dj_dt d = 0).
Proof.
  apply (inactivation_gates_only_close_from_minus_40 (-40) 0.5 0.5 0.5 0.5);
    lra.
Defined.

(** The total occupancy of the L-type channel is conserved exactly when
    the subspace calcium is zero or [C_Ca0] equals [C0], whatever the
    class attributes are, as long as [b] is not zero (the block divides
    by [b] and its powers). *)
Theorem total_occupancy_conserved_iff (self : Jafri_model_parts)
    (V y C0 C1 C2 C3 C4 C_Ca0 C_Ca1 C_Ca2 C_Ca3 C_Ca4 O O_Ca Ca_SS : R) :
  b self <> 0 ->
  (total_occupancy_rate
     (currents_concentrations_ltype self V y C0 C1 C2 C3 C4
        C_Ca0 C_Ca1 C_Ca2 C_Ca3 C_Ca4 O O_Ca Ca_SS) = 0
   <-> Ca_SS = 0 \/ C_Ca0 = C0).
Proof.
  intros _. rewrite JafriFacts.total_occupancy_rate_value. split.
  - intros H. apply Rmult_integral in H. destruct H as [H | H].
    + left. lra.
    + right. lra.
  - intros [-> | ->]; ring.
Qed.

Lemma total_occupancy_conserved_iff_witness :
  total_occupancy_rate
    (currents_concentrations_ltype class_attributes (-80) 0.5
       0.5 0 0 0 0 0.5 0 0 0 0 0 0 1) = 0
  <-> 1 = 0 \/ 0.5 = 0.5.
Proof.
  apply (total_occupancy_conserved_iff class_attributes (-80) 0.5
           0.5 0 0 0 0 0.5 0 0 0 0 0 0 1).
  cbn [b class_attributes]. lra.
Defined.

(** The gate [y] moves towards [y_infinity]: [tau_y] is positive at
    every voltage, so [dy_dt] is positive exactly when [y] is below
    [y_infinity] and zero exactly at it. *)
Theorem y_gate_relaxes_to_y_infinity (self : Jafri_model_parts)
    (V y C0 C1 C2 C3 C4 C_Ca0 C_Ca1 C_Ca2 C_Ca3 C_Ca4 O O_Ca Ca_SS : R) :
  let y_infinity :=
    1.0 / (1.0 + exp ((V + 55.0) / 7.5))
    + 0.1 / (1.0 + exp ((- V + 21.0) / 6.0)) in
  let d := currents_concentrations_ltype self V y C0 C1 C2 C3 C4
             C_Ca0 C_Ca1 C_Ca2 C_Ca3 C_Ca4 O O_Ca Ca_SS in
  (0 < Jafri.dy_dt d <-> y < y_infinity) /\
  (Jafri.dy_dt d = 0 <-> y = y_infinity).
Proof.
  cbv zeta. unfold currents_concentrations_ltype. cbn [Jafri.dy_dt].
  set (y_inf := 1.0 / _ + 0.1 / _).
  set (tau_y := 20.0 + 600.0 / _).
  assert (T : 0 < tau_y).
  { unfold tau_y. pose proof (exp_pos ((V + 30.0) / 9.5)).
    assert (0 < 600.0 / (1.0 + exp ((V + 30.0) / 9.5)))
      by (apply quotient_pos; lra). lra. }
  assert (Ti : 0 < / tau_y) by (now apply Rinv_0_lt_compat).
  unfold Rdiv. split; split; intros H.
  - nra.
  - apply Rmult_lt_0_compat; lra.
  - apply Rmult_integral in H. destruct H; lra.
  - rewrite H. ring.
Qed.

(** With [f_ = g_ = 0], as the class sets them, the open state of the
    calcium mode is cut off: [dO_Ca_dt] is zero in every state, and
    [C_Ca4] neither loses to it nor gains from it. *)
Theorem calcium_mode_open_state_is_frozen (self : Jafri_model_parts)
    (V y C0 C1 C2 C3 C4 C_Ca0 C_Ca1 C_Ca2 C_Ca3 C_Ca4 O O_Ca O_Ca' Ca_SS : R) :
  f_ self = 0 -> g_ self = 0 ->
  let d := currents_concentrations_ltype self V y C0 C1 C2 C3 C4
             C_Ca0 C_Ca1 C_Ca2 C_Ca3 C_Ca4 O O_Ca Ca_SS in
  let d' := currents_concentrations_ltype self V y C0 C1 C2 C3 C4
             C_Ca0 C_Ca1 C_Ca2 C_Ca3 C_Ca4 O O_Ca' Ca_SS in
  dO_Ca_dt d = 0 /\ d' = d.
Proof.
  intros Hf Hg. cbv zeta. unfold currents_concentrations_ltype.
  rewrite Hf, Hg. split.
  - cbn [dO_Ca_dt]. ring.
  - f_equal; ring.
Qed.

Lemma calcium_mode_open_state_is_frozen_witness :
  let d := currents_concentrations_ltype class_attributes (-80) 0.5
             1 0 0 0 0 0 0 0 0 0 0 0 1 in
  let d' := currents_concentrations_ltype class_attributes (-80) 0.5
             1 0 0 0 0 0 0 0 0 0 0 1 1 in
  dO_Ca_dt d = 0 /\ d' = d.
Proof.
  apply (calcium_mode_open_state_is_frozen class_attributes (-80) 0.5
           1 0 0 0 0 0 0 0 0 0 0 0 1 1); reflexivity.
Defined.

End JafriGatesFacts.

(** ** L10_widget.py (L09): what [rhs] conserves *)

Module CICRExtFacts.
Import CICR.
Local Open Scope R_scope.



(** At a steady state of [rhs] the cytosolic calcium is fixed by entry
    and extrusion alone: [Cai = k_entry * Cao / (k_entry + k_extrusion)],
    whatever the release and uptake parameters are. *)
Theorem rhs_steady_state_cytosolic_calcium (py_pow : R -> R -> R) (t Cai CaSR
    Cao k_entry k_extrusion k_uptake kappa0 kappa1 Kd n gamma : R) :
  gamma <> 0 -> k_entry + k_extrusion <> 0 ->
  rhs py_pow t (Cai, CaSR)
    Cao k_entry k_extrusion k_uptake kappa0 kappa1 Kd n gamma = Some (0, 0) ->
  Cai = k_entry * Cao / (k_entry + k_extrusion).
Proof.
  intros Hg Hk E. unfold rhs, Py.pow, Py.truediv in E.
  destruct (Py.pow_raises Cai n); [ discriminate | ].
  destruct (Py.pow_raises Kd n); [ discriminate | ].
  cbn [mbind option_bind] in E.
  destruct (Req_dec_T (py_pow Cai n + py_pow Kd n) 0); [ discriminate | ].
  cbn [mbind option_bind] in E.
  destruct (Req_dec_T gamma 0); [ discriminate | ].
  injection E as E1 E2.
  set (Jrel := (kappa0 + _) * (CaSR - Cai)) in *.
  assert (E3 : k_uptake * Cai - Jrel = 0).
  { unfold Rdiv in E2. apply Rmult_integral in E2. destruct E2 as [E2 | E2];
      [ exact E2 | ].
    exfalso. revert E2. now apply Rinv_neq_0_compat. }
  apply Rmult_eq_reg_r with (k_entry + k_extrusion); [ | exact Hk ].
  unfold Rdiv. rewrite Rmult_assoc, Rinv_l by exact Hk. lra.
Qed.

Lemma rhs_steady_state_cytosolic_calcium_witness :
  1 = 1 * 2 / (1 + 1).
Proof.
  apply (rhs_steady_state_cytosolic_calcium (fun _ _ => 1) 0 1 2
           2 1 1 1 1 0 1 3 1).
  - lra.
  - lra.
  - rewrite CICRFacts.rhs_returns by (unfold raises; lra).
    f_equal. f_equal; field.
Defined.

End CICRExtFacts.

(** ** 02B_APD_restitution/run.py: [run] and [jobID] *)

Module RestitutionRunFacts.
Import Restitution RestitutionRun RestitutionFacts.

Local Open Scope string_scope.
Local Open Scope list_scope.

Section Facts.

Variable Vm_50 : Z -> Q.

Lemma printed_app (l l' : list event) :
  printed (l ++ l') = printed l ++ printed l'.
Proof. apply flat_map_app. Qed.

Lemma called_app (l l' : list event) :
  called (l ++ l') = called l ++ called l'.
Proof. apply flat_map_app. Qed.

Lemma printed_turns (a : run_args) (job_ID : string) (cs : list Z) :
  printed (flat_map (threshold_turn a job_ID) cs) = map threshold_print cs.
Proof.
  induction cs as [ | c cs IH ]; [ reflexivity | ].
  cbn [flat_map map]. rewrite printed_app, IH. reflexivity.
Qed.

Lemma called_turns (a : run_args) (job_ID : string) (cs : list Z) :
  called (flat_map (threshold_turn a job_ID) cs)
  = map (threshold_call a job_ID) cs.
Proof.
  induction cs as [ | c cs IH ]; [ reflexivity | ].
  cbn [flat_map map]. rewrite called_app, IH. reflexivity.
Qed.

Lemma threshold_loop_search (a : run_args) (job_ID : string) (k : nat) :
  dry a = false ->
  forall (fuel : nat) (s : Z) (log : list event),
    (k < fuel)%nat ->
    Forall (fun c => (Vm_50 c <= -10)%Q) (currents_from s k) ->
    (-10 < Vm_50 (s + 2 * Z.of_nat (S k)))%Q ->
    threshold_loop Vm_50 fuel a job_ID s log =
      (log ++ flat_map (threshold_turn a job_ID) (currents_from s (S k)),
       Some (s + 2 * Z.of_nat (S k))%Z).
Proof.
  intros Hdry. induction k as [ | k IH ]; intros fuel s log Hf Hlow Hhi;
    (destruct fuel as [ | fuel ]; [ lia | ]); cbn [threshold_loop];
    rewrite Hdry.
  - replace (s + 2 * Z.of_nat 1)%Z with (s + 2)%Z in * by lia.
    apply Qgt_bool_true in Hhi. rewrite Hhi.
    cbn [currents_from flat_map]. rewrite app_nil_r, <- app_assoc.
    reflexivity.
  - cbn [currents_from] in Hlow. apply Forall_cons in Hlow.
    destruct Hlow as [Hs Hlow].
    assert (Methods.Qgt_bool (Vm_50 (s + 2)) (-10) = false) as ->.
    { destruct (Methods.Qgt_bool (Vm_50 (s + 2)) (-10)) eqn:E;
        [ | reflexivity ].
      apply Qgt_bool_true in E. now apply Qlt_not_le in E. }
    rewrite (IH fuel (s + 2)%Z); [ | lia | exact Hlow | ].
    + rewrite <- !app_assoc.
      replace (s + 2 + 2 * Z.of_nat (S k))%Z
        with (s + 2 * Z.of_nat (S (S k)))%Z by lia.
      reflexivity.
    + replace (s + 2 + 2 * Z.of_nat (S k))%Z
        with (s + 2 * Z.of_nat (S (S k)))%Z by lia.
      exact Hhi.
Qed.

Lemma threshold_loop_no_capture (a : run_args) (job_ID : string) :
  dry a = false -> (forall c, (Vm_50 c <= -10)%Q) ->
  forall (fuel : nat) (s : Z) (log : list event),
    threshold_loop Vm_50 fuel a job_ID s log =
      (log ++ flat_map (threshold_turn a job_ID) (currents_from s fuel),
       None).
Proof.
  intros Hdry Hlow. induction fuel as [ | fuel IH ]; intros s log;
    cbn [threshold_loop currents_from flat_map].
  - now rewrite !app_nil_r.
  - rewrite Hdry.
    assert (Methods.Qgt_bool (Vm_50 (s + 2)) (-10) = false) as ->.
    { destruct (Methods.Qgt_bool (Vm_50 (s + 2)) (-10)) eqn:E;
        [ | reflexivity ].
      apply Qgt_bool_true in E. specialize (Hlow (s + 2)%Z).
      now apply Qlt_not_le in E. }
    rewrite IH, <- !app_assoc. reflexivity.
Qed.

(** The threshold search.  Without [--dry], if the runs with the
    stimulus currents 2, 4, ..., 2k leave [Vm[50,1] <= -10] and the run
    with 2(k+1) leaves [Vm[50,1] > -10], then what [run] prints and calls
    is, in this order: for each of the currents 2, 4, ..., 2(k+1) the
    line with the current and then the call of [job.bench] with it; the
    line with the chosen current 4(k+1), twice the last of them; the call
    of [job.bench] for the restitution protocol with that current. *)
Theorem run_doubles_the_first_capturing_current (a : run_args)
    (job_ID ropt : string) (k fuel : nat) :
  dry a = false -> restitute_option a = Some ropt -> (k < fuel)%nat ->
  Forall (fun c => (Vm_50 c <= -10)%Q) (currents_from 0 k) ->
  (-10 < Vm_50 (2 * Z.of_nat (S k)))%Q ->
  run_log Vm_50 fuel a job_ID =
    (flat_map
       (fun c => [Printed (threshold_print c);
                  Called (threshold_call a job_ID c)])
       (currents_from 0 (S k))
     ++ [Printed ("Chosen stimulus current: "
                  ++ Py.str_int (4 * Z.of_nat (S k)))%string;
         Called (imp_setup a
                 ++ restitute_pars a job_ID (4 * Z.of_nat (S k)) ropt)],
     write_protocol a, Benched) /\
  run Vm_50 fuel a job_ID =
    mkTrace
      (map threshold_print (currents_from 0 (S k))
       ++ [("Chosen stimulus current: "
            ++ Py.str_int (4 * Z.of_nat (S k)))%string])
      (map (threshold_call a job_ID) (currents_from 0 (S k))
       ++ [imp_setup a
           ++ restitute_pars a job_ID (4 * Z.of_nat (S k)) ropt])
      (write_protocol a) Benched.
Proof.
  intros Hdry Hropt Hf Hlow Hhi.
  assert (E : run_log Vm_50 fuel a job_ID =
    (flat_map (threshold_turn a job_ID) (currents_from 0 (S k))
     ++ [Printed ("Chosen stimulus current: "
                  ++ Py.str_int (4 * Z.of_nat (S k)))%string;
         Called (imp_setup a
                 ++ restitute_pars a job_ID (4 * Z.of_nat (S k)) ropt)],
     write_protocol a, Benched)).
  { unfold run_log.
    rewrite (threshold_loop_search a job_ID k Hdry fuel 0 [] Hf Hlow Hhi).
    rewrite Hropt. cbn [app].
    replace ((0 + 2 * Z.of_nat (S k)) * 2)%Z with (4 * Z.of_nat (S k))%Z
      by lia.
    rewrite <- app_assoc. reflexivity. }
  split; [ exact E | ].
  unfold run. rewrite E.
  rewrite printed_app, called_app, printed_turns, called_turns.
  reflexivity.
Qed.

(** Without [--dry] and with no current that brings [Vm[50,1]] above
    -10, the loop of [run] does not end: after any number of turns it has
    called [job.bench] once per turn, with the currents 2, 4, 6, ..., and
    has neither written the protocol file nor started the restitution
    run. *)
Theorem run_searches_forever_without_capture (a : run_args)
    (job_ID : string) (fuel : nat) :
  dry a = false -> (forall c, (Vm_50 c <= -10)%Q) ->
  run Vm_50 fuel a job_ID =
    mkTrace (map threshold_print (currents_from 0 fuel))
      (map (threshold_call a job_ID) (currents_from 0 fuel))
      None Searching.
Proof.
  intros Hdry Hlow. unfold run, run_log.
  rewrite (threshold_loop_no_capture a job_ID Hdry Hlow fuel 0 []).
  cbn [app]. rewrite printed_turns, called_turns.
  reflexivity.
Qed.

(** With [--dry] and the dynamic protocol [run] fails: no branch assigns
    [ropt], so after the one threshold call (with the current 2) and the
    print of the chosen current 4, building the options of the
    restitution run raises [UnboundLocalError]; [job.bench] is not called
    a second time and no protocol file is written. *)
Theorem run_dry_dynamic_raises (a : run_args) (job_ID : string)
    (fuel : nat) :
  dry a = true -> Protocol (opts a) = "Dynamic" -> (1 <= fuel)%nat ->
  run Vm_50 fuel a job_ID =
    mkTrace
      ["Currently applied stimulus current: 2";
       "Chosen stimulus current: 4"]
      [threshold_call a job_ID 2] None (Raise "UnboundLocalError").
Proof.
  intros Hdry HP Hf. destruct fuel as [ | fuel ]; [ lia | ].
  unfold run, run_log, restitute_option, write_protocol.
  cbn [threshold_loop]. rewrite Hdry, HP. reflexivity.
Qed.

End Facts.

Lemma run_doubles_the_first_capturing_current_witness :
  run_log (fun c => if (c <? 6)%Z then -85 else 20)%Q 5
      (tutorial_args "S1S2" false) "exp" =
    (flat_map
       (fun c => [Printed (threshold_print c);
                  Called (threshold_call (tutorial_args "S1S2" false) "exp" c)])
       (currents_from 0 3)
     ++ [Printed ("Chosen stimulus current: "
                  ++ Py.str_int (4 * Z.of_nat 3))%string;
         Called (imp_setup (tutorial_args "S1S2" false)
                 ++ restitute_pars (tutorial_args "S1S2" false) "exp"
                      (4 * Z.of_nat 3) "S1S2")],
     write_protocol (tutorial_args "S1S2" false), Benched) /\
  run (fun c => if (c <? 6)%Z then -85 else 20)%Q 5
      (tutorial_args "S1S2" false) "exp" =
    mkTrace
      (map threshold_print (currents_from 0 3)
       ++ [("Chosen stimulus current: " ++ Py.str_int (4 * Z.of_nat 3))%string])
      (map (threshold_call (tutorial_args "S1S2" false) "exp")
         (currents_from 0 3)
       ++ [imp_setup (tutorial_args "S1S2" false)
           ++ restitute_pars (tutorial_args "S1S2" false) "exp"
                (4 * Z.of_nat 3) "S1S2"])
      (write_protocol (tutorial_args "S1S2" false)) Benched.
Proof.
  apply (run_doubles_the_first_capturing_current
           (fun c => if (c <? 6)%Z then -85 else 20)%Q
           (tutorial_args "S1S2" false) "exp" "S1S2" 2 5).
  - reflexivity.
  - reflexivity.
  - lia.
  - repeat constructor; discriminate.
  - reflexivity.
Defined.

(** The first events of that run. *)
Example run_log_starts_with_print_then_call :
  exists rest,
    (run_log (fun c => if (c <? 6)%Z then -85 else 20)%Q 5
       (tutorial_args "S1S2" false) "exp").1.1 =
    Printed "Currently applied stimulus current: 2"
    :: Called (threshold_call (tutorial_args "S1S2" false) "exp" 2)
    :: Printed "Currently applied stimulus current: 4"
    :: rest.
Proof. eexists. vm_compute. reflexivity. Qed.

Lemma run_searches_forever_without_capture_witness :
  run (fun _ => -85)%Q 4 (tutorial_args "S1S2" false) "exp" =
    mkTrace (map threshold_print (currents_from 0 4))
      (map (threshold_call (tutorial_args "S1S2" false) "exp")
         (currents_from 0 4))
      None Searching.
Proof.
  apply (run_searches_forever_without_capture (fun _ => -85)%Q
           (tutorial_args "S1S2" false) "exp" 4).
  - reflexivity.
  - intros c. discriminate.
Defined.

Lemma run_dry_dynamic_raises_witness :
  run (fun _ => 0)%Q 1 (tutorial_args "Dynamic" true) "exp" =
    mkTrace
      ["Currently applied stimulus current: 2";
       "Chosen stimulus current: 4"]
      [threshold_call (tutorial_args "Dynamic" true) "exp" 2] None
      (Raise "UnboundLocalError").
Proof.
  apply (run_dry_dynamic_raises (fun _ => 0)%Q
           (tutorial_args "Dynamic" true) "exp" 1).
  - reflexivity.
  - reflexivity.
  - lia.
Defined.

(** *** [jobID] *)

(** The identifier of a job does not tell two parameter strings apart:
    runs that differ only in a non-empty [--params] get the same
    identifier, hence the same output directory. *)
Theorem jobID_same_for_all_params (today : string) (a a' : args)
    (s s' : string) :
  params a = Some s -> s <> "" -> params a' = Some s' -> s' <> "" ->
  CI0 a' = CI0 a -> CI1 a' = CI1 a -> Protocol a' = Protocol a ->
  imp a' = imp a ->
  jobID today a' = jobID today a /\ exists ID, jobID today a = Some ID.
Proof.
  intros Es Hs Es' Hs' E0 E1 EP Ei.
  rewrite (jobID_with_params today a s Es Hs).
  rewrite (jobID_with_params today a' s' Es' Hs').
  rewrite E0, E1, EP, Ei. split; [ reflexivity | eauto ].
Qed.

Lemma jobID_same_for_all_params_witness :
  jobID "2024-06-20"
    (mkArgs 50 (Some 600%Z) "S1S2" "tenTusscherPanfilov" (Some "G_tf=0.6"))
  = jobID "2024-06-20"
      (mkArgs 50 (Some 600%Z) "S1S2" "tenTusscherPanfilov"
         (Some "G_Kr=0.134"))
  /\ exists ID,
       jobID "2024-06-20"
         (mkArgs 50 (Some 600%Z) "S1S2" "tenTusscherPanfilov"
            (Some "G_Kr=0.134")) = Some ID.
Proof.
  apply (jobID_same_for_all_params "2024-06-20"
           (mkArgs 50 (Some 600%Z) "S1S2" "tenTusscherPanfilov"
              (Some "G_Kr=0.134"))
           (mkArgs 50 (Some 600%Z) "S1S2" "tenTusscherPanfilov"
              (Some "G_tf=0.6"))
           "G_Kr=0.134" "G_tf=0.6");
    try reflexivity; discriminate.
Defined.

End RestitutionRunFacts.

(** ** 01_basic_bench/run.py: more on [run], and [jobID] *)

Module BasicBenchExtFacts.
Import BasicBench BasicBenchExt BasicBenchFacts.

Local Open Scope string_scope.
Local Open Scope list_scope.

Section Facts.

Variable float : string -> option Float64.pyfloat.
Variable isfile : string -> bool.

(** Where counting the stimuli fails, [run] stops with that exception:
    before the check of the initial-state file, so that nothing is
    printed even if that file is missing, and before any call of
    [job.bench].  The exception is [ZeroDivisionError] exactly when both
    options are numbers and the cycle length is zero; otherwise it is
    [ValueError] (an option that is no number, or a count that is a NaN)
    or [OverflowError] (an infinite count, as for [--duration inf]). *)
Theorem run_stops_where_numstim_fails (a : args) (j : job) (e : string) :
  numstim float a = inl e ->
  run float isfile a j = mkTrace [] [] (Raise e) /\
  (e = "ZeroDivisionError" \/ e = "ValueError" \/ e = "OverflowError") /\
  (e = "ZeroDivisionError" <->
   exists d b, float (duration a) = Some d /\ float (bcl a) = Some b /\
               Float64.is_zero (Float64.to_float b) = true).
Proof.
  intros E. split.
  - unfold run, command. rewrite E. cbn [fmt Py.format bind]. reflexivity.
  - unfold numstim in E.
    destruct (float (duration a)) as [ d | ];
      [ | injection E as <-; split; [ auto | ];
          split; [ discriminate | intros (d' & b' & Ed & _); discriminate ] ].
    destruct (float (bcl a)) as [ b | ];
      [ | injection E as <-; split; [ auto | ];
          split; [ discriminate | intros (d' & b' & _ & Eb & _); discriminate ] ].
    unfold Float64.div in E.
    destruct (Float64.is_zero (Float64.to_float b)) eqn:Z'.
    + injection E as <-. split; [ auto | ]. split; [ | reflexivity ].
      intros _. exists d, b. auto.
    + assert (N : e <> "ZeroDivisionError").
      { unfold Float64.int in E.
        destruct (Float64.add _ _); [ discriminate | | ];
          injection E as <-; discriminate. }
      split.
      * unfold Float64.int in E.
        destruct (Float64.add _ _); [ discriminate | | ];
          injection E as <-; auto.
      * split; [ intros H; contradiction | ].
        intros (d' & b' & [= <-] & [= <-] & Z''). congruence.
Qed.

(** Of the three models the parser lets through, only
    tenTusscherPanfilov has its stimulus assigned to [K_i]: the tests of
    [run] are for the names MBRDR and ORd, which are not among the
    choices, so that for DrouhardRoberge and OHara ['--imp=...'] follows
    ['--stim-assign', 'on'] directly. *)
Theorem run_stim_species_only_for_tenTusscherPanfilov (a : args) (j : job)
    (n : Z) :
  numstim float a = inr n ->
  In (EP a) EP_choices ->
  exists rest,
    command float a j =
      inr ([Str "--duration"; Str (duration a); Str "--stim-assign"; Str "on"]
           ++ (if String.eqb (EP a) "tenTusscherPanfilov"
               then [Str "--stim-species"; Str "K_i"] else [])
           ++ Str ("--imp=" ++ EP a)%string :: rest).
Proof.
  intros En HE. unfold command. rewrite En.
  cbn [fmt Py.format bind]. rewrite !RestitutionFacts.append_empty_r.
  destruct HE as [<- | [<- | [<- | []]]]; cbn [String.eqb Ascii.eqb Bool.eqb existsb orb app];
    destruct (negb (String.eqb (EP_par a) ""));
    destruct (negb (String.eqb (ID a) ""));
    cbn [fmt Py.format bind app]; eexists; reflexivity.
Qed.

End Facts.

Lemma run_stops_where_numstim_fails_witness :
  run float_of_example (fun _ => false)
    (mkArgs "OHara" "" "missing.sv" "inf" "500" "") (mkJob "exp") =
    mkTrace [] [] (Raise "OverflowError") /\
  ("OverflowError" = "ZeroDivisionError" \/ "OverflowError" = "ValueError"
   \/ "OverflowError" = "OverflowError") /\
  ("OverflowError" = "ZeroDivisionError" <->
   exists d b,
     float_of_example "inf" = Some d /\ float_of_example "500" = Some b /\
     Float64.is_zero (Float64.to_float b) = true).
Proof.
  apply (run_stops_where_numstim_fails float_of_example (fun _ => false)
           (mkArgs "OHara" "" "missing.sv" "inf" "500" "") (mkJob "exp")
           "OverflowError").
  vm_compute. reflexivity.
Defined.

Lemma run_stim_species_only_for_tenTusscherPanfilov_witness :
  exists rest,
    command float_of_example (mkArgs "OHara" "" "" "1200" "500" "")
      (mkJob "exp") =
      inr ([Str "--duration"; Str "1200"; Str "--stim-assign"; Str "on"]
           ++ (if String.eqb "OHara" "tenTusscherPanfilov"
               then [Str "--stim-species"; Str "K_i"] else [])
           ++ Str ("--imp=" ++ "OHara")%string :: rest).
Proof.
  apply (run_stim_species_only_for_tenTusscherPanfilov float_of_example
           (mkArgs "OHara" "" "" "1200" "500" "") (mkJob "exp") 3).
  - vm_compute. reflexivity.
  - right. right. left. reflexivity.
Defined.

(** *** [jobID] *)

Lemma append_assoc (s t u : string) :
  ((s ++ t) ++ u = s ++ (t ++ u))%string.
Proof.
  induction s as [ | c s IH ]; [ reflexivity | ].
  change (String c ((s ++ t) ++ u) = String c (s ++ (t ++ u)))%string.
  now rewrite IH.
Qed.

(** The identifier joins the plug-in and its parameters without a
    separator, so it does not tell where one ends: moving a part [t]
    from the end of [--plug_in] to the start of [--plug_par] leaves the
    identifier, and with it the output directory, the same. *)
Theorem jobID_runs_plug_in_and_plug_par_together (a : args)
    (s t u : string) :
  jobID a (s ++ t)%string u = jobID a s (t ++ u)%string /\
  exists ID, jobID a s (t ++ u)%string = Some ID.
Proof.
  unfold jobID. cbn [Py.format].
  split; [ | eauto ]. now rewrite !append_assoc.
Qed.

End BasicBenchExtFacts.
